(** * MealMatch: the recipe proxy and the client state store

    A shallow embedding of [backend/server.js], of the client's
    [utils/recipeUtils.js] and [context/MealMatchContext.jsx], and of
    [getMatchScore] from the home page, followed by the properties of the
    specification that were checked against them. *)

From Stdlib Require Import Ascii String ZArith QArith Qround Qpower Lqa Sorted.
From stdpp Require Import base list strings pretty gmap.

Local Open Scope string_scope.
Local Open Scope list_scope.
Set Warnings "-register-all,-clear-no-such-hyp".

(** ** The fragment of JavaScript the program runs on *)

Module JS.

(** A JavaScript string is a sequence of UTF-16 code units.  [string] carries
    the code units below 256, one per [ascii]. *)

Definition code (c : ascii) : nat := nat_of_ascii c.

(** White space and line terminators, as [String.prototype.trim] and the
    regular expression class [\s] take them: TAB, LF, VT, FF, CR, SP, NBSP. *)
Definition is_white (c : ascii) : bool :=
  let n := code c in
  (Nat.leb 9 n && Nat.leb n 13) || Nat.eqb n 32 || Nat.eqb n 160.

(** The regular expression class [\d]. *)
Definition is_digit (c : ascii) : bool :=
  let n := code c in Nat.leb 48 n && Nat.leb n 57.

Fixpoint trimStart (s : string) : string :=
  match s with
  | String c rest => if is_white c then trimStart rest else s
  | EmptyString => EmptyString
  end.

Fixpoint trimEnd (s : string) : string :=
  match s with
  | EmptyString => EmptyString
  | String c rest =>
      match trimEnd rest with
      | EmptyString => if is_white c then EmptyString else String c EmptyString
      | kept => String c kept
      end
  end.

(** [s.trim()] *)
Definition trim (s : string) : string := trimEnd (trimStart s).

(** [s.split(sep)] for a one-character separator: the text before the first
    separator, and the pieces after it. *)
Fixpoint pieces (sep : ascii) (s : string) : string * list string :=
  match s with
  | EmptyString => (EmptyString, [])
  | String c rest =>
      let '(piece, more) := pieces sep rest in
      if Ascii.eqb c sep then (EmptyString, piece :: more)
      else (String c piece, more)
  end.

Definition split (sep : ascii) (s : string) : list string :=
  let '(piece, more) := pieces sep s in piece :: more.

(** [s.split(/\r?\n/)] *)
Fixpoint line_pieces (s : string) : string * list string :=
  match s with
  | EmptyString => (EmptyString, [])
  | String c rest =>
      let '(piece, more) := line_pieces rest in
      if Ascii.eqb c "010" then (EmptyString, piece :: more)
      else if Ascii.eqb c "013" then
        match rest with
        | String "010" _ => (EmptyString, more)
        | _ => (String c piece, more)
        end
      else (String c piece, more)
  end.

Definition split_lines (s : string) : list string :=
  let '(piece, more) := line_pieces s in piece :: more.

(** [pieces.join(sep)] on an array of strings. *)
Definition join (sep : string) (l : list string) : string := String.concat sep l.

(** [s.toLowerCase()] on code units below 256: A-Z, and the capital letters
    of the Latin-1 supplement (U+00C0 to U+00DE, the multiplication sign
    apart), move up by 32. *)
Definition lower (c : ascii) : ascii :=
  let n := code c in
  if (Nat.leb 65 n && Nat.leb n 90)
     || (Nat.leb 192 n && Nat.leb n 222 && negb (Nat.eqb n 215))
  then ascii_of_nat (n + 32) else c.

Fixpoint toLowerCase (s : string) : string :=
  match s with
  | EmptyString => EmptyString
  | String c rest => String (lower c) (toLowerCase rest)
  end.

(** [s.replace(/^\d+\.\s*/, '')]: a leading run of digits, the dot after it
    and the white space after the dot are dropped; a string that does not
    start that way is returned as it is. *)
Fixpoint skip_digits (s : string) : string :=
  match s with
  | String c rest => if is_digit c then skip_digits rest else s
  | EmptyString => EmptyString
  end.

Definition strip_step_number (s : string) : string :=
  match s with
  | String c _ =>
      if is_digit c then
        match skip_digits s with
        | String "." rest => trimStart rest
        | _ => s
        end
      else s
  | EmptyString => s
  end.

(** [s.replace(/\s+/g, ' ')]: every run of white space becomes one space. *)
Fixpoint collapse_white (s : string) : string :=
  match s with
  | EmptyString => EmptyString
  | String c rest =>
      if is_white c then
        match rest with
        | String d _ => if is_white d then collapse_white rest
                        else String " " (collapse_white rest)
        | EmptyString => String " " EmptyString
        end
      else String c (collapse_white rest)
  end.

(** A [Number] is a double.  [Q] carries the value of the finite ones; the
    result of an operation is the exact result rounded to the nearest double, a
    tie going to the even significand.  The range of the exponent is not
    modelled: the quotients and products of this program are 0 or lie between
    2^-32 and 100. *)

(** The exponent [e] of a positive number: [2^e <= x < 2^(e+1)]. *)
Definition exponent (x : Q) : Z :=
  let e := (Z.log2 (Qnum x) - Z.log2 (Zpos (Qden x)))%Z in
  if Qle_bool (2 ^ e) x then e else (e - 1)%Z.

(** The nearest integer, a half going to the even one. *)
Definition nearest_even (x : Q) : Z :=
  let f := Qfloor x in
  match Qcompare (x - inject_Z f) (1 # 2) with
  | Lt => f
  | Gt => (f + 1)%Z
  | Eq => if Z.even f then f else (f + 1)%Z
  end.

(** The nearest double: 53 significant bits. *)
Definition nearest_double_pos (x : Q) : Q :=
  let e := exponent x in
  (inject_Z (nearest_even (x * 2 ^ (52 - e))) * 2 ^ (e - 52))%Q.

Definition nearest_double (x : Q) : Q :=
  match Qcompare x 0 with
  | Eq => 0%Q
  | Gt => nearest_double_pos x
  | Lt => (- nearest_double_pos (- x))%Q
  end.

(** [x / y] and [x * y].  A quotient by zero is [NaN] or an infinity, none of
    which [Q] has. *)
Definition divide (x y : Q) : option Q :=
  if Qeq_bool y 0 then None else Some (nearest_double (x / y)).

Definition times (x y : Q) : Q := nearest_double (x * y).

(** [Math.round(x)]: the integer nearest to [x], a half going up. *)
Definition Math_round (x : Q) : Z := Qfloor (x + (1 # 2))%Q.

(** The length of an array, as a number. *)
Definition number_of (n : nat) : Q := inject_Z (Z.of_nat n).

(** A value received as JSON, or [undefined].  The numbers of a payload are
    only ever tested and printed by this program, so such a number is carried
    by the text that [String(n)] prints for it.  An object is its own
    properties, in order. *)
Inductive value : Type :=
  | Undefined
  | Null
  | Bool (b : bool)
  | Num (text : string)
  | Str (s : string)
  | Arr (items : list value)
  | Obj (fields : list (string * value)).

(** A call either returns or throws an [Error] with a message. *)
Inductive result (A : Type) : Type :=
  | Ok (a : A)
  | Throw (message : string).
Arguments Ok {A} a.
Arguments Throw {A} message.

Global Instance result_ret : MRet result := @Ok.
Global Instance result_bind : MBind result := λ A B k r,
  match r with
  | Ok a => k a
  | Throw message => Throw message
  end.
Global Instance result_fmap : FMap result := λ A B f r,
  match r with
  | Ok a => Ok (f a)
  | Throw message => Throw message
  end.

(** [Boolean(v)], the test of [if], [!], [&&], [||] and [filter(Boolean)]. *)
Definition truthy (v : value) : bool :=
  match v with
  | Undefined | Null => false
  | Bool b => b
  | Num text => negb (String.eqb text "0" || String.eqb text "NaN")
  | Str s => negb (String.eqb s "")
  | Arr _ | Obj _ => true
  end.

Definition nullish (v : value) : bool :=
  match v with
  | Undefined | Null => true
  | _ => false
  end.

(** [a ?? b] and [a || b] *)
Definition coalesce (a b : value) : value := if nullish a then b else a.
Definition or_else (a b : value) : value := if truthy a then a else b.

Fixpoint own (fields : list (string * value)) (name : string) : option value :=
  match fields with
  | [] => None
  | (k, v) :: rest => if String.eqb k name then Some v else own rest name
  end.

(** [v.name] where [v] is neither [null] nor [undefined], for the property
    names this program reads from payloads; none of them is inherited, so
    only an object answers, with its own property. *)
Definition prop (v : value) (name : string) : value :=
  match v with
  | Obj fields => default Undefined (own fields name)
  | _ => Undefined
  end.

Definition cannot_read (v : value) (name : string) : string :=
  "Cannot read properties of "
  +:+ (match v with Null => "null" | _ => "undefined" end)
  +:+ " (reading '" +:+ name +:+ "')".

(** [v.name] and [v?.name] *)
Definition member (v : value) (name : string) : result value :=
  if nullish v then Throw (cannot_read v name) else Ok (prop v name).
Definition member_opt (v : value) (name : string) : value :=
  if nullish v then Undefined else prop v name.

(** [v?.[0]] *)
Definition first_opt (v : value) : value :=
  match v with
  | Arr (x :: _) => x
  | Str (String c _) => Str (String c EmptyString)
  | Obj fields => default Undefined (own fields "0")
  | _ => Undefined
  end.

(** The test [v.length] of a value that is neither [null] nor [undefined]. *)
Definition has_length (v : value) : bool :=
  match v with
  | Arr items => negb (bool_decide (items = []))
  | Str s => negb (String.eqb s "")
  | Obj fields => truthy (default Undefined (own fields "length"))
  | _ => false
  end.

(** The conversion to a string of a template literal and of [join].  An
    object received as JSON prints as [[object Object]] unless it has a
    property of its own named [toString], which is then not callable. *)
Fixpoint ToString (v : value) : result string :=
  match v with
  | Undefined => Ok "undefined"
  | Null => Ok "null"
  | Bool true => Ok "true"
  | Bool false => Ok "false"
  | Num text => Ok text
  | Str s => Ok s
  | Arr items =>
      texts ← (fix each (l : list value) : result (list string) :=
                 match l with
                 | [] => Ok []
                 | x :: rest =>
                     t ← (match x with
                          | Undefined | Null => Ok ""
                          | _ => ToString x
                          end);
                     ts ← each rest;
                     Ok (t :: ts)
                 end) items;
      Ok (join "," texts)
  | Obj fields =>
      match own fields "toString" with
      | Some _ => Throw "Cannot convert object to primitive value"
      | None => Ok "[object Object]"
      end
  end.

(** The values that print: no object met while printing has a property of its
    own named [toString].  Every string, number and boolean is one. *)
Fixpoint plain (v : value) : bool :=
  match v with
  | Obj fields => negb (bool_decide (is_Some (own fields "toString")))
  | Arr items => forallb plain items
  | _ => true
  end.


(** [items.join(sep)] on an array of values. *)
Definition join_values (sep : string) (items : list value) : result string :=
  texts ← mapM (λ x, if nullish x then Ok "" else ToString x) items;
  Ok (join sep texts).

(** The method call [v.toString()], named [what] in the error message. *)
Definition toString (what : string) (v : value) : result string :=
  match v with
  | Undefined | Null => Throw (cannot_read v "toString")
  | Obj fields =>
      match own fields "toString" with
      | Some _ => Throw (what +:+ ".toString is not a function")
      | None => Ok "[object Object]"
      end
  | _ => ToString v
  end.

(** The primitive values, which print without calling into the value. *)
Inductive prim : Type :=
  | PUndefined
  | PNull
  | PBool (b : bool)
  | PNum (text : string)
  | PStr (s : string).

Definition of_prim (p : prim) : value :=
  match p with
  | PUndefined => Undefined
  | PNull => Null
  | PBool b => Bool b
  | PNum text => Num text
  | PStr s => Str s
  end.

Definition show (p : prim) : string :=
  match p with
  | PUndefined => "undefined"
  | PNull => "null"
  | PBool true => "true"
  | PBool false => "false"
  | PNum text => text
  | PStr s => s
  end.

Definition ptruthy (p : prim) : bool := truthy (of_prim p).
Definition por_else (a b : prim) : prim := if ptruthy a then a else b.

End JS.

Import JS.

(** ** The proxy: [backend/server.js] *)

Module Backend.

(** The environment variables the server reads; an unset variable and an
    empty one are both the empty string. *)
Record env : Type := {
  SPOONACULAR_API_KEY : string;
  OPENAI_API_KEY : string;
}.

(** [openaiClient]: a client when the key is set, [null] otherwise. *)
Definition openaiClient (e : env) : option string :=
  if String.eqb (OPENAI_API_KEY e) "" then None else Some (OPENAI_API_KEY e).

(** What [fetch(url)] gives: the promise rejects, or resolves to a response
    with a status, a text and a JSON reading of its body. *)
Record response : Type := {
  status : nat;
  text : result string;
  json : result value;
}.

Inductive fetched : Type :=
  | Rejected (message : string)
  | Resolved (r : response).

Definition ok (r : response) : bool :=
  Nat.leb 200 (status r) && Nat.leb (status r) 299.

(** What the services answer to the one request a handler sends to each. *)
Record upstream : Type := {
  mealdb_reply : fetched;
  spoonacular_reply : fetched;
  openai_reply : result value;
}.

Definition fetchJson (reply : fetched) : result value :=
  match reply with
  | Rejected message => Throw message
  | Resolved r =>
      if ok r then json r
      else message ← text r;
           Throw ("Request failed (" +:+ pretty (status r) +:+ "): " +:+ message)
  end.

Definition fetchFromMealDb (up : upstream) : result value :=
  fetchJson (mealdb_reply up).

Definition buildSpoonacularUrl (e : env) : result unit :=
  if String.eqb (SPOONACULAR_API_KEY e) ""
  then Throw "Spoonacular API key is not configured"
  else Ok tt.

Definition fetchFromSpoonacular (e : env) (up : upstream) : result value :=
  _ ← buildSpoonacularUrl e; fetchJson (spoonacular_reply up).

(** [withSafeFetch]: the value of the call, or [{ error: error.message }]. *)
Definition withSafeFetch (call : result value) : value :=
  match call with
  | Ok v => v
  | Throw message => Obj [("error", Str message)]
  end.

Definition known_sources : list string := ["mealdb"; "spoonacular"; "both"].

Definition normalizeSource (source : value) : result string :=
  let source := match source with Undefined => Str "both" | _ => source end in
  value ← toString "source" source;
  let value := toLowerCase value in
  Ok (if bool_decide (value ∈ known_sources) then value else "both").

Definition sanitizeCsv (value : value) : result string :=
  let value := match value with Undefined => Str "" | _ => value end in
  match value with
  | Str s => Ok (join "," (filter (λ item, item ≠ "") (trim <$> split "," s)))
  | Null => Throw (cannot_read Null "split")
  | _ => Throw "value.split is not a function"
  end.

Definition mapComplexSearchResult (entry : value) : result value :=
  let entry := match entry with Undefined => Obj [] | _ => entry end in
  id ← member entry "id";
  title ← member entry "title";
  image ← member entry "image";
  sourceUrl ← member entry "sourceUrl";
  readyInMinutes ← member entry "readyInMinutes";
  servings ← member entry "servings";
  usedIngredients ← member entry "usedIngredients";
  extendedIngredients ← member entry "extendedIngredients";
  missedIngredients ← member entry "missedIngredients";
  unusedIngredients ← member entry "unusedIngredients";
  Ok (Obj [("id", id); ("title", title); ("image", image);
           ("sourceUrl", sourceUrl); ("readyInMinutes", readyInMinutes);
           ("servings", servings);
           ("usedIngredients",
             coalesce usedIngredients (coalesce extendedIngredients (Arr [])));
           ("missedIngredients", coalesce missedIngredients (Arr []));
           ("unusedIngredients", coalesce unusedIngredients (Arr []))]).

(** [v === 'text'] *)
Definition is_text (v : value) (s : string) : bool :=
  match v with
  | Str t => String.eqb t s
  | _ => false
  end.

Definition getMealDetail (e : env) (up : upstream)
    (id sourcePreference : value) : result value :=
  let sourcePreference :=
    match sourcePreference with Undefined => Str "mealdb" | _ => sourcePreference end in
  selectedSource ←
    normalizeSource (if is_text sourcePreference "both" then Str "mealdb"
                     else sourcePreference);
  if String.eqb selectedSource "spoonacular" then
    _ ← ToString id;
    meal ← fetchFromSpoonacular e up;
    Ok (Obj [("source", Str "spoonacular"); ("meal", meal)])
  else
    _ ← ToString id;
    data ← fetchFromMealDb up;
    let meal := first_opt (member_opt data "meals") in
    if truthy meal then Ok (Obj [("source", Str "mealdb"); ("meal", meal)])
    else Throw "Recipe not found".

(** The receiver of [.map], [.flatMap]: an array, or a [TypeError], which
    names the method on a receiver that is [null] or [undefined] and the
    callee, as the source writes it, on any other. *)
Definition array_of (callee method : string) (v : value) : result (list value) :=
  match v with
  | Arr items => Ok items
  | Undefined | Null => Throw (cannot_read v method)
  | _ => Throw (callee +:+ " is not a function")
  end.

(** The receiver of [.trim()], [.split(...)]: a string, or a [TypeError]. *)
Definition string_of (callee method : string) (v : value) : result string :=
  match v with
  | Str s => Ok s
  | Undefined | Null => Throw (cannot_read v method)
  | _ => Throw (callee +:+ " is not a function")
  end.

Definition normalizeMealIngredients (meal source : value) : result (list value) :=
  if is_text source "spoonacular" then
    items ← array_of "(meal?.extendedIngredients ?? []).map" "map"
              (coalesce (member_opt meal "extendedIngredients") (Arr []));
    lines ← mapM (λ ingredient,
               original ← member ingredient "original";
               if truthy original then Ok original
               else
                 amount ← member ingredient "amount";
                 unit ← member ingredient "unit";
                 name ← member ingredient "name";
                 let parts := List.filter truthy [amount; unit; name] in
                 joined ← join_values " " parts;
                 Ok (Str (trim joined))) items;
    Ok (List.filter truthy lines)
  else
    lines ← mapM (λ index,
               let name := member_opt meal ("strIngredient" +:+ pretty (index + 1)) in
               let quantity := member_opt meal ("strMeasure" +:+ pretty (index + 1)) in
               if negb (truthy name) then Ok Null
               else
                 trimmedName ← trim <$> string_of "name.trim" "trim" name;
                 if String.eqb trimmedName "" then Ok Null
                 else
                   trimmedQuantity ←
                     (if nullish quantity then Ok Undefined
                      else Str ∘ trim <$> string_of "quantity?.trim" "trim" quantity);
                   if truthy trimmedQuantity then
                     quantityText ← ToString trimmedQuantity;
                     Ok (Str (quantityText +:+ " " +:+ trimmedName))
                   else Ok (Str trimmedName)) (seq 0 20);
    Ok (List.filter truthy lines).

(** [blocks.flatMap(f)] flattens one level of what [f] returned. *)
Definition flatten (results : list value) : list value :=
  results ≫= λ v, match v with Arr items => items | _ => [v] end.

Definition normalizeMealSteps (meal source : value) : result (list value) :=
  if is_text source "spoonacular" then
    let analyzed := coalesce (member_opt meal "analyzedInstructions") (Arr []) in
    blocks ← array_of "analyzed.flatMap" "flatMap" analyzed;
    nested ← mapM (λ block,
               steps ← member block "steps"; Ok (coalesce steps (Arr []))) blocks;
    texts ← mapM (λ step, member step "step") (flatten nested);
    let steps := List.filter truthy texts in
    if negb (bool_decide (steps = [])) then Ok steps
    else if truthy (member_opt meal "instructions") then
      instructions ←
        string_of "meal.instructions.split" "split" (member_opt meal "instructions");
      Ok (List.filter truthy (Str ∘ trim <$> split_lines instructions))
    else Ok []
  else
    if negb (truthy (member_opt meal "strInstructions")) then Ok []
    else
      instructions ←
        string_of "meal.strInstructions.split" "split" (member_opt meal "strInstructions");
      Ok (List.filter truthy
            ((λ line, Str (trim (strip_step_number line))) <$> split_lines instructions)).

Definition nl : string := String "010" EmptyString.
Definition quote : string := String "034" EmptyString.

(** [steps.map((step, index) => ...)]: the callback with the index. *)
Fixpoint mapM_indexed {A B} (f : A → nat → result B) (index : nat) (l : list A)
    : result (list B) :=
  match l with
  | [] => Ok []
  | x :: rest => y ← f x index; ys ← mapM_indexed f (S index) rest; Ok (y :: ys)
  end.

Definition buildSoraPrompt (recipeName : value) (ingredients steps : list value)
    : result string :=
  ingredientLines ← mapM (λ item, t ← ToString item; Ok ("- " +:+ t)) ingredients;
  let ingredientsList := join nl ingredientLines in
  stepLines ← mapM_indexed (λ step index,
                 t ← ToString step; Ok (pretty (index + 1) +:+ ". " +:+ t)) 0 steps;
  let stepsList := join nl stepLines in
  name ← ToString recipeName;
  Ok (trim (join nl [
    "";
    "Create a top-down cooking instruction video showing how to make the recipe: "
      +:+ quote +:+ name +:+ quote +:+ ".";
    "";
    "Ingredients visible in the scenes:";
    ingredientsList;
    "";
    "The video should follow these steps in order:";
    stepsList;
    "";
    "For each step, show only hands and utensils in a modern, well-lit kitchen. ";
    "No faces, no identifiable humans.";
    "";
    "Video style:";
    "- Bright natural lighting";
    "- Wooden cutting board";
    "- Stainless steel pots, pans, and tools";
    "- Smooth camera movement";
    "- Clear close-ups for chopping, mixing, and cooking";
    "- Audible light kitchen ambience (no copyrighted music)";
    "";
    "Focus on visually demonstrating the actions exactly as described in the steps:";
    stepsList;
    "";
    "End the video by showing the completed dish nicely plated.";
    ""])).

(** A value of [req.query]: absent, given once, or given several times. *)
Inductive param : Type :=
  | Absent
  | Once (s : string)
  | Several (l : list string).

Definition of_param (p : param) : value :=
  match p with
  | Absent => Undefined
  | Once s => Str s
  | Several l => Arr (Str <$> l)
  end.

(** A destructuring default: [{ name = fallback } = ...]. *)
Definition or_default (v fallback : value) : value :=
  match v with
  | Undefined => fallback
  | _ => v
  end.

(** What a handler sends: [res.status(status).json(body)].  A handler that
    throws instead is answered by the default error handler of Express. *)
Record reply (B : Type) : Type := Respond {
  code : nat;
  body : B;
}.
Arguments Respond {B} code body.
Arguments code {B} r.
Arguments body {B} r.

(** *** [GET /api/recipes] *)

Record payload : Type := {
  source : string;
  mealdb : value;
  spoonacular : value;
  errors : gmap string value;
}.

Definition set_mealdb (v : value) (p : payload) : payload :=
  {| source := source p; mealdb := v; spoonacular := spoonacular p; errors := errors p |}.
Definition set_spoonacular (v : value) (p : payload) : payload :=
  {| source := source p; mealdb := mealdb p; spoonacular := v; errors := errors p |}.
Definition set_error (key : string) (v : value) (p : payload) : payload :=
  {| source := source p; mealdb := mealdb p; spoonacular := spoonacular p;
     errors := <[key := v]> (errors p) |}.

(** The query of a search; [number] only goes into the request sent on. *)
Record search_query : Type := {
  ingredients : param;
  q_source : param;
  diet : param;
  intolerances : param;
}.

Inductive search_body : Type :=
  | Results (p : payload)
  | Failed (error : string) (details : option payload).

(** One entry of [tasks]: [withSafeFetch(fn).then(result => ...)], where [fn]
    assigns to the payload as its last step, or throws before it. *)
Definition task (key : string) (fn : payload → result payload) (p : payload) : payload :=
  let '(result, p) :=
    match fn p with
    | Ok assigned => (Undefined, assigned)
    | Throw message => (withSafeFetch (Throw message), p)
    end in
  if truthy (member_opt result "error") then set_error key (prop result "error") p
  else p.

Definition search_mealdb (up : upstream) (p : payload) : result payload :=
  data ← fetchFromMealDb up;
  Ok (set_mealdb (coalesce (member_opt data "meals") (Arr [])) p).

Definition search_spoonacular (e : env) (up : upstream) (q : search_query)
    (p : payload) : result payload :=
  let diet := or_default (of_param (diet q)) (Str "") in
  let intolerances := or_default (of_param (intolerances q)) (Str "") in
  let hasDietFilter := truthy (or_else diet intolerances) in
  if hasDietFilter then
    complexSearch ← fetchFromSpoonacular e up;
    let results :=
      match member_opt complexSearch "results" with
      | Arr items => items
      | _ => []
      end in
    mapped ← mapM mapComplexSearchResult results;
    Ok (set_spoonacular (Arr mapped) p)
  else
    data ← fetchFromSpoonacular e up;
    Ok (set_spoonacular (match data with Arr _ => data | _ => Arr [] end) p).

(** [await Promise.all(tasks)]: the two tasks assign to different fields of
    the payload, so they are run here one after the other. *)
Definition fan_out (e : env) (up : upstream) (q : search_query)
    (selectedSource : string) : payload :=
  let includeMealDb :=
    String.eqb selectedSource "mealdb" || String.eqb selectedSource "both" in
  let includeSpoonacular :=
    String.eqb selectedSource "spoonacular" || String.eqb selectedSource "both" in
  let payload :=
    {| source := selectedSource; mealdb := Arr []; spoonacular := Arr []; errors := ∅ |} in
  let payload := if includeMealDb then task "mealdb" (search_mealdb up) payload else payload in
  let payload :=
    if includeSpoonacular then task "spoonacular" (search_spoonacular e up q) payload
    else payload in
  payload.

Definition get_recipes (e : env) (up : upstream) (q : search_query)
    : result (reply search_body) :=
  sanitizedIngredients ← sanitizeCsv (of_param (ingredients q));
  if String.eqb sanitizedIngredients "" then
    Ok (Respond 400 (Failed "Ingredients query parameter is required" None))
  else
    selectedSource ← normalizeSource (or_default (of_param (q_source q)) (Str "both"));
    let payload := fan_out e up q selectedSource in
    if negb (has_length (mealdb payload)) && negb (has_length (spoonacular payload)) then
      let status := if Nat.eqb (size (errors payload)) 0 then 404 else 502 in
      Ok (Respond status (Failed "No recipes found" (Some payload)))
    else Ok (Respond 200 (Results payload)).

(** *** [GET /api/recipes/:id] *)

Definition get_recipe (e : env) (up : upstream) (id : string) (q_source : param)
    : result (reply value) :=
  let source := or_default (of_param q_source) (Str "mealdb") in
  let detail := withSafeFetch (getMealDetail e up (Str id) source) in
  if truthy (member_opt detail "error") then
    let status := if is_text (prop detail "error") "Recipe not found" then 404 else 502 in
    Ok (Respond status (Obj [("error", prop detail "error")]))
  else Ok (Respond 200 detail).

(** *** [POST /api/video] *)

Definition post_video (e : env) (up : upstream) (req_body : value)
    : result (reply value) :=
  recipeId ←
    (if nullish req_body
     then Throw "Cannot destructure property 'recipeId' of 'req.body' as it is undefined."
     else Ok (prop req_body "recipeId"));
  let source := or_default (prop req_body "source") (Str "mealdb") in
  let preview := or_default (prop req_body "preview") (Bool false) in
  if negb (truthy recipeId) then
    Ok (Respond 400 (Obj [("error", Str "recipeId is required")]))
  else
    let detail := withSafeFetch (getMealDetail e up recipeId source) in
    if truthy (member_opt detail "error") then
      let status := if is_text (prop detail "error") "Recipe not found" then 404 else 502 in
      Ok (Respond status (Obj [("error", prop detail "error")]))
    else
      recipeName ←
        (if is_text (prop detail "source") "spoonacular"
         then member (prop detail "meal") "title"
         else strMeal ← member (prop detail "meal") "strMeal";
              Ok (or_else strMeal (Str "MealMatch Recipe")));
      ingredients ← normalizeMealIngredients (prop detail "meal") (prop detail "source");
      steps ← normalizeMealSteps (prop detail "meal") (prop detail "source");
      if bool_decide (ingredients = []) || bool_decide (steps = []) then
        Ok (Respond 400
              (Obj [("error",
                     Str "Recipe is missing ingredients or steps for video generation")]))
      else
        soraPrompt ← buildSoraPrompt recipeName ingredients steps;
        if truthy preview || bool_decide (openaiClient e = None) then
          Ok (Respond 200
                (Obj [("prompt", Str soraPrompt); ("video", Null);
                      ("preview", Bool true);
                      ("missingApiKey", Bool (bool_decide (openaiClient e = None)))]))
        else
          let videoResponse := withSafeFetch (openai_reply up) in
          if truthy (member_opt videoResponse "error") then
            Ok (Respond 502
                  (Obj [("error", Str "Failed to generate video");
                        ("details", prop videoResponse "error");
                        ("prompt", Str soraPrompt)]))
          else Ok (Respond 200 (Obj [("prompt", Str soraPrompt); ("video", videoResponse)])).

End Backend.

(** ** The client: [utils/recipeUtils.js], [context/MealMatchContext.jsx]
       and the match score of the home page *)

Module Frontend.

Definition sanitizeIngredients (input : value) : result string :=
  let input := match input with Undefined => Str "" | _ => input end in
  match input with
  | Str s => Ok (join "," (filter (λ piece, piece ≠ "") (trim <$> split "," s)))
  | Null => Throw (cannot_read Null "split")
  | _ => Throw "input.split is not a function"
  end.

(** What [toggleFavorite] is called with: a summary, a card or a favorite.
    An absent property is [PUndefined]. *)
Record summary : Type := {
  s_id : prim;
  s_title : prim;
  s_image : prim;
  s_source : prim;
  s_sourceUrl : prim;
  idMeal : prim;
  strMeal : prim;
  strMealThumb : prim;
  strSource : prim;
  strYoutube : prim;
}.

Record favorite : Type := {
  id : prim;
  title : prim;
  image : prim;
  source : prim;
  sourceUrl : prim;
  _supabaseId : prim;
}.

Definition buildFavoriteKey (f : favorite) : string :=
  show (source f) +:+ "-" +:+ show (id f).

Definition normalizeFavorite (item : option summary) : option favorite :=
  match item with
  | None => None
  | Some item =>
      if ptruthy (s_source item) && ptruthy (s_id item) then
        Some {| id := s_id item; title := s_title item; image := s_image item;
                source := s_source item;
                sourceUrl := por_else (s_sourceUrl item) (PStr "");
                _supabaseId := PUndefined |}
      else if ptruthy (idMeal item) || ptruthy (strMeal item) then
        Some {| id := idMeal item; title := strMeal item; image := strMealThumb item;
                source := PStr "mealdb";
                sourceUrl := por_else (strSource item) (por_else (strYoutube item) (PStr ""));
                _supabaseId := PUndefined |}
      else None
  end.

(** [favoriteIds]: [new Set(favorites.map(buildFavoriteKey))] *)
Definition favoriteIds (favorites : list favorite) : gset string :=
  list_to_set (buildFavoriteKey <$> favorites).

(** A row of the hosted [favorites] table.  The README defines it: [id] is
    its primary key, [recipe_id], [source] and [title] are [text not null],
    [image] and [source_url] are [text]. *)
Record row : Type := {
  row_id : string;
  user_id : string;
  recipe_id : prim;
  row_source : prim;
  row_title : prim;
  row_image : prim;
  source_url : prim;
}.

Definition pnullish (p : prim) : bool :=
  match p with
  | PUndefined | PNull => true
  | _ => false
  end.

(** What a [text] column holds of a value sent as JSON. *)
Definition as_text (p : prim) : prim :=
  if pnullish p then PNull else PStr (show p).

(** The client state and the hosted table, its rows in the order in which
    they were inserted. *)
Record store : Type := {
  favorites : list favorite;
  table : list row;
}.

(** How the requests of one [toggleFavorite] to the hosted table end: each
    answers with [error] null or not, and an insert draws the id of its row. *)
Record calls : Type := {
  write_error : bool;
  read_error : bool;
  generated_id : string;
}.

Definition of_row (r : row) : favorite :=
  {| id := recipe_id r; title := row_title r; image := row_image r;
     source := row_source r; sourceUrl := por_else (source_url r) (PStr "");
     _supabaseId := PStr (row_id r) |}.

(** [select(...).eq('user_id', user.id).order('inserted_at', { ascending: false })] *)
Definition select_favorites (uid : string) (t : list row) : list row :=
  reverse (filter (λ r, user_id r = uid) t).

(** [delete().eq('id', id)] *)
Definition delete_row (rid : string) (t : list row) : list row :=
  filter (λ r, row_id r ≠ rid) t.

(** The row that [insert({...})] makes of a favorite. *)
Definition new_row (uid rid : string) (n : favorite) : row :=
  {| row_id := rid; user_id := uid;
     recipe_id := as_text (id n); row_source := as_text (source n);
     row_title := as_text (title n); row_image := as_text (image n);
     source_url := as_text (por_else (sourceUrl n) (PStr "")) |}.

(** [insert({...})]: refused when a [not null] column would be null. *)
Definition insert_row (uid rid : string) (n : favorite) (t : list row) : option (list row) :=
  if pnullish (id n) || pnullish (source n) || pnullish (title n) then None
  else Some (t ++ [new_row uid rid n]).

Definition toggleFavorite (user : option string) (item : option summary)
    (c : calls) (st : store) : store :=
  match normalizeFavorite item with
  | None => st
  | Some normalized =>
      let key := buildFavoriteKey normalized in
      match user with
      | None =>
          let prev := favorites st in
          {| favorites :=
               if existsb (λ f, String.eqb (buildFavoriteKey f) key) prev
               then filter (λ f, buildFavoriteKey f ≠ key) prev
               else prev ++ [normalized];
             table := table st |}
      | Some uid =>
          let existing := find (λ f, String.eqb (buildFavoriteKey f) key) (favorites st) in
          let written :=
            match existing with
            | Some found =>
                if ptruthy (_supabaseId found) then
                  if write_error c then table st
                  else delete_row (show (_supabaseId found)) (table st)
                else
                  if write_error c then table st
                  else default (table st) (insert_row uid (generated_id c) normalized (table st))
            | None =>
                if write_error c then table st
                else default (table st) (insert_row uid (generated_id c) normalized (table st))
            end in
          let data := if read_error c then [] else select_favorites uid written in
          {| favorites := of_row <$> data; table := written |}
      end
  end.

(** The shopping list.  [new Set(list)] keeps the first of equal entries, in
    the order of insertion; [Array.from] reads it back in that order. *)
Definition set_add (s : list string) (x : string) : list string :=
  if bool_decide (x ∈ s) then s else s ++ [x].

Definition new_Set (l : list string) : list string := foldl set_add [] l.

Definition addShoppingItems (items : list (option string)) (prev : list string)
    : list string :=
  let uniqueItems := new_Set prev in
  foldl (λ uniqueItems item,
           match item with
           | Some text => if String.eqb text "" then uniqueItems else set_add uniqueItems text
           | None => uniqueItems
           end) uniqueItems items.

Definition removeShoppingItem (item : string) (prev : list string) : list string :=
  filter (λ entry, entry ≠ item) prev.

Definition clearShoppingList : list string := [].

(** The match score.  A card lists its ingredients with a name and the
    original line, either of which may be missing. *)
Record ingredient : Type := {
  name : option string;
  original : option string;
}.

Record card : Type := {
  usedIngredients : option (list ingredient);
  missedIngredients : option (list ingredient);
}.

Definition normalizeIngredientName (name : string) : string :=
  trim (collapse_white (toLowerCase name)).

(** [a || b] on a text that may be missing. *)
Definition text_or (a : option string) (b : string) : string :=
  match a with
  | Some t => if String.eqb t "" then b else t
  | None => b
  end.

(** [ingredient.name || ingredient.original || ''] *)
Definition label (i : ingredient) : string :=
  text_or (name i) (text_or (original i) "").

(** The ingredients of a list that are not ignored, counted. *)
Definition count_kept (ignored : gset string) (l : option (list ingredient)) : nat :=
  length (filter (λ i, normalizeIngredientName (label i) ∉ ignored) (default [] l)).

(** The score, or [None] where the code would have [NaN]. *)
Definition getMatchScore (c : card) (ignored : gset string) : option Z :=
  let used := count_kept ignored (usedIngredients c) in
  let missed := count_kept ignored (missedIngredients c) in
  let total := (used + missed)%nat in
  if Nat.eqb total 0 then Some 0%Z
  else
    ratio ← divide (number_of used) (number_of total);
    Some (Math_round (times ratio 100)).

End Frontend.

(** ** The other routes of the proxy *)

Module Routes.
Import Backend.

(** [GET /api/cuisines] *)
Definition get_cuisines (up : upstream) : reply value :=
  let data := withSafeFetch (fetchFromMealDb up) in
  if truthy (member_opt data "error") then
    Respond 502 (Obj [("error", prop data "error")])
  else Respond 200 data.

(** [GET /api/recipes/area/:area]; the area only goes into the request
    sent on. *)
Definition get_area (up : upstream) (area : string) : reply value :=
  let data := withSafeFetch (fetchFromMealDb up) in
  if truthy (member_opt data "error") then
    Respond 502 (Obj [("error", prop data "error")])
  else Respond 200 data.

(** [GET /api/random] *)
Record random_query : Type := {
  r_source : param;
  r_diet : param;
  r_tags : param;
}.

Definition random_mealdb (up : upstream) (p : payload) : result payload :=
  data ← fetchFromMealDb up;
  Ok (set_mealdb (coalesce (member_opt data "meals") (Arr [])) p).

Definition random_spoonacular (e : env) (up : upstream) (q : random_query)
    (p : payload) : result payload :=
  let diet := or_default (of_param (r_diet q)) (Str "") in
  let tags := or_default (of_param (r_tags q)) (Str "") in
  fromTags ← sanitizeCsv tags;
  randomTags ← (if negb (String.eqb fromTags "") then Ok fromTags else sanitizeCsv diet);
  data ← fetchFromSpoonacular e up;
  Ok (set_spoonacular (coalesce (member_opt data "recipes") (Arr [])) p).

Definition random_fan_out (e : env) (up : upstream) (q : random_query)
    (selectedSource : string) : payload :=
  let includeMealDb :=
    String.eqb selectedSource "mealdb" || String.eqb selectedSource "both" in
  let includeSpoonacular :=
    String.eqb selectedSource "spoonacular" || String.eqb selectedSource "both" in
  let payload :=
    {| source := selectedSource; mealdb := Arr []; spoonacular := Arr []; errors := ∅ |} in
  let payload := if includeMealDb then task "mealdb" (random_mealdb up) payload else payload in
  let payload :=
    if includeSpoonacular then task "spoonacular" (random_spoonacular e up q) payload
    else payload in
  payload.

Definition get_random (e : env) (up : upstream) (q : random_query)
    : result (reply search_body) :=
  selectedSource ← normalizeSource (or_default (of_param (r_source q)) (Str "mealdb"));
  let payload := random_fan_out e up q selectedSource in
  if negb (has_length (mealdb payload)) && negb (has_length (spoonacular payload)) then
    let status := if Nat.eqb (size (errors payload)) 0 then 404 else 502 in
    Ok (Respond status (Failed "No random recipes available" (Some payload)))
  else Ok (Respond 200 (Results payload)).

(** [GET /api/spoonacular/autocomplete]; [number] only goes into the request
    sent on. *)
Definition get_autocomplete (e : env) (up : upstream) (query : param) : reply value :=
  if negb (truthy (of_param query)) then
    Respond 400 (Obj [("error", Str "Query parameter is required")])
  else
    let result := withSafeFetch (fetchFromSpoonacular e up) in
    if truthy (member_opt result "error") then
      Respond 502 (Obj [("error", prop result "error")])
    else Respond 200 result.

(** [GET /api/spoonacular/search] *)
Record complex_query : Type := {
  c_query : param;
  c_diet : param;
  c_intolerances : param;
}.

Definition get_spoonacular_search (e : env) (up : upstream) (q : complex_query)
    : reply value :=
  let query := or_default (of_param (c_query q)) (Str "") in
  let diet := of_param (c_diet q) in
  let intolerances := of_param (c_intolerances q) in
  if negb (truthy query) && negb (truthy diet) && negb (truthy intolerances) then
    Respond 400
      (Obj [("error", Str "Provide at least one of query, diet, or intolerances to search.")])
  else
    let result := withSafeFetch (fetchFromSpoonacular e up) in
    if truthy (member_opt result "error") then
      Respond 502 (Obj [("error", prop result "error")])
    else Respond 200 result.

(** The key of the USDA service: [FDC_API_KEY], or else [USDA_API_KEY], of
    the environment. *)
Record usda_env : Type := {
  env_FDC_API_KEY : string;
  env_USDA_API_KEY : string;
}.

Definition USDA_API_KEY (e : usda_env) : string :=
  if negb (String.eqb (env_FDC_API_KEY e) "") then env_FDC_API_KEY e
  else env_USDA_API_KEY e.

Definition buildUsdaUrl (e : usda_env) : result unit :=
  if String.eqb (USDA_API_KEY e) "" then Throw "USDA API key is not configured"
  else Ok tt.

Definition fetchFromUsda (e : usda_env) (usda_reply : fetched) : result value :=
  _ ← buildUsdaUrl e; fetchJson usda_reply.

(** [GET /api/usda/search] *)
Definition get_usda_search (e : usda_env) (usda_reply : fetched) (query : param)
    : reply value :=
  if negb (truthy (of_param query)) then
    Respond 400 (Obj [("error", Str "Query parameter is required")])
  else
    let data := withSafeFetch (fetchFromUsda e usda_reply) in
    if truthy (member_opt data "error") then
      Respond 502 (Obj [("error", prop data "error")])
    else Respond 200 data.

End Routes.

(** ** The pages: the favorites kept on the device and the pantry *)

Module Pages.
Import Frontend.

(** [p === 'text'] *)
Definition prim_is (p : prim) (s : string) : bool :=
  match p with
  | PStr t => String.eqb t s
  | _ => false
  end.

(** [toSummary]: the summary of the meal of a detail page; [None] is the
    [null] of a meal that is not there. *)
Definition toSummary (data : option summary) (source : prim) : option summary :=
  match data with
  | None => None
  | Some data =>
      if prim_is source "spoonacular" then
        Some {| s_id := s_id data; s_title := s_title data; s_image := s_image data;
                s_source := source; s_sourceUrl := s_sourceUrl data;
                idMeal := PUndefined; strMeal := PUndefined; strMealThumb := PUndefined;
                strSource := PUndefined; strYoutube := PUndefined |}
      else
        Some {| s_id := idMeal data; s_title := strMeal data; s_image := strMealThumb data;
                s_source := PStr "mealdb";
                s_sourceUrl :=
                  por_else (strSource data) (por_else (strYoutube data) (PStr ""));
                idMeal := PUndefined; strMeal := PUndefined; strMealThumb := PUndefined;
                strSource := PUndefined; strYoutube := PUndefined |}
  end.

(** [buildFavoriteKey] called with a summary or a card, as the pages do to
    show whether a recipe is saved: it reads [source] and [id]. *)
Definition buildSummaryKey (s : summary) : string :=
  show (s_source s) +:+ "-" +:+ show (s_id s).

(** What [JSON.parse] reads back of a value that [JSON.stringify] wrote as
    the property of an object: a number that is not finite comes back as
    [null], an [undefined] property is left out and reads [undefined]. *)
Definition JSON_round_trip (p : prim) : prim :=
  match p with
  | PNum text =>
      if bool_decide (text ∈ ["NaN"; "Infinity"; "-Infinity"]) then PNull else p
  | _ => p
  end.

(** A favorite of the client state as [JSON.parse] reads it back from the
    text kept under [mealMatchFavorites]. *)
Definition stored (f : favorite) : summary :=
  {| s_id := JSON_round_trip (id f); s_title := JSON_round_trip (title f);
     s_image := JSON_round_trip (image f); s_source := JSON_round_trip (source f);
     s_sourceUrl := JSON_round_trip (sourceUrl f);
     idMeal := PUndefined; strMeal := PUndefined; strMealThumb := PUndefined;
     strSource := PUndefined; strYoutube := PUndefined |}.

(** The effect that keeps the favorites on the device, and [loadFavorites]
    with no user signed in: [None] is a key that was never written. *)
Definition saveFavorites (favorites : list favorite) : option (list (option summary)) :=
  Some ((Some ∘ stored) <$> favorites).

Definition loadFavorites (kept : option (list (option summary))) : list favorite :=
  match kept with
  | None => []
  | Some items => omap normalizeFavorite items
  end.

(** The pantry.  With a user signed in the items are those that the hosted
    table answers after the writes, or the former ones when reading fails. *)
Definition handleAddPantryItem (user : option string) (refreshed : option (list string))
    (newPantryItem : string) (prev : list string) : result (list string) :=
  cleaned ← sanitizeIngredients (Str newPantryItem);
  if String.eqb cleaned "" then Ok prev
  else
    let tokens := split "," cleaned in
    match user with
    | Some _ => Ok (default prev refreshed)
    | None =>
        Ok (foldl (λ next token,
                     if negb (String.eqb token "") && negb (bool_decide (token ∈ next))
                     then next ++ [token] else next) prev tokens)
    end.

Definition handleRemovePantryItem (user : option string) (refreshed : option (list string))
    (item : string) (prev : list string) : list string :=
  match user with
  | Some _ => default prev refreshed
  | None => filter (λ entry, entry ≠ item) prev
  end.

(** [handleFillFromPantry]: what becomes of the ingredient field. *)
Definition handleFillFromPantry (pantryItems : list string) (ingredients : string) : string :=
  if bool_decide (pantryItems = []) then ingredients else join ", " pantryItems.

End Pages.

(** ** The result list and its order *)

Module Cards.
Import Frontend.

(** A card of the result list: the fields that [buildCardsFromPayload] gives
    it.  The times are numbers, or [null] on a card of TheMealDB. *)
Record recipe_card : Type := {
  card_id : prim;
  card_title : prim;
  card_image : prim;
  card_source : prim;
  card_sourceUrl : prim;
  readyInMinutes : option Q;
  servings : option Q;
  listed : card;
  unusedIngredients : option (list ingredient);
}.

Definition COMMON_SPICES : list string :=
  ["salt"; "pepper"; "garlic powder"; "onion powder"; "paprika"; "cumin";
   "curry powder"; "basil"; "oregano"; "thyme"; "chili powder"; "ginger"].

(** [x - y] *)
Definition subtract (x y : Q) : Q := nearest_double (x - y).

(** [Number.MAX_SAFE_INTEGER] *)
Definition MAX_SAFE_INTEGER : Q := 9007199254740991.

(** [list.sort(comparefn)].  For a comparison that is consistent the
    language fixes the result: the elements in ascending order, those that
    compare equal in their former order.  [None] is the [NaN] of a
    comparison, which counts as 0.  An element goes behind those before
    which it must not stay. *)
Definition behind {A} (comparefn : A → A → option Q) (x y : A) : bool :=
  match comparefn x y with
  | Some v => negb (Qle_bool v 0)
  | None => false
  end.

Fixpoint place {A} (comparefn : A → A → option Q) (x : A) (sorted : list A) : list A :=
  match sorted with
  | [] => [x]
  | y :: rest =>
      if behind comparefn x y then y :: place comparefn x rest else x :: sorted
  end.

Definition Array_sort {A} (comparefn : A → A → option Q) (l : list A) : list A :=
  foldr (place comparefn) [] l.

Definition sortCards (sortOption : string) (ignoreSpices : bool)
    (cards : list recipe_card) : list recipe_card :=
  if String.eqb sortOption "relevance" then cards
  else
    let copy := cards in
    let ignored : gset string :=
      list_to_set (if ignoreSpices then normalizeIngredientName <$> COMMON_SPICES else []) in
    if String.eqb sortOption "missing" then
      Array_sort (λ a b,
              let aMissed := count_kept ignored (missedIngredients (listed a)) in
              let bMissed := count_kept ignored (missedIngredients (listed b)) in
              Some (subtract (number_of aMissed) (number_of bMissed))) copy
    else if String.eqb sortOption "used" then
      Array_sort (λ a b,
              Some (subtract (number_of (count_kept ignored (usedIngredients (listed b))))
                      (number_of (count_kept ignored (usedIngredients (listed a)))))) copy
    else if String.eqb sortOption "match" then
      Array_sort (λ a b,
              scoreB ← getMatchScore (listed b) ignored;
              scoreA ← getMatchScore (listed a) ignored;
              Some (subtract (inject_Z scoreB) (inject_Z scoreA))) copy
    else if String.eqb sortOption "prep" then
      Array_sort (λ a b,
              Some (subtract (default MAX_SAFE_INTEGER (readyInMinutes a))
                      (default MAX_SAFE_INTEGER (readyInMinutes b)))) copy
    else copy.

End Cards.

(** ** Texts: markup and substitutions *)

Module Texts.

(** [text.replace(/<[^>]*>/g, '')]: a tag runs from a [<] to the first [>]
    after it.  Outside of a tag a [<] opens one when a [>] follows somewhere;
    when none does, nothing of the rest can match. *)
Fixpoint has_gt (s : string) : bool :=
  match s with
  | EmptyString => false
  | String c rest => Ascii.eqb c ">" || has_gt rest
  end.

Fixpoint untag (inside : bool) (s : string) : string :=
  match s with
  | EmptyString => EmptyString
  | String c rest =>
      if inside then
        if Ascii.eqb c ">" then untag false rest else untag true rest
      else if Ascii.eqb c "<" then
        if has_gt rest then untag true rest else s
      else String c (untag false rest)
  end.

Definition stripHtml (text : string) : string := trim (untag false text).

(** [s.replace(/\s+/g, '')] *)
Fixpoint remove_white (s : string) : string :=
  match s with
  | EmptyString => EmptyString
  | String c rest =>
      if is_white c then remove_white rest else String c (remove_white rest)
  end.

(** [s.includes(sub)] *)
Fixpoint includes (s sub : string) : bool :=
  String.prefix sub s
  || match s with
     | EmptyString => false
     | String _ rest => includes rest sub
     end.

Definition creme_fraiche : string :=
  "Cr" +:+ String "232" "me fra" +:+ String "238" "che".

Definition SUBSTITUTION_MAP : list (string * list string) :=
  [("butter", ["Olive oil"; "Coconut oil"; "Vegan margarine"]);
   ("milk", ["Almond milk"; "Oat milk"; "Coconut milk"]);
   ("cream", ["Half-and-half"; "Greek yogurt + milk"; "Coconut cream"]);
   ("sourcream", ["Greek yogurt"; creme_fraiche]);
   ("sour", ["Greek yogurt"; creme_fraiche]);
   ("yogurt", ["Sour cream"; "Coconut yogurt"]);
   ("egg", ["Flax egg"; "Chia egg"; "Unsweetened applesauce"]);
   ("eggs", ["Flax egg"; "Chia egg"; "Unsweetened applesauce"]);
   ("sugar", ["Honey"; "Maple syrup"; "Coconut sugar"]);
   ("flour", ["Almond flour"; "Oat flour"; "Gluten-free blend"])].

(** The properties that an object literal inherits; read under one of these
    names, [SUBSTITUTION_MAP[key]] is a function or the prototype, which
    count as true. *)
Definition Object_prototype : list string :=
  ["constructor"; "__defineGetter__"; "__defineSetter__"; "hasOwnProperty";
   "__lookupGetter__"; "__lookupSetter__"; "isPrototypeOf"; "propertyIsEnumerable";
   "toString"; "valueOf"; "__proto__"; "toLocaleString"].

Fixpoint entry_of (key : string) (entries : list (string * list string))
    : option (list string) :=
  match entries with
  | [] => None
  | (base, subs) :: rest => if String.eqb base key then Some subs else entry_of key rest
  end.

(** What [getIngredientSubstitutions] returns: a list of the table, or what
    the table inherits under the key. *)
Inductive substitutions : Type :=
  | Substitutes (subs : list string)
  | Inherited (property : string).

Definition getIngredientSubstitutions (ingredientName : string) : substitutions :=
  let key := remove_white (toLowerCase ingredientName) in
  match entry_of key SUBSTITUTION_MAP with
  | Some exact => Substitutes exact
  | None =>
      if bool_decide (key ∈ Object_prototype) then Inherited key
      else
        match find (λ entry, includes key entry.1) SUBSTITUTION_MAP with
        | Some partial => Substitutes partial.2
        | None => Substitutes []
        end
  end.

End Texts.

(** ** Vocabulary of the properties *)

Definition chars (s : string) : list ascii := list_ascii_of_string s.

(** No comma in a piece; only white space in a string; no white space at
    either end of a string. *)
Definition comma_free (s : string) : Prop := ("," : ascii) ∉ chars s.
Definition blank (s : string) : Prop := Forall (λ c, is_white c = true) (chars s).
Definition tight (s : string) : Prop :=
  (∀ c rest, s = String c rest → is_white c = false)
  ∧ (∀ c init, s = init +:+ String c EmptyString → is_white c = false).

(** [t] is [piece] without the white space at its ends. *)
Definition trimmed_of (piece t : string) : Prop :=
  ∃ before after, piece = before +:+ t +:+ after ∧ blank before ∧ blank after ∧ tight t.

(** Two calls end the same way: with the same value, or both by throwing. *)
Definition same_outcome {A} (a b : result A) : Prop :=
  match a, b with
  | Ok x, Ok y => x = y
  | Throw _, Throw _ => True
  | _, _ => False
  end.

(** What a provider answers to a search, read off its reply.  TheMealDB
    answers with its matches under [meals], or with no such property when it
    has none. *)
Definition mealdb_results (up : Backend.upstream) : result value :=
  data ← Backend.fetchFromMealDb up;
  Ok (coalesce (member_opt data "meals") (Arr [])).

(** A search is filtered when it has a diet or intolerances. *)
Definition filtered (q : Backend.search_query) : bool :=
  truthy (Backend.or_default (Backend.of_param (Backend.diet q)) (Str ""))
  || truthy (Backend.or_default (Backend.of_param (Backend.intolerances q)) (Str "")).

(** Spoonacular is not asked without its key.  To a search by ingredients it
    answers with the array of its matches; to a filtered search, with an
    object that has them under [results], and each match is kept as the card
    that [mapComplexSearchResult] makes of it.  A reply of another shape
    counts as no match. *)
Definition spoonacular_results (e : Backend.env) (up : Backend.upstream)
    (q : Backend.search_query) : result value :=
  if String.eqb (Backend.SPOONACULAR_API_KEY e) ""
  then Throw "Spoonacular API key is not configured"
  else
    match Backend.fetchJson (Backend.spoonacular_reply up) with
    | Throw message => Throw message
    | Ok (Arr matches) => Ok (if filtered q then Arr [] else Arr matches)
    | Ok (Obj fields) =>
        match filtered q, own fields "results" with
        | true, Some (Arr matches) =>
            match mapM Backend.mapComplexSearchResult matches with
            | Ok cards => Ok (Arr cards)
            | Throw message => Throw message
            end
        | _, _ => Ok (Arr [])
        end
    | Ok _ => Ok (Arr [])
    end.

(** A provider is queried when it is the selected source, or both are. *)
Definition queried (provider selected : string) : bool :=
  String.eqb selected provider || String.eqb selected "both".

(** What a queried provider leaves in the payload: the array it answered
    with and no error, or the empty array and, unless it is empty, the
    message of its failure. *)
Inductive settled (answer : result value) (field : value) (error : option value) : Prop :=
  | answered (v : value) :
      answer = Ok v → field = v → error = None → settled answer field error
  | failed (message : string) :
      answer = Throw message → field = Arr [] →
      error = (if String.eqb message "" then None else Some (Str message)) →
      settled answer field error.

(** The answer of Spoonacular to a recipe id that it does not know. *)
Definition no_such_recipe : Backend.response :=
  {| Backend.status := 404;
     Backend.text := Ok "A recipe with the id 999999999 does not exist.";
     Backend.json := Throw "Unexpected token 'A', is not valid JSON" |}.

(** Sample requests: a server with and without its Spoonacular key, a search on both
    providers, a meal of TheMealDB, and answers with and without matches. *)
Definition with_key : Backend.env :=
  {| Backend.SPOONACULAR_API_KEY := "key"; Backend.OPENAI_API_KEY := "" |}.

Definition without_key : Backend.env :=
  {| Backend.SPOONACULAR_API_KEY := ""; Backend.OPENAI_API_KEY := "" |}.

Definition search_for (text : string) : Backend.search_query :=
  {| Backend.ingredients := Backend.Once text; Backend.q_source := Backend.Absent;
     Backend.diet := Backend.Absent; Backend.intolerances := Backend.Absent |}.

Definition answers (data : value) : Backend.fetched :=
  Backend.Resolved {| Backend.status := 200; Backend.text := Ok ""; Backend.json := Ok data |}.

Definition arrabiata : value :=
  Obj [("idMeal", Str "52771"); ("strMeal", Str "Spicy Arrabiata Penne");
       ("strInstructions", Str "1. Boil the penne. 2. Stir in the sauce.");
       ("strIngredient1", Str "penne rigate"); ("strMeasure1", Str "1 pound");
       ("strIngredient2", Str "olive oil"); ("strMeasure2", Str "1/4 cup")].

Definition one_meal_no_recipe : Backend.upstream :=
  {| Backend.mealdb_reply := answers (Obj [("meals", Arr [arrabiata])]);
     Backend.spoonacular_reply := answers (Arr []);
     Backend.openai_reply := Throw "" |}.

Definition recipe_unknown : Backend.upstream :=
  {| Backend.mealdb_reply := Backend.Rejected "fetch failed";
     Backend.spoonacular_reply := Backend.Resolved no_such_recipe;
     Backend.openai_reply := Throw "" |}.

Definition no_meal_no_recipe : Backend.upstream :=
  {| Backend.mealdb_reply := answers (Obj [("meals", Null)]);
     Backend.spoonacular_reply := answers (Arr []);
     Backend.openai_reply := Throw "" |}.



(** What one item of [items] does to the set of the shopping list. *)
Definition add_item (uniqueItems : list string) (item : option string) : list string :=
  match item with
  | Some text =>
      if String.eqb text "" then uniqueItems else Frontend.set_add uniqueItems text
  | None => uniqueItems
  end.

(** The composite keys of a collection of favorites, in its order. *)
Definition keys (l : list Frontend.favorite) : list string :=
  Frontend.buildFavoriteKey <$> l.

(** With a user signed in, the favorites of the client are those of the
    hosted table, whose rows have distinct ids, none of them empty. *)
Definition synced (user : option string) (st : Frontend.store) : Prop :=
  match user with
  | None => True
  | Some uid =>
      Frontend.favorites st
      = Frontend.of_row <$> Frontend.select_favorites uid (Frontend.table st)
      ∧ NoDup (Frontend.row_id <$> Frontend.table st)
      ∧ Forall (λ r, Frontend.row_id r ≠ "") (Frontend.table st)
  end.

(** With a user signed in, the requests of one toggle go through: none
    answers with an error, the favorite has the columns that may not be null,
    and the id drawn for a new row is a new one. *)
Definition accepted (user : option string) (n : Frontend.favorite)
    (c : Frontend.calls) (st : Frontend.store) : Prop :=
  match user with
  | None => True
  | Some _ =>
      Frontend.write_error c = false ∧ Frontend.read_error c = false
      ∧ Frontend.pnullish (Frontend.id n) = false
      ∧ Frontend.pnullish (Frontend.source n) = false
      ∧ Frontend.pnullish (Frontend.title n) = false
      ∧ Frontend.generated_id c ≠ ""
      ∧ Frontend.generated_id c ∉ Frontend.row_id <$> Frontend.table st
  end.

(** A summary of a meal of TheMealDB, an empty store, and the requests of
    two toggles that go through. *)
Definition penne : Frontend.summary :=
  {| Frontend.s_id := PStr "52771"; Frontend.s_title := PStr "Spicy Arrabiata Penne";
     Frontend.s_image := PUndefined; Frontend.s_source := PStr "mealdb";
     Frontend.s_sourceUrl := PUndefined; Frontend.idMeal := PUndefined;
     Frontend.strMeal := PUndefined; Frontend.strMealThumb := PUndefined;
     Frontend.strSource := PUndefined; Frontend.strYoutube := PUndefined |}.

Definition nothing_saved : Frontend.store :=
  {| Frontend.favorites := []; Frontend.table := [] |}.

Definition goes_through (rid : string) : Frontend.calls :=
  {| Frontend.write_error := false; Frontend.read_error := false;
     Frontend.generated_id := rid |}.

(** The favorite that [penne] normalizes to, the same recipe as it was saved
    under another title, and a favorite of Spoonacular. *)
Definition penne_favorite : Frontend.favorite :=
  {| Frontend.id := PStr "52771"; Frontend.title := PStr "Spicy Arrabiata Penne";
     Frontend.image := PUndefined; Frontend.source := PStr "mealdb";
     Frontend.sourceUrl := PStr ""; Frontend._supabaseId := PUndefined |}.

Definition penne_saved : Frontend.favorite :=
  {| Frontend.id := PStr "52771"; Frontend.title := PStr "Arrabiata";
     Frontend.image := PStr "penne.jpg"; Frontend.source := PStr "mealdb";
     Frontend.sourceUrl := PStr "https://example.org/penne";
     Frontend._supabaseId := PUndefined |}.

Definition risotto : Frontend.favorite :=
  {| Frontend.id := PNum "715538"; Frontend.title := PStr "Risotto";
     Frontend.image := PUndefined; Frontend.source := PStr "spoonacular";
     Frontend.sourceUrl := PStr ""; Frontend._supabaseId := PUndefined |}.

(** A collection kept on the device. *)
Definition on_device (l : list Frontend.favorite) : Frontend.store :=
  {| Frontend.favorites := l; Frontend.table := [] |}.

(** Rows of one user in the hosted table. *)
Definition penne_row : Frontend.row :=
  {| Frontend.row_id := "row-1"; Frontend.user_id := "user-1";
     Frontend.recipe_id := PStr "52771"; Frontend.row_source := PStr "mealdb";
     Frontend.row_title := PStr "Arrabiata"; Frontend.row_image := PNull;
     Frontend.source_url := PNull |}.

Definition risotto_row : Frontend.row :=
  {| Frontend.row_id := "row-0"; Frontend.user_id := "user-1";
     Frontend.recipe_id := PStr "715538"; Frontend.row_source := PStr "spoonacular";
     Frontend.row_title := PStr "Risotto"; Frontend.row_image := PNull;
     Frontend.source_url := PNull |}.

(** A client in step with the hosted table, and one that has not read the
    row that another device has written. *)
Definition in_step : Frontend.store :=
  {| Frontend.favorites :=
       Frontend.of_row <$> Frontend.select_favorites "user-1" [risotto_row; penne_row];
     Frontend.table := [risotto_row; penne_row] |}.

Definition stale_client : Frontend.store :=
  {| Frontend.favorites := []; Frontend.table := [penne_row] |}.

(** A card with [used] ingredients at hand and [missed] ones to buy. *)
Definition card_with (used missed : nat) : Frontend.card :=
  let item := {| Frontend.name := Some "salt"; Frontend.original := None |} in
  {| Frontend.usedIngredients := Some (replicate used item);
     Frontend.missedIngredients := Some (replicate missed item) |}.

(** A token of an ingredient list: not empty, no white space at its ends,
    no comma. *)
Definition clean (t : string) : Prop := t ≠ "" ∧ tight t ∧ comma_free t.

(** The characters of which an ingredient list without any ingredient is
    made. *)
Definition separator (c : ascii) : Prop := is_white c = true ∨ c = ","%char.

(** What the sanitizers keep of a string: the pieces between its commas,
    without the white space at their ends, the empty ones apart. *)
Definition tokens (s : string) : list string :=
  filter (λ item, item ≠ "") (trim <$> split "," s).

(** A reply reports a failure in its status and in its body alike: the
    status is 200 exactly when the body has no [error] that counts as true. *)
Definition reported (r : Backend.reply value) : Prop :=
  Backend.code r ∈ [200; 400; 404; 502]
  ∧ (Backend.code r = 200 ↔ truthy (member_opt (Backend.body r) "error") = false).

(** A meal as TheMealDB documents it: when it is an object, its properties
    are texts or [null]. *)
Definition texts_or_null (meal : value) : Prop :=
  match meal with
  | Obj fields => Forall (λ kv, kv.2 = Null ∨ ∃ s, kv.2 = Str s) fields
  | _ => True
  end.

(** A request for a video whose recipe is looked up at TheMealDB: it has a
    body, and its source is left out or is a text that does not read
    [spoonacular]. *)
Definition asks_mealdb (req_body : value) : Prop :=
  nullish req_body = false
  ∧ (prop req_body "source" = Undefined
     ∨ ∃ s, prop req_body "source" = Str s ∧ toLowerCase s ≠ "spoonacular").

(** TheMealDB answers as documented: when the lookup fails, the error has a
    message, and the first meal of an answer has texts or [null] as its
    properties. *)
Definition mealdb_as_documented (up : Backend.upstream) : Prop :=
  match Backend.fetchFromMealDb up with
  | Ok data => texts_or_null (first_opt (member_opt data "meals"))
  | Throw message => message ≠ ""
  end.

(** The line feed. *)
Definition line_feed : ascii := "010"%char.

(** A line of the prompt: a string that is not empty, without white space at
    its ends. *)
Definition text_line (v : value) : Prop := ∃ t, v = Str t ∧ t ≠ "" ∧ tight t.

(** A step of the prompt: such a line, with no line feed in it. *)
Definition one_line (v : value) : Prop :=
  ∃ t, v = Str t ∧ t ≠ "" ∧ tight t ∧ line_feed ∉ chars t.

(** The exact share of the counted ingredients that are at hand, in per cent. *)
Definition percentage (used missed : nat) : Q :=
  (100 * number_of used / number_of (used + missed))%Q.

(** The relative error of a rounding: 2^-53. *)
Definition epsilon : Q := 1 # 9007199254740992.

(** A favorite whose fields [JSON.stringify] and [JSON.parse] give back. *)
Definition JSON_safe (f : Frontend.favorite) : Prop :=
  Forall (λ p, Pages.JSON_round_trip p = p)
    [Frontend.id f; Frontend.title f; Frontend.image f; Frontend.source f;
     Frontend.sourceUrl f].

(** A meal as TheMealDB gives it, and its summary on the detail page. *)
Definition penne_meal : Frontend.summary :=
  {| Frontend.s_id := PUndefined; Frontend.s_title := PUndefined;
     Frontend.s_image := PUndefined; Frontend.s_source := PUndefined;
     Frontend.s_sourceUrl := PUndefined; Frontend.idMeal := PStr "52771";
     Frontend.strMeal := PStr "Spicy Arrabiata Penne";
     Frontend.strMealThumb := PUndefined; Frontend.strSource := PUndefined;
     Frontend.strYoutube := PUndefined |}.

Definition penne_summary : Frontend.summary :=
  {| Frontend.s_id := PStr "52771"; Frontend.s_title := PStr "Spicy Arrabiata Penne";
     Frontend.s_image := PUndefined; Frontend.s_source := PStr "mealdb";
     Frontend.s_sourceUrl := PStr ""; Frontend.idMeal := PUndefined;
     Frontend.strMeal := PUndefined; Frontend.strMealThumb := PUndefined;
     Frontend.strSource := PUndefined; Frontend.strYoutube := PUndefined |}.

(** The names that the spices of the list take in a comparison. *)
Definition ignoredSpices (ignoreSpices : bool) : gset string :=
  list_to_set (if ignoreSpices
               then Frontend.normalizeIngredientName <$> Cards.COMMON_SPICES else []).

(** What a sort option orders the cards by, the lower first. *)
Definition rank (sortOption : string) (ignored : gset string) (c : Cards.recipe_card) : Q :=
  if String.eqb sortOption "missing" then
    number_of (Frontend.count_kept ignored (Frontend.missedIngredients (Cards.listed c)))
  else if String.eqb sortOption "used" then
    - number_of (Frontend.count_kept ignored (Frontend.usedIngredients (Cards.listed c)))
  else if String.eqb sortOption "match" then
    - inject_Z (default 0%Z (Frontend.getMatchScore (Cards.listed c) ignored))
  else if String.eqb sortOption "prep" then
    default Cards.MAX_SAFE_INTEGER (Cards.readyInMinutes c)
  else 0.

(** No tag in a text: no [<] with a [>] somewhere after it. *)
Definition tag_free (s : string) : Prop :=
  ∀ before after, s = before +:+ String "<" after → (">" : ascii) ∉ chars after.

(** [sub] occurs in [s]. *)
Definition occurs (sub s : string) : Prop := ∃ before after, s = before +:+ sub +:+ after.

(** The bases of the table of substitutions. *)
Definition bases : list string := Texts.SUBSTITUTION_MAP.*1.

(** ** Strings *)

Section strings.

Lemma app_String c s t : String c s +:+ t = String c (s +:+ t).
Proof. reflexivity. Qed.

Lemma app_empty_l s : "" +:+ s = s.
Proof. reflexivity. Qed.

Lemma app_empty_r s : s +:+ "" = s.
Proof. induction s as [|c s IH]; [done|]. by rewrite app_String, IH. Qed.

Lemma chars_app s t : chars (s +:+ t) = chars s ++ chars t.
Proof. induction s as [|c s IH]; [done|]. rewrite app_String. simpl. by rewrite IH. Qed.

Lemma blank_cons c s : is_white c = true → blank s → blank (String c s).
Proof. intros Hc Hs. by constructor. Qed.

(** [trimStart] drops a blank prefix and stops at the first other character. *)
Lemma trimStart_spec s :
  ∃ before, s = before +:+ trimStart s ∧ blank before
    ∧ ∀ c rest, trimStart s = String c rest → is_white c = false.
Proof.
  induction s as [|c s (before & Heq & Hblank & Hfirst)].
  - exists "". repeat split; [constructor | discriminate].
  - simpl. destruct (is_white c) eqn:Hc.
    + exists (String c before). rewrite app_String, <- Heq.
      repeat split; [by apply blank_cons | done].
    + exists "". repeat split; [constructor |]. by intros ?? [= <- _].
Qed.

(** [trimEnd] drops a blank suffix and keeps what is before it. *)
Lemma trimEnd_spec s :
  ∃ after, s = trimEnd s +:+ after ∧ blank after
    ∧ ∀ c init, trimEnd s = init +:+ String c "" → is_white c = false.
Proof.
  induction s as [|c s (after & Heq & Hblank & Hlast)].
  - exists "". repeat split; [constructor |]. by intros c [|??].
  - simpl. destruct (trimEnd s) as [|d kept] eqn:Hkept.
    + rewrite app_empty_l in Heq. subst after. destruct (is_white c) eqn:Hc.
      * exists (String c s). rewrite app_empty_l.
        repeat split; [by apply blank_cons |]. by intros ? [|??].
      * exists s. rewrite app_String, app_empty_l.
        repeat split; [done|]. intros c' [|? init].
        -- rewrite app_empty_l. by intros [= <-].
        -- rewrite app_String. intros [= _ Hinit]. by destruct init.
    + exists after. rewrite app_String, <- Heq. repeat split; [done|].
      intros c' [|e init].
      * rewrite app_empty_l. discriminate.
      * rewrite app_String. intros [= _ Hinit]. by apply (Hlast c' init).
Qed.

Lemma trimEnd_first c s :
  is_white c = false → ∃ rest, trimEnd (String c s) = String c rest.
Proof.
  intros Hc. simpl. destruct (trimEnd s); [rewrite Hc|]; eauto.
Qed.

Lemma trim_spec piece : trimmed_of piece (trim piece).
Proof.
  unfold trim.
  destruct (trimStart_spec piece) as (before & Heq & Hbefore & Hfirst).
  destruct (trimEnd_spec (trimStart piece)) as (after & Heq' & Hafter & Hlast).
  exists before, after. repeat split; [congruence | done | done | | done].
  intros c rest Htrim. destruct (trimStart piece) as [|d s] eqn:Hs.
  - discriminate.
  - pose proof (Hfirst d s eq_refl) as Hd.
    destruct (trimEnd_first d s Hd) as (rest' & Hrest).
    rewrite Hrest in Htrim. by injection Htrim as <- _.
Qed.

Lemma join_cons sep x y l : join sep (x :: y :: l) = x +:+ sep +:+ join sep (y :: l).
Proof. reflexivity. Qed.

(** [split] cuts at every separator and nowhere else. *)
Lemma pieces_spec sep s :
  join (String sep "") (split sep s) = s ∧ Forall (λ p, sep ∉ chars p) (split sep s).
Proof.
  unfold split. induction s as [|c s IH]; simpl.
  - split; [done|]. repeat constructor. by intros ?%elem_of_nil.
  - destruct (pieces sep s) as [piece more]. destruct IH as [Hjoin Hfree].
    destruct (Ascii.eqb_spec c sep) as [->|Hne].
    + split.
      * by rewrite join_cons, Hjoin.
      * constructor; [by intros ?%elem_of_nil | done].
    + apply Forall_cons in Hfree as [Hpiece Hmore]. split.
      * destruct more as [|y more]; [by rewrite <- Hjoin|].
        rewrite join_cons in *. by rewrite app_String, Hjoin.
      * constructor; [|done]. simpl. by intros [?|?]%elem_of_cons.
Qed.

End strings.

(** ** The sanitizer of ingredient lists *)

Section sanitizing.
Import Backend Frontend.

(** C6: sanitizing ["chicken, , rice,"] gives ["chicken,rice"]; in general the
    input is cut at its commas into comma-free pieces, each piece loses the
    white space at its ends, the empty results are dropped and the rest is
    joined with single commas; the backend's [sanitizeCsv] and the frontend's
    [sanitizeIngredients] end the same way on every argument, with the same
    text on every string and on the omitted argument. *)
Theorem sanitize_spec :
  sanitizeCsv (Str "chicken, , rice,") = Ok "chicken,rice"
  ∧ (∀ input : string, ∃ pieces : list string,
       join "," pieces = input
       ∧ Forall comma_free pieces
       ∧ Forall (λ piece, trimmed_of piece (trim piece)) pieces
       ∧ sanitizeCsv (Str input)
         = Ok (join "," (filter (λ t, t ≠ "") (trim <$> pieces))))
  ∧ (∀ v : value, same_outcome (sanitizeCsv v) (sanitizeIngredients v))
  ∧ (∀ input : string, sanitizeIngredients (Str input) = sanitizeCsv (Str input))
  ∧ sanitizeIngredients Undefined = sanitizeCsv Undefined.
Proof.
  split; [reflexivity|]. split; [|split; [|split; reflexivity]].
  - intros input. exists (split "," input).
    destruct (pieces_spec "," input) as [Hjoin Hfree].
    split; [done|]. split; [done|]. split; [|done].
    apply Forall_forall. intros piece _. apply trim_spec.
  - intros []; simpl; done.
Qed.

End sanitizing.

(** ** Values that print *)

Section printing.

(** Induction on a value, with the hypothesis on every item of an array and
    on every property of an object. *)
Lemma value_induction (P : value → Prop) :
  P Undefined → P Null → (∀ b, P (Bool b)) → (∀ text, P (Num text)) →
  (∀ s, P (Str s)) →
  (∀ items, Forall P items → P (Arr items)) →
  (∀ fields, Forall (λ kv, P kv.2) fields → P (Obj fields)) →
  ∀ v, P v.
Proof.
  intros HU HN HB HNum HS HA HO.
  fix IH 1. intros [| |b|text|s|items|fields];
    [done | done | done | done | done | apply HA | apply HO].
  - induction items as [|x items IHitems]; constructor; [apply IH | done].
  - induction fields as [|[k x] fields IHfields]; constructor; [apply IH | done].
Qed.

Lemma ToString_plain v : plain v = true → ∃ text, ToString v = Ok text.
Proof.
  induction v as [| | [] | | | items IH | fields _] using value_induction;
    intros Hplain; try (eexists; reflexivity).
  - simpl in Hplain.
    assert (∃ texts,
      (fix each (l : list value) : result (list string) :=
         match l with
         | [] => Ok []
         | x :: rest =>
             t ← (match x with
                  | Undefined | Null => Ok ""
                  | _ => ToString x
                  end);
             ts ← each rest;
             Ok (t :: ts)
         end) items = Ok texts) as [texts Htexts].
    { induction items as [|x items IHitems]; [by eexists|].
      apply Forall_cons in IH as [Hx IH].
      simpl in Hplain. apply andb_true_iff in Hplain as [Hpx Hpitems].
      destruct (IHitems IH Hpitems) as [ts Hts]. destruct (Hx Hpx) as [t Ht].
      rewrite Hts. destruct x; try (eexists; reflexivity);
        rewrite Ht; eexists; reflexivity. }
    simpl. rewrite Htexts. eexists; reflexivity.
  - simpl in *. destruct (own fields "toString"); [|by eexists].
    rewrite bool_decide_eq_true_2 in Hplain by eauto. done.
Qed.

(** The only error of a conversion to a string. *)
Lemma ToString_message v message :
  ToString v = Throw message → message = "Cannot convert object to primitive value".
Proof.
  revert message.
  induction v as [| | [] | | | items IH | fields _] using value_induction;
    intros message; try done.
  - simpl.
    match goal with
    | |- context [?each items] =>
        assert (∀ m, each items = Throw m
                  → m = "Cannot convert object to primitive value") as Heach
    end.
    { induction items as [|x items IHitems]; [done|].
      apply Forall_cons in IH as [Hx IH]. specialize (IHitems IH). intros m.
      assert (∀ t : string,
                match x with Undefined | Null => Ok "" | _ => ToString x end = Throw t
                → t = "Cannot convert object to primitive value") as Hhead.
      { intros t. destruct x; try done; apply Hx. }
      simpl.
      destruct (match x with Undefined | Null => Ok "" | _ => ToString x end)
        as [t|t] eqn:Hprint; simpl.
      - match type of IHitems with
        | ∀ m : string, ?rest = Throw m → @?P m => set (printed := rest) in *
        end.
        destruct printed; simpl; [done|]. intros [= <-]. by apply IHitems.
      - intros [= <-]. by apply Hhead. }
    match type of Heach with
    | ∀ m : string, ?rest = Throw m → @?P m => set (printed := rest) in *
    end.
    destruct printed; simpl; [done|]. intros [= <-]. by apply Heach.
  - simpl. destruct (own fields "toString"); [by intros [= <-] | done].
Qed.

Lemma toString_plain what v :
  nullish v = false → plain v = true → ∃ text, toString what v = Ok text.
Proof.
  intros Hnull Hplain. destruct v; try done; try (by apply ToString_plain).
  simpl in *. destruct (own fields "toString"); [|by eexists].
  rewrite bool_decide_eq_true_2 in Hplain by eauto. done.
Qed.

End printing.

(** ** The source of a request *)

Section sources.
Import Backend.

(** C9: the default of the parameter stands for [undefined] only.  On
    [null] the call of [toString] throws and no source comes back, where any
    value that is none of the three sources is meant to give [both]. *)
Lemma normalizeSource_null :
  normalizeSource Null = Throw "Cannot read properties of null (reading 'toString')"
  ∧ ¬ ∃ s, s ∈ known_sources ∧ normalizeSource Null = Ok s.
Proof. split; [reflexivity|]. by intros (s & _ & ?). Qed.

(** [null] gets there from the body of [POST /api/video]; the throw is
    caught around [getMealDetail] and answered as an upstream failure. *)
Lemma post_video_null_source e up :
  post_video e up (Obj [("recipeId", Str "52772"); ("source", Null)])
  = Ok (Respond 502
          (Obj [("error", Str "Cannot read properties of null (reading 'toString')")])).
Proof. reflexivity. Qed.

(** The argument of [normalizeSource] prints when it is not [null] and no
    object in it has a [toString] of its own. *)
Lemma normalizeSource_prints (v : value) :
  v ≠ Null → plain v = true →
  ∃ text, toString "source" (or_default v (Str "both")) = Ok text.
Proof.
  intros Hnull Hplain. apply toString_plain; by destruct v.
Qed.

(** What [normalizeSource] makes of the text of its argument. *)
Lemma normalizeSource_of_text (v : value) (text : string) :
  toString "source" (or_default v (Str "both")) = Ok text →
  normalizeSource v
  = Ok (if bool_decide (toLowerCase text ∈ known_sources) then toLowerCase text else "both").
Proof.
  intros Htext. unfold normalizeSource. unfold or_default in Htext. by rewrite Htext.
Qed.

Lemma known_or_both (text : string) :
  (if bool_decide (text ∈ known_sources) then text else "both") ∈ known_sources.
Proof. case_bool_decide; [done|]. unfold known_sources. set_solver. Qed.

(** On every value other than [null] that prints (a string, a number, a
    boolean, an array of those, an object without a [toString] of its own)
    and on the omitted argument, [normalizeSource] returns one of ['mealdb'],
    ['spoonacular'], ['both']: the lowercased text of the value when that is
    one of the three, ['both'] otherwise. *)
Theorem normalizeSource_recognized (v : value) :
  v ≠ Null → plain v = true →
  ∃ text s,
    toString "source" (or_default v (Str "both")) = Ok text
    ∧ normalizeSource v = Ok s
    ∧ s ∈ known_sources
    ∧ s = (if bool_decide (toLowerCase text ∈ known_sources)
           then toLowerCase text else "both").
Proof.
  intros Hnull Hplain.
  destruct (normalizeSource_prints v Hnull Hplain) as [text Htext].
  exists text. eexists. split; [done|].
  rewrite (normalizeSource_of_text _ _ Htext).
  split; [done|]. split; [apply known_or_both | done].
Qed.

Lemma normalizeSource_recognized_witness :
  ∃ text s,
    toString "source" (or_default (Str "MealDB") (Str "both")) = Ok text
    ∧ normalizeSource (Str "MealDB") = Ok s
    ∧ s ∈ known_sources
    ∧ s = (if bool_decide (toLowerCase text ∈ known_sources)
           then toLowerCase text else "both").
Proof. apply (normalizeSource_recognized (Str "MealDB")); [discriminate | reflexivity]. Defined.

(** Every value of a query string is accepted, and so is the omitted one:
    the search and the detail routes go on with a recognized source. *)
Lemma normalizeSource_param (p : param) (fallback : string) :
  ∃ s, normalizeSource (or_default (of_param p) (Str fallback)) = Ok s
       ∧ s ∈ known_sources.
Proof.
  assert (or_default (of_param p) (Str fallback) ≠ Null) as Hnull by by destruct p.
  assert (plain (or_default (of_param p) (Str fallback)) = true) as Hplain.
  { destruct p as [|s|l]; [done | done |]. simpl. clear Hnull.
    induction l as [|x l IH]; [done|]. exact IH. }
  destruct (normalizeSource_prints _ Hnull Hplain) as [text Htext].
  eexists. split; [by apply normalizeSource_of_text | apply known_or_both].
Qed.

End sources.

(** ** [GET /api/recipes/:id] *)

Section detail.
Import Backend.

(** C1, where the code departs from it: a recipe asked of Spoonacular that
    Spoonacular does not know is answered as an upstream failure, with 502
    and the text of the failed request, not with 404 and [Recipe not found]. *)
Theorem get_recipe_unknown_to_spoonacular :
  get_recipe with_key recipe_unknown "999999999" (Once "spoonacular")
  = Ok (Respond 502
          (Obj [("error",
                 Str "Request failed (404): A recipe with the id 999999999 does not exist.")])).
Proof. reflexivity. Qed.

(** The sources that send a detail request to Spoonacular, and those that
    send it to TheMealDB. *)
Lemma getMealDetail_spoonacular e up id :
  getMealDetail e up (Str id) (Str "spoonacular")
  = meal ← fetchFromSpoonacular e up;
    Ok (Obj [("source", Str "spoonacular"); ("meal", meal)]).
Proof. reflexivity. Qed.

Lemma getMealDetail_mealdb e up id :
  getMealDetail e up (Str id) (Str "mealdb")
  = data ← fetchFromMealDb up;
    let meal := first_opt (member_opt data "meals") in
    if truthy meal then Ok (Obj [("source", Str "mealdb"); ("meal", meal)])
    else Throw "Recipe not found".
Proof. reflexivity. Qed.

(** From Spoonacular, every response outside 200-299 is a 502: the route
    has no 404 of its own for this provider. *)
Lemma get_recipe_spoonacular_http_error e up id r message :
  SPOONACULAR_API_KEY e ≠ "" →
  spoonacular_reply up = Resolved r → ok r = false → text r = Ok message →
  get_recipe e up id (Once "spoonacular")
  = Ok (Respond 502
          (Obj [("error",
                 Str ("Request failed (" +:+ pretty (status r) +:+ "): " +:+ message))])).
Proof.
  intros Hkey Hreply Hok Htext. unfold get_recipe. simpl or_default.
  rewrite getMealDetail_spoonacular. unfold fetchFromSpoonacular, buildSpoonacularUrl.
  apply String.eqb_neq in Hkey. rewrite Hkey. simpl.
  unfold fetchJson. rewrite Hreply, Hok, Htext. reflexivity.
Qed.

(** No answer of Spoonacular, whatever its status, makes the route answer
    404: that takes a request that fails with the very message of the
    TheMealDB path, which [fetchJson] gives to no HTTP status. *)
Lemma get_recipe_spoonacular_404 e up id r :
  get_recipe e up id (Once "spoonacular") = Ok r → code r = 404 →
  fetchFromSpoonacular e up = Throw "Recipe not found".
Proof.
  unfold get_recipe. simpl or_default. rewrite getMealDetail_spoonacular.
  destruct (fetchFromSpoonacular e up) as [meal|message]; simpl.
  - by intros [= <-].
  - destruct (String.eqb message ""); simpl; [by intros [= <-]|].
    destruct (String.eqb_spec message "Recipe not found") as [->|_];
      by intros [= <-].
Qed.

(** From TheMealDB, the default provider, an answer without a first meal is
    the 404 of the specification, and a response outside 200-299 is a 502
    with the text of the failed request. *)
Lemma get_recipe_mealdb_unknown e up id r data :
  mealdb_reply up = Resolved r → ok r = true → json r = Ok data →
  truthy (first_opt (member_opt data "meals")) = false →
  get_recipe e up id Absent
  = Ok (Respond 404 (Obj [("error", Str "Recipe not found")])).
Proof.
  intros Hreply Hok Hjson Hmeal. unfold get_recipe. simpl or_default.
  rewrite getMealDetail_mealdb. unfold fetchFromMealDb, fetchJson.
  rewrite Hreply, Hok, Hjson. simpl. rewrite Hmeal. reflexivity.
Qed.

Lemma get_recipe_mealdb_http_error e up id r message :
  mealdb_reply up = Resolved r → ok r = false → text r = Ok message →
  get_recipe e up id Absent
  = Ok (Respond 502
          (Obj [("error",
                 Str ("Request failed (" +:+ pretty (status r) +:+ "): " +:+ message))])).
Proof.
  intros Hreply Hok Htext. unfold get_recipe. simpl or_default.
  rewrite getMealDetail_mealdb. unfold fetchFromMealDb, fetchJson.
  rewrite Hreply, Hok, Htext. reflexivity.
Qed.

End detail.

(** ** [GET /api/recipes] *)

Section search.
Import Backend.

Lemma task_ok key fn p assigned :
  fn p = Ok assigned → task key fn p = assigned.
Proof. intros Hfn. unfold task. by rewrite Hfn. Qed.

Lemma task_throw key fn p message :
  fn p = Throw message →
  task key fn p = if String.eqb message "" then p else set_error key (Str message) p.
Proof.
  intros Hfn. unfold task. rewrite Hfn. simpl.
  by destruct (String.eqb message "").
Qed.

Lemma search_mealdb_results up p :
  search_mealdb up p = v ← mealdb_results up; Ok (set_mealdb v p).
Proof.
  unfold search_mealdb, mealdb_results. by destruct (fetchFromMealDb up).
Qed.

Lemma filtered_or (q : search_query) :
  truthy (or_else (or_default (of_param (diet q)) (Str ""))
            (or_default (of_param (intolerances q)) (Str "")))
  = filtered q.
Proof.
  unfold filtered, or_else.
  by destruct (truthy (or_default (of_param (diet q)) (Str ""))) eqn:Hdiet.
Qed.

Lemma search_spoonacular_results e up q p :
  search_spoonacular e up q p = v ← spoonacular_results e up q; Ok (set_spoonacular v p).
Proof.
  unfold spoonacular_results, search_spoonacular, fetchFromSpoonacular, buildSpoonacularUrl.
  rewrite filtered_or.
  destruct (String.eqb (SPOONACULAR_API_KEY e) ""); [by destruct (filtered q)|].
  simpl. destruct (fetchJson (spoonacular_reply up)) as [data|]; [|by destruct (filtered q)].
  destruct (filtered q); simpl.
  - destruct data as [| | | | | |fields]; try done. unfold member_opt. simpl.
    destruct (own fields "results") as [[| | | | |matches|]|]; try done. simpl.
    by destruct (mapM mapComplexSearchResult matches).
  - by destruct data.
Qed.

(** What the task of TheMealDB does to a payload. *)
Lemma task_mealdb up p :
  task "mealdb" (search_mealdb up) p
  = match mealdb_results up with
    | Ok v => set_mealdb v p
    | Throw message =>
        if String.eqb message "" then p else set_error "mealdb" (Str message) p
    end.
Proof.
  destruct (mealdb_results up) as [v|message] eqn:Hresults.
  - apply task_ok. by rewrite search_mealdb_results, Hresults.
  - apply task_throw. by rewrite search_mealdb_results, Hresults.
Qed.

(** What the task of Spoonacular does to a payload. *)
Lemma task_spoonacular e up q p :
  task "spoonacular" (search_spoonacular e up q) p
  = match spoonacular_results e up q with
    | Ok v => set_spoonacular v p
    | Throw message =>
        if String.eqb message "" then p else set_error "spoonacular" (Str message) p
    end.
Proof.
  destruct (spoonacular_results e up q) as [v|message] eqn:Hresults.
  - apply task_ok. by rewrite search_spoonacular_results, Hresults.
  - apply task_throw. by rewrite search_spoonacular_results, Hresults.
Qed.

(** The two tasks write to different fields and to different keys of
    [errors]: whichever settles first, the payload is the same. *)
Lemma tasks_commute e up q p :
  task "spoonacular" (search_spoonacular e up q) (task "mealdb" (search_mealdb up) p)
  = task "mealdb" (search_mealdb up) (task "spoonacular" (search_spoonacular e up q) p).
Proof.
  rewrite !task_mealdb, !task_spoonacular.
  destruct (mealdb_results up) as [v|m], (spoonacular_results e up q) as [w|n];
    repeat case_match; try reflexivity.
  unfold set_error; simpl. f_equal. by apply insert_insert_ne.
Qed.

(** The payload that the fan-out leaves, field by field. *)
Lemma fan_out_fields e up q selected :
  let p := fan_out e up q selected in
  source p = selected
  ∧ mealdb p = (if queried "mealdb" selected
                then match mealdb_results up with Ok v => v | Throw _ => Arr [] end
                else Arr [])
  ∧ spoonacular p = (if queried "spoonacular" selected
                     then match spoonacular_results e up q with
                          | Ok v => v
                          | Throw _ => Arr []
                          end
                     else Arr [])
  ∧ errors p !! "mealdb"
    = (if queried "mealdb" selected
       then match mealdb_results up with
            | Ok _ => None
            | Throw message => if String.eqb message "" then None else Some (Str message)
            end
       else None)
  ∧ errors p !! "spoonacular"
    = (if queried "spoonacular" selected
       then match spoonacular_results e up q with
            | Ok _ => None
            | Throw message => if String.eqb message "" then None else Some (Str message)
            end
       else None).
Proof.
  unfold fan_out, queried. rewrite task_mealdb, task_spoonacular.
  destruct (String.eqb selected "mealdb" || String.eqb selected "both"),
    (String.eqb selected "spoonacular" || String.eqb selected "both"),
    (mealdb_results up) as [v|m], (spoonacular_results e up q) as [w|n];
    repeat case_match; simpl; by simplify_map_eq.
Qed.

Lemma mealdb_results_reply up up' :
  mealdb_reply up' = mealdb_reply up → mealdb_results up' = mealdb_results up.
Proof. unfold mealdb_results, fetchFromMealDb. by intros ->. Qed.

Lemma spoonacular_results_reply e up up' q :
  spoonacular_reply up' = spoonacular_reply up →
  spoonacular_results e up' q = spoonacular_results e up q.
Proof. unfold spoonacular_results. by intros ->. Qed.

Lemma settled_by (answer : result value) :
  settled answer
    (match answer with Ok v => v | Throw _ => Arr [] end)
    (match answer with
     | Ok _ => None
     | Throw message => if String.eqb message "" then None else Some (Str message)
     end).
Proof. destruct answer; [by eapply answered | by eapply failed]. Qed.

Lemma fan_out_mealdb_settled e up q selected :
  queried "mealdb" selected = true →
  settled (mealdb_results up) (mealdb (fan_out e up q selected))
    (errors (fan_out e up q selected) !! "mealdb").
Proof.
  intros Hq. pose proof (fan_out_fields e up q selected) as (_ & -> & _ & -> & _).
  rewrite Hq. apply settled_by.
Qed.

Lemma fan_out_spoonacular_settled e up q selected :
  queried "spoonacular" selected = true →
  settled (spoonacular_results e up q) (spoonacular (fan_out e up q selected))
    (errors (fan_out e up q selected) !! "spoonacular").
Proof.
  intros Hq. pose proof (fan_out_fields e up q selected) as (_ & _ & -> & _ & ->).
  rewrite Hq. apply settled_by.
Qed.

(** What is kept of a provider depends on the answer of that provider only. *)
Lemma fan_out_mealdb_alone e e' up up' q selected :
  mealdb_reply up' = mealdb_reply up →
  mealdb (fan_out e' up' q selected) = mealdb (fan_out e up q selected)
  ∧ errors (fan_out e' up' q selected) !! "mealdb"
    = errors (fan_out e up q selected) !! "mealdb".
Proof.
  intros Hsame.
  pose proof (fan_out_fields e up q selected) as (_ & -> & _ & -> & _).
  pose proof (fan_out_fields e' up' q selected) as (_ & -> & _ & -> & _).
  by rewrite (mealdb_results_reply _ _ Hsame).
Qed.

Lemma fan_out_spoonacular_alone e up up' q selected :
  spoonacular_reply up' = spoonacular_reply up →
  spoonacular (fan_out e up' q selected) = spoonacular (fan_out e up q selected)
  ∧ errors (fan_out e up' q selected) !! "spoonacular"
    = errors (fan_out e up q selected) !! "spoonacular".
Proof.
  intros Hsame.
  pose proof (fan_out_fields e up q selected) as (_ & _ & -> & _ & ->).
  pose proof (fan_out_fields e up' q selected) as (_ & _ & -> & _ & ->).
  by rewrite (spoonacular_results_reply _ _ _ _ Hsame).
Qed.

(** C3: a search with a non-empty sanitized ingredient list, whose two arrays
    are empty once the fan-out is over, is answered with the error
    [No recipes found], with 502 when an error was recorded for a provider
    and with 404 when none was. *)
Theorem search_nothing_found e up q sanitized selected :
  sanitizeCsv (of_param (ingredients q)) = Ok sanitized → sanitized ≠ "" →
  normalizeSource (or_default (of_param (q_source q)) (Str "both")) = Ok selected →
  has_length (mealdb (fan_out e up q selected)) = false →
  has_length (spoonacular (fan_out e up q selected)) = false →
  ∃ status,
    get_recipes e up q
    = Ok (Respond status (Failed "No recipes found" (Some (fan_out e up q selected))))
    ∧ ((∃ provider message, errors (fan_out e up q selected) !! provider = Some message)
       → status = 502)
    ∧ (errors (fan_out e up q selected) = ∅ → status = 404).
Proof.
  intros Hsanitized Hnonempty Hsource Hmealdb Hspoonacular.
  exists (if Nat.eqb (size (errors (fan_out e up q selected))) 0 then 404 else 502).
  split; [|split].
  - unfold get_recipes. rewrite Hsanitized. simpl.
    apply String.eqb_neq in Hnonempty. rewrite Hnonempty, Hsource. simpl.
    by rewrite Hmealdb, Hspoonacular.
  - intros (provider & message & Hlookup).
    destruct (Nat.eqb_spec (size (errors (fan_out e up q selected))) 0) as [Hsize|]; [|done].
    apply map_size_empty_iff in Hsize. rewrite Hsize in Hlookup. by simplify_map_eq.
  - intros ->. by rewrite map_size_empty.
Qed.

Lemma search_nothing_found_witness :
  ∃ status,
    get_recipes without_key no_meal_no_recipe (search_for "chicken, , rice,")
    = Ok (Respond status
            (Failed "No recipes found"
               (Some (fan_out without_key no_meal_no_recipe
                        (search_for "chicken, , rice,") "both"))))
    ∧ ((∃ provider message,
          errors (fan_out without_key no_meal_no_recipe
                    (search_for "chicken, , rice,") "both") !! provider = Some message)
       → status = 502)
    ∧ (errors (fan_out without_key no_meal_no_recipe
                 (search_for "chicken, , rice,") "both") = ∅ → status = 404).
Proof.
  apply (search_nothing_found without_key no_meal_no_recipe
           (search_for "chicken, , rice,") "chicken,rice" "both");
    [reflexivity | discriminate | reflexivity | reflexivity | reflexivity].
Defined.

(** C4 does not hold as written: TheMealDB has a match, Spoonacular answers
    with no match and without failing; the search succeeds, and under
    [spoonacular] there is the empty array, with no entry in [errors]. *)
Lemma search_success_with_empty_provider :
  ∃ p, get_recipes with_key one_meal_no_recipe (search_for "tomato")
       = Ok (Respond 200 (Results p))
    ∧ queried "spoonacular" (source p) = true
    ∧ ¬ (has_length (spoonacular p) = true ∨ is_Some (errors p !! "spoonacular")).
Proof.
  eexists. split; [reflexivity|]. split; [reflexivity|].
  intros [Hlength|[message Herror]]; [discriminate|].
  vm_compute in Herror. discriminate.
Qed.

(** C4, as the code has it: a search answered with 200 has a non-empty array
    under [mealdb] or under [spoonacular]; each queried provider has under its
    key the array it answered with, which may be empty, and then no entry in
    [errors], or, when its request failed, the empty array and its message in
    [errors]; and what is under a provider's key and in its entry of [errors]
    depends on the answer of that provider alone. *)
Theorem search_success e up q r :
  get_recipes e up q = Ok r → code r = 200 →
  ∃ selected,
    normalizeSource (or_default (of_param (q_source q)) (Str "both")) = Ok selected
    ∧ body r = Results (fan_out e up q selected)
    ∧ (has_length (mealdb (fan_out e up q selected)) = true
       ∨ has_length (spoonacular (fan_out e up q selected)) = true)
    ∧ (queried "mealdb" selected = true →
       settled (mealdb_results up) (mealdb (fan_out e up q selected))
         (errors (fan_out e up q selected) !! "mealdb"))
    ∧ (queried "spoonacular" selected = true →
       settled (spoonacular_results e up q) (spoonacular (fan_out e up q selected))
         (errors (fan_out e up q selected) !! "spoonacular"))
    ∧ (∀ e' up', mealdb_reply up' = mealdb_reply up →
         mealdb (fan_out e' up' q selected) = mealdb (fan_out e up q selected)
         ∧ errors (fan_out e' up' q selected) !! "mealdb"
           = errors (fan_out e up q selected) !! "mealdb")
    ∧ (∀ up', spoonacular_reply up' = spoonacular_reply up →
         spoonacular (fan_out e up' q selected) = spoonacular (fan_out e up q selected)
         ∧ errors (fan_out e up' q selected) !! "spoonacular"
           = errors (fan_out e up q selected) !! "spoonacular").
Proof.
  unfold get_recipes. intros Hreply Hcode.
  destruct (sanitizeCsv _) as [sanitized|]; [|done]. simpl in Hreply.
  destruct (String.eqb sanitized ""); [by injection Hreply as <-|].
  destruct (normalizeSource _) as [selected|]; [|done]. simpl in Hreply.
  exists selected. split; [done|].
  assert (body r = Results (fan_out e up q selected)
          ∧ (has_length (mealdb (fan_out e up q selected)) = true
             ∨ has_length (spoonacular (fan_out e up q selected)) = true)) as [Hbody Hsome].
  { destruct (has_length (mealdb _)) eqn:Hmealdb,
      (has_length (spoonacular _)) eqn:Hspoonacular; simpl in Hreply;
      injection Hreply as <-; simpl in *; try by auto.
    by case_match. }
  split; [done|]. split; [done|].
  split; [apply fan_out_mealdb_settled|].
  split; [apply fan_out_spoonacular_settled|].
  split; [intros e' up'; apply fan_out_mealdb_alone|].
  intros up'; apply fan_out_spoonacular_alone.
Qed.

Lemma search_success_witness :
  get_recipes with_key one_meal_no_recipe (search_for "tomato")
  = Ok (Respond 200 (Results (fan_out with_key one_meal_no_recipe (search_for "tomato") "both")))
  ∧ ∃ selected,
      normalizeSource (or_default (of_param (q_source (search_for "tomato"))) (Str "both"))
      = Ok selected
      ∧ (has_length (mealdb (fan_out with_key one_meal_no_recipe (search_for "tomato") selected))
         = true
         ∨ has_length
             (spoonacular (fan_out with_key one_meal_no_recipe (search_for "tomato") selected))
           = true).
Proof.
  split; [reflexivity|].
  destruct (search_success with_key one_meal_no_recipe (search_for "tomato")
              (Respond 200 (Results (fan_out with_key one_meal_no_recipe
                                       (search_for "tomato") "both"))))
    as (selected & Hselected & _ & Hsome & _); [reflexivity | reflexivity |].
  exists selected. by split.
Defined.

End search.

(** ** The prompt and [POST /api/video] *)

Section video.
Import Backend.

Lemma mapM_Forall2 {A B} (f : A → result B) l ys :
  mapM f l = Ok ys → Forall2 (λ x y, f x = Ok y) l ys.
Proof.
  revert ys. induction l as [|x l IH]; intros ys; simpl.
  - intros [= <-]. constructor.
  - destruct (f x) as [y|] eqn:Hx; [|done]. simpl.
    destruct (mapM f l) as [ys'|] eqn:Hl; [|done]. simpl. intros [= <-].
    constructor; [done | by apply IH].
Qed.

Lemma mapM_returns {A B} (f : A → result B) l :
  Forall (λ x, ∃ y, f x = Ok y) l → ∃ ys, mapM f l = Ok ys.
Proof.
  induction 1 as [|x l [y Hy] _ [ys Hys]]; [by eexists|].
  simpl. rewrite Hy. simpl. rewrite Hys. by eexists.
Qed.

Lemma mapM_returns_with {A B} (P : B → Prop) (f : A → result B) l :
  Forall (λ x, ∃ y, f x = Ok y ∧ P y) l → ∃ ys, mapM f l = Ok ys ∧ Forall P ys.
Proof.
  induction 1 as [|x l (y & Hy & HP) _ (ys & Hys & HPs)]; [by eexists|].
  simpl. rewrite Hy. simpl. rewrite Hys. eexists. split; [done|]. by constructor.
Qed.

Lemma mapM_indexed_returns {A B} (f : A → nat → result B) l :
  Forall (λ x, ∀ index, ∃ y, f x index = Ok y) l →
  ∀ index, ∃ ys, mapM_indexed f index l = Ok ys.
Proof.
  induction 1 as [|x l Hx _ IH]; intros index; [by eexists|].
  simpl. destruct (Hx index) as [y ->]. simpl.
  destruct (IH (S index)) as [ys ->]. by eexists.
Qed.

(** The prompt is built whenever the name, the ingredients and the steps
    print. *)
Lemma buildSoraPrompt_returns recipeName ingredients steps :
  plain recipeName = true →
  Forall (λ v, plain v = true) ingredients →
  Forall (λ v, plain v = true) steps →
  ∃ prompt, buildSoraPrompt recipeName ingredients steps = Ok prompt.
Proof.
  intros Hname Hingredients Hsteps. unfold buildSoraPrompt.
  destruct (mapM_returns (λ item, t ← ToString item; Ok ("- " +:+ t)) ingredients)
    as [ingredientLines ->].
  { eapply Forall_impl; [done|]. intros v [t Ht]%ToString_plain.
    rewrite Ht. by eexists. }
  destruct (mapM_indexed_returns
              (λ step index, t ← ToString step; Ok (pretty (index + 1) +:+ ". " +:+ t))
              steps) with (index := 0) as [stepLines ->].
  { eapply Forall_impl; [done|]. intros v [t Ht]%ToString_plain index.
    rewrite Ht. by eexists. }
  destruct (ToString_plain _ Hname) as [name ->]. by eexists.
Qed.

(** C5: the prompt is a function of the name, the ingredients and the steps:
    two calls of [buildSoraPrompt] with equal arguments give the same text,
    or throw the same error; and when the name, the ingredients and the steps
    print, both calls return, with one and the same text. *)
Theorem buildSoraPrompt_deterministic
    (name1 name2 : value) (ingredients1 ingredients2 steps1 steps2 : list value) :
  name1 = name2 → ingredients1 = ingredients2 → steps1 = steps2 →
  buildSoraPrompt name1 ingredients1 steps1 = buildSoraPrompt name2 ingredients2 steps2
  ∧ (plain name1 = true →
     Forall (λ v, plain v = true) ingredients1 →
     Forall (λ v, plain v = true) steps1 →
     ∃ prompt,
       buildSoraPrompt name1 ingredients1 steps1 = Ok prompt
       ∧ buildSoraPrompt name2 ingredients2 steps2 = Ok prompt).
Proof.
  intros <- <- <-. split; [done|]. intros Hname Hingredients Hsteps.
  destruct (buildSoraPrompt_returns name1 ingredients1 steps1) as [prompt Hprompt];
    [done | done | done |].
  by exists prompt.
Qed.

Lemma buildSoraPrompt_deterministic_witness :
  ∃ prompt,
    buildSoraPrompt (Str "Toast") [Str "2 slices bread"] [Str "Toast the bread."] = Ok prompt
    ∧ buildSoraPrompt (Str "Toast") [Str "2 slices bread"] [Str "Toast the bread."]
      = Ok prompt.
Proof.
  destruct (buildSoraPrompt_deterministic
              (Str "Toast") (Str "Toast") [Str "2 slices bread"] [Str "2 slices bread"]
              [Str "Toast the bread."] [Str "Toast the bread."]
              eq_refl eq_refl eq_refl) as [_ Hreturns].
  apply Hreturns; by repeat constructor.
Defined.

Lemma filter_plain (f : value → bool) l :
  Forall (λ v, plain v = true) l → Forall (λ v, plain v = true) (List.filter f l).
Proof.
  induction 1 as [|x l Hx _ IH]; simpl; [constructor|].
  destruct (f x); [by constructor | done].
Qed.










Lemma texts_plain (f : string → string) (lines : list string) :
  Forall (λ v, plain v = true) ((λ line, Str (f line)) <$> lines).
Proof. apply Forall_fmap, Forall_true. done. Qed.








End video.

(** ** The shopping list *)

Section shopping.
Import Frontend.

Lemma set_add_NoDup s x : NoDup s → NoDup (set_add s x).
Proof.
  intros Hs. unfold set_add. case_bool_decide; [done|].
  apply NoDup_app. split; [done|]. split; [set_solver | apply NoDup_singleton].
Qed.

Lemma set_add_extends s x :
  ∃ added, set_add s x = (s ++ added) ∧ Forall (λ y, (y ∉ s) ∧ y = x) added.
Proof.
  unfold set_add. case_bool_decide.
  - exists []. by rewrite app_nil_r.
  - exists [x]. by repeat constructor.
Qed.

(** A list without duplicates is the set made of it. *)
Lemma new_Set_NoDup_id l : NoDup l → new_Set l = l.
Proof.
  unfold new_Set. intros Hl.
  assert (∀ acc, NoDup (acc ++ l) → foldl set_add acc l = acc ++ l) as Hgen.
  { clear Hl. induction l as [|x l IH]; intros acc Hacc; simpl.
    - by rewrite app_nil_r.
    - assert (x ∉ acc) as Hx.
      { apply NoDup_app in Hacc as (_ & Hdisjoint & _). intros Hin.
        apply (Hdisjoint x Hin). by left. }
      unfold set_add at 2. rewrite bool_decide_eq_false_2 by done.
      rewrite IH; rewrite <- (assoc_L (++)); done. }
  by apply (Hgen []).
Qed.

Lemma new_Set_NoDup l : NoDup (new_Set l).
Proof.
  unfold new_Set.
  assert (∀ acc, NoDup acc → NoDup (foldl set_add acc l)) as Hgen.
  { induction l as [|x l IH]; intros acc Hacc; simpl; [done|].
    by apply IH, set_add_NoDup. }
  apply Hgen, NoDup_nil_2.
Qed.

Lemma add_items_spec items s :
  NoDup s →
  NoDup (foldl add_item s items)
  ∧ ∃ added, foldl add_item s items = (s ++ added)
      ∧ Forall (λ y, (y ∉ s) ∧ Some y ∈ items ∧ y ≠ "") added.
Proof.
  revert s. induction items as [|item items IH]; intros s Hs; simpl.
  - split; [done|]. exists []. by rewrite app_nil_r.
  - assert (NoDup (add_item s item)) as Hstep.
    { destruct item as [text|]; simpl; [|done].
      destruct (String.eqb text ""); [done | by apply set_add_NoDup]. }
    destruct (IH _ Hstep) as (Hnodup & added & Heq & Hadded).
    split; [done|].
    assert (∃ first, add_item s item = (s ++ first)
                     ∧ Forall (λ y, (y ∉ s) ∧ Some y = item ∧ y ≠ "") first)
      as (first & Hfirst & Hfirst_new).
    { destruct item as [text|]; simpl; [|exists []; by rewrite app_nil_r].
      destruct (String.eqb_spec text "") as [->|Hne];
        [exists []; by rewrite app_nil_r|].
      destruct (set_add_extends s text) as (first & -> & Hfirst).
      exists first. split; [done|]. eapply Forall_impl; [done|].
      by intros y [? ->]. }
    exists (first ++ added). rewrite Heq, Hfirst, (assoc_L (++)). split; [done|].
    apply Forall_app. split.
    + eapply Forall_impl; [done|]. intros y (? & <- & ?). set_solver.
    + eapply Forall_impl; [done|]. intros y (Hy & ? & ?).
      rewrite Hfirst in Hy. set_solver.
Qed.

(** C8: the shopping list never has the same text twice.  From a list without
    duplicates, [addShoppingItems] keeps the list and appends only texts that
    were not in it (equal or not as strings), none of them twice;
    [removeShoppingItem] and [clearShoppingList] leave a list without
    duplicates. *)
Theorem shopping_list_no_duplicates (prev : list string)
    (items : list (option string)) (item : string) :
  NoDup prev →
  NoDup (addShoppingItems items prev)
  ∧ (∃ added, addShoppingItems items prev = (prev ++ added)
       ∧ Forall (λ text, (text ∉ prev) ∧ Some text ∈ items ∧ text ≠ "") added)
  ∧ NoDup (removeShoppingItem item prev)
  ∧ NoDup clearShoppingList.
Proof.
  intros Hprev. unfold addShoppingItems. rewrite (new_Set_NoDup_id _ Hprev).
  destruct (add_items_spec items prev Hprev) as [Hnodup Hadded].
  split; [done|]. split; [done|]. split.
  - by apply NoDup_filter.
  - apply NoDup_nil_2.
Qed.

Lemma shopping_list_no_duplicates_witness :
  NoDup (addShoppingItems [Some "salt"; None; Some "rice"; Some ""; Some "salt"] ["rice"; "oil"])
  ∧ (∃ added,
       addShoppingItems [Some "salt"; None; Some "rice"; Some ""; Some "salt"] ["rice"; "oil"]
       = (["rice"; "oil"] ++ added)
       ∧ Forall (λ text, (text ∉ ["rice"; "oil"])
                         ∧ Some text ∈ [Some "salt"; None; Some "rice"; Some ""; Some "salt"]
                         ∧ text ≠ "") added)
  ∧ NoDup (removeShoppingItem "oil" ["rice"; "oil"])
  ∧ NoDup clearShoppingList.
Proof.
  apply (shopping_list_no_duplicates ["rice"; "oil"]).
  apply NoDup_cons_2; [|apply NoDup_singleton].
  rewrite list_elem_of_singleton. discriminate.
Defined.

(** Whatever the list was, the one that [addShoppingItems] leaves has no
    duplicates: the set is made of the list first. *)
Lemma addShoppingItems_NoDup items prev : NoDup (addShoppingItems items prev).
Proof.
  unfold addShoppingItems. apply (add_items_spec items (new_Set prev)), new_Set_NoDup.
Qed.

End shopping.

(** ** Numbers and the match score *)

Section score.
Import Frontend.
Local Open Scope Q_scope.

Lemma pow2_pos e : 0 < 2 ^ e.
Proof. apply Qpower_0_lt. reflexivity. Qed.

Lemma pow2_plus a b : 2 ^ (a + b) == 2 ^ a * 2 ^ b.
Proof. apply Qpower_plus. discriminate. Qed.

Lemma pow2_le a b : (a <= b)%Z → 2 ^ a <= 2 ^ b.
Proof. intros Hab. apply Qpower_le_compat_l; [exact Hab | discriminate]. Qed.

Lemma pow2_lt_inv a b : 2 ^ a < 2 ^ b → (a < b)%Z.
Proof. intros Hab. apply (Qpower_lt_compat_l_inv 2); [exact Hab | reflexivity]. Qed.

Lemma pow2_inject n : (0 <= n)%Z → inject_Z (2 ^ n) == 2 ^ n.
Proof. intros Hn. apply (Zpower_Qpower 2 n Hn). Qed.

Lemma log2_bounds n :
  (0 < n)%Z → 2 ^ Z.log2 n <= inject_Z n ∧ inject_Z n < 2 ^ (Z.log2 n + 1).
Proof.
  intros Hn. destruct (Z.log2_spec n Hn) as [Hlow Hhigh].
  pose proof (Z.log2_nonneg n) as Hnonneg. split.
  - rewrite <- pow2_inject by exact Hnonneg. rewrite <- Zle_Qle. exact Hlow.
  - rewrite <- pow2_inject by lia. rewrite <- Zlt_Qlt.
    replace (Z.log2 n + 1)%Z with (Z.succ (Z.log2 n)) by lia. exact Hhigh.
Qed.

(** [exponent] finds the binade of a positive number. *)
Lemma exponent_spec x :
  0 < x → 2 ^ exponent x <= x ∧ x < 2 ^ (exponent x + 1).
Proof.
  intros Hx. destruct x as [n d].
  assert (0 < n)%Z as Hn.
  { unfold Qlt in Hx. simpl in Hx. lia. }
  destruct (log2_bounds n Hn) as [Hnlow Hnhigh].
  destruct (log2_bounds (Zpos d) eq_refl) as [Hdlow Hdhigh].
  assert (0 < inject_Z (Zpos d)) as Hd by reflexivity.
  assert (n # d == inject_Z n / inject_Z (Zpos d)) as Heq by apply Qmake_Qdiv.
  unfold exponent. simpl Qnum. simpl Qden.
  set (a := Z.log2 n) in *. set (b := Z.log2 (Zpos d)) in *.
  destruct (Qle_bool (2 ^ (a - b)) (n # d)) eqn:Hle.
  - apply Qle_bool_iff in Hle. split; [exact Hle|].
    rewrite Heq. apply Qlt_shift_div_r; [exact Hd|].
    apply Qlt_le_trans with (2 ^ (a + 1)); [exact Hnhigh|].
    replace (a + 1)%Z with ((a - b + 1) + b)%Z by lia. rewrite pow2_plus.
    apply Qmult_le_l; [apply pow2_pos | exact Hdlow].
  - assert (n # d < 2 ^ (a - b)) as Hlt.
    { apply Qnot_le_lt. intros Hge. apply Qle_bool_iff in Hge. congruence. }
    split.
    + rewrite Heq. apply Qle_shift_div_l; [exact Hd|].
      apply Qle_trans with (2 ^ a); [|exact Hnlow].
      replace a with ((a - b - 1) + (b + 1))%Z at 2 by lia. rewrite pow2_plus.
      apply Qmult_le_l; [apply pow2_pos | apply Qlt_le_weak, Hdhigh].
    + replace (a - b - 1 + 1)%Z with (a - b)%Z by lia. exact Hlt.
Qed.

Lemma exponent_le x y : 0 < x → x <= y → (exponent x <= exponent y)%Z.
Proof.
  intros Hx Hxy.
  destruct (exponent_spec x Hx) as [Hlow _].
  destruct (exponent_spec y (Qlt_le_trans _ _ _ Hx Hxy)) as [_ Hhigh].
  assert (exponent x < exponent y + 1)%Z; [|lia].
  apply pow2_lt_inv. lra.
Qed.

Lemma nearest_even_range x :
  (Qfloor x <= nearest_even x ∧ nearest_even x <= Qfloor x + 1)%Z.
Proof.
  unfold nearest_even. destruct (Qcompare _ _); [destruct (Z.even _)| |]; lia.
Qed.

Lemma nearest_even_Z z : nearest_even (inject_Z z) = z.
Proof.
  unfold nearest_even. rewrite Qfloor_Z.
  destruct (Qcompare_spec (inject_Z z - inject_Z z) (1 # 2)) as [Heq|Hlt|Hgt];
    [lra | reflexivity | lra].
Qed.

Lemma nearest_even_le x y : x <= y → (nearest_even x <= nearest_even y)%Z.
Proof.
  intros Hxy. pose proof (Qfloor_resp_le x y Hxy) as Hfloor.
  pose proof (nearest_even_range x) as Hx. pose proof (nearest_even_range y) as Hy.
  destruct (Z.eq_dec (Qfloor x) (Qfloor y)) as [Heq|Hne]; [|lia].
  unfold nearest_even in *. rewrite <- Heq in *.
  destruct (Qcompare_spec (x - inject_Z (Qfloor x)) (1 # 2)) as [Hx'|Hx'|Hx'];
    destruct (Qcompare_spec (y - inject_Z (Qfloor x)) (1 # 2)) as [Hy'|Hy'|Hy'];
    try destruct (Z.even (Qfloor x)); try lia; lra.
Qed.

Lemma nearest_double_pos_nonneg x : 0 < x → 0 <= nearest_double_pos x.
Proof.
  intros Hx. unfold nearest_double_pos.
  apply Qmult_le_0_compat; [|apply Qlt_le_weak, pow2_pos].
  change 0 with (inject_Z 0). rewrite <- Zle_Qle.
  rewrite <- (nearest_even_Z 0). apply nearest_even_le.
  apply Qmult_le_0_compat; [lra | apply Qlt_le_weak, pow2_pos].
Qed.

(** A positive number is rounded inside its binade. *)
Lemma nearest_double_pos_binade x :
  0 < x →
  2 ^ exponent x <= nearest_double_pos x ∧ nearest_double_pos x <= 2 ^ (exponent x + 1).
Proof.
  intros Hx. destruct (exponent_spec x Hx) as [Hlow Hhigh].
  unfold nearest_double_pos. set (e := exponent x) in *.
  pose proof (pow2_pos (52 - e)) as Hscale. pose proof (pow2_pos (e - 52)) as Hback.
  split.
  - assert (2 ^ 52 <= inject_Z (nearest_even (x * 2 ^ (52 - e)))) as Hm.
    { rewrite <- (pow2_inject 52) by lia. rewrite <- Zle_Qle.
      rewrite <- (nearest_even_Z (2 ^ 52)). apply nearest_even_le.
      rewrite (pow2_inject 52) by lia. replace 52%Z with (e + (52 - e))%Z at 1 by lia.
      rewrite pow2_plus. apply Qmult_le_r; [exact Hscale | exact Hlow]. }
    replace e with (52 + (e - 52))%Z at 1 by lia. rewrite pow2_plus.
    apply Qmult_le_r; [exact Hback | exact Hm].
  - assert (inject_Z (nearest_even (x * 2 ^ (52 - e))) <= 2 ^ 53) as Hm.
    { rewrite <- (pow2_inject 53) by lia. rewrite <- Zle_Qle.
      rewrite <- (nearest_even_Z (2 ^ 53)). apply nearest_even_le.
      rewrite (pow2_inject 53) by lia.
      replace 53%Z with ((e + 1) + (52 - e))%Z at 1 by lia.
      rewrite pow2_plus. apply Qmult_le_r; [exact Hscale | apply Qlt_le_weak, Hhigh]. }
    replace (e + 1)%Z with (53 + (e - 52))%Z by lia. rewrite pow2_plus.
    apply Qmult_le_r; [exact Hback | exact Hm].
Qed.

Lemma nearest_double_pos_le x y :
  0 < x → x <= y → nearest_double_pos x <= nearest_double_pos y.
Proof.
  intros Hx Hxy. assert (0 < y) as Hy by lra.
  pose proof (exponent_le x y Hx Hxy) as Hexp.
  destruct (Z.eq_dec (exponent x) (exponent y)) as [Heq|Hne].
  - unfold nearest_double_pos. rewrite Heq.
    apply Qmult_le_r; [apply pow2_pos|]. rewrite <- Zle_Qle.
    apply nearest_even_le. apply Qmult_le_r; [apply pow2_pos | exact Hxy].
  - destruct (nearest_double_pos_binade x Hx) as [_ Hhigh].
    destruct (nearest_double_pos_binade y Hy) as [Hlow _].
    apply Qle_trans with (2 ^ (exponent x + 1)); [exact Hhigh|].
    apply Qle_trans with (2 ^ exponent y); [|exact Hlow].
    apply pow2_le. lia.
Qed.

(** Rounding keeps the order. *)
Lemma nearest_double_le x y : x <= y → nearest_double x <= nearest_double y.
Proof.
  intros Hxy. unfold nearest_double.
  destruct (Qcompare_spec x 0) as [Hx|Hx|Hx];
    destruct (Qcompare_spec y 0) as [Hy|Hy|Hy]; try lra.
  - apply nearest_double_pos_nonneg, Hy.
  - pose proof (nearest_double_pos_nonneg (- x)). lra.
  - assert (nearest_double_pos (- y) <= nearest_double_pos (- x)).
    { apply nearest_double_pos_le; lra. }
    lra.
  - pose proof (nearest_double_pos_nonneg (- x)).
    pose proof (nearest_double_pos_nonneg y). lra.
  - by apply nearest_double_pos_le.
Qed.

(** 0, 1 and 100 are doubles. *)
Lemma nearest_double_0 : nearest_double 0 == 0.
Proof. reflexivity. Qed.

Lemma nearest_double_1 : nearest_double 1 == 1.
Proof. vm_compute. reflexivity. Qed.

Lemma nearest_double_100 : nearest_double 100 == 100.
Proof. vm_compute. reflexivity. Qed.

(** One tenth is not a double; the nearest one is a little above it. *)
Lemma nearest_double_tenth :
  nearest_double (1 # 10) == 3602879701896397 # 36028797018963968.
Proof. vm_compute. reflexivity. Qed.

Lemma nearest_double_unit (x : Q) : 0 <= x <= 1 → 0 <= nearest_double x <= 1.
Proof.
  intros [Hlow Hhigh]. split.
  - rewrite <- nearest_double_0. by apply nearest_double_le.
  - rewrite <- nearest_double_1. by apply nearest_double_le.
Qed.

Lemma nearest_double_percent (x : Q) : 0 <= x <= 100 → 0 <= nearest_double x <= 100.
Proof.
  intros [Hlow Hhigh]. split.
  - rewrite <- nearest_double_0. by apply nearest_double_le.
  - rewrite <- nearest_double_100. by apply nearest_double_le.
Qed.

Lemma Math_round_percent (x : Q) :
  0 <= x <= 100 → (0 <= Math_round x ∧ Math_round x <= 100)%Z.
Proof.
  intros [Hlow Hhigh]. unfold Math_round. split.
  - change 0%Z with (Qfloor 0). apply Qfloor_resp_le. lra.
  - change 100%Z with (Qfloor (100 + (1 # 2))). apply Qfloor_resp_le. lra.
Qed.

Lemma ratio_unit (used total : nat) :
  (used <= total)%nat → total ≠ 0%nat →
  0 <= number_of used / number_of total <= 1.
Proof.
  intros Hle Hpos. unfold number_of.
  assert (0 < inject_Z (Z.of_nat total)) as Htotal.
  { change 0 with (inject_Z 0). rewrite <- Zlt_Qlt. lia. }
  assert (0 <= inject_Z (Z.of_nat used)) as Hused.
  { change 0 with (inject_Z 0). rewrite <- Zle_Qle. lia. }
  assert (inject_Z (Z.of_nat used) <= inject_Z (Z.of_nat total)) as Hbound.
  { rewrite <- Zle_Qle. lia. }
  split.
  - apply Qle_shift_div_l; [done|]. lra.
  - apply Qle_shift_div_r; [done|]. lra.
Qed.

Lemma divide_returns (x y : Q) : ¬ y == 0 → divide x y = Some (nearest_double (x / y)).
Proof.
  intros Hy. unfold divide. destruct (Qeq_bool y 0) eqn:Hzero; [|done].
  by apply Qeq_bool_iff in Hzero.
Qed.

(** C10: for every card and every set of ignored names, [getMatchScore]
    returns an integer from 0 to 100.  It is 0 when no ingredient is counted;
    otherwise the total is not zero, the quotient is a number, and the score is
    the rounded percentage: the division by zero is never reached. *)
Theorem getMatchScore_percent (c : card) (ignored : gset string) :
  ∃ score : Z,
    getMatchScore c ignored = Some score
    ∧ (0 <= score ∧ score <= 100)%Z
    ∧ let used := count_kept ignored (usedIngredients c) in
      let missed := count_kept ignored (missedIngredients c) in
      ((used + missed = 0)%nat → score = 0%Z)
      ∧ ((used + missed ≠ 0)%nat →
         ∃ ratio, divide (number_of used) (number_of (used + missed)) = Some ratio
                  ∧ score = Math_round (times ratio 100)).
Proof.
  unfold getMatchScore.
  set (used := count_kept ignored (usedIngredients c)).
  set (missed := count_kept ignored (missedIngredients c)).
  destruct (Nat.eqb_spec (used + missed) 0) as [Hzero|Hsome].
  - exists 0%Z. split; [done|]. split; [lia|]. split; [done|]. by intros [].
  - assert (¬ number_of (used + missed) == 0) as Htotal.
    { unfold number_of. change 0 with (inject_Z 0). rewrite inject_Z_injective. lia. }
    rewrite (divide_returns _ _ Htotal). simpl.
    eexists. split; [done|].
    split; [|split; [by intros ?|intros _; eexists; by split]].
    apply Math_round_percent, nearest_double_percent.
    destruct (nearest_double_unit _ (ratio_unit used (used + missed) ltac:(lia) Hsome))
      as [Hlow Hhigh].
    split; lra.
Qed.

(** The scores are those of the doubles: 29 ingredients of 200 make 14.5 per
    cent, which the doubles miss from below, and 1 of 200 makes 0.5. *)
Lemma getMatchScore_examples :
  getMatchScore (card_with 29 171) ∅ = Some 14%Z
  ∧ getMatchScore (card_with 1 199) ∅ = Some 1%Z
  ∧ getMatchScore (card_with 1 2) ∅ = Some 33%Z
  ∧ getMatchScore (card_with 2 1) ∅ = Some 67%Z
  ∧ getMatchScore (card_with 3 0) ∅ = Some 100%Z
  ∧ getMatchScore (card_with 0 4) ∅ = Some 0%Z
  ∧ getMatchScore (card_with 0 0) ∅ = Some 0%Z
  ∧ getMatchScore (card_with 2 1) {["salt"]} = Some 0%Z.
Proof. repeat split; vm_compute; reflexivity. Qed.

End score.

(** ** Favorites *)

Section favorites.
Import Frontend.

Implicit Types (st : store) (n f : favorite) (l : list favorite) (k : string).

Lemma show_as_text p : pnullish p = false → show (as_text p) = show p.
Proof. by destruct p. Qed.

(** A row read back has the key of the favorite it was inserted for. *)
Lemma key_of_new_row uid rid n :
  pnullish (id n) = false → pnullish (source n) = false →
  buildFavoriteKey (of_row (new_row uid rid n)) = buildFavoriteKey n.
Proof.
  intros Hid Hsource. unfold buildFavoriteKey. simpl.
  by rewrite !show_as_text.
Qed.

Lemma existsb_key k l :
  existsb (λ f, String.eqb (buildFavoriteKey f) k) l = true ↔ k ∈ keys l.
Proof.
  rewrite existsb_exists. unfold keys. rewrite list_elem_of_fmap. split.
  - intros (f & Hf%list_elem_of_In & Heq%String.eqb_eq). eauto.
  - intros (f & -> & Hf%list_elem_of_In). exists f. by rewrite String.eqb_refl.
Qed.

Lemma find_key_None k l :
  k ∉ keys l → find (λ f, String.eqb (buildFavoriteKey f) k) l = None.
Proof.
  intros Hk. destruct (find _ l) as [f|] eqn:Hfind; [|done].
  apply find_some in Hfind as [Hf%list_elem_of_In Heq%String.eqb_eq].
  destruct Hk. unfold keys. rewrite list_elem_of_fmap. eauto.
Qed.

Lemma find_key_Some k l :
  k ∈ keys l →
  ∃ f, find (λ f, String.eqb (buildFavoriteKey f) k) l = Some f
       ∧ f ∈ l ∧ buildFavoriteKey f = k.
Proof.
  intros Hk. destruct (find _ l) as [f|] eqn:Hfind.
  - apply find_some in Hfind as [Hf%list_elem_of_In Heq%String.eqb_eq]. eauto.
  - unfold keys in Hk. apply list_elem_of_fmap in Hk as (f & -> & Hf%list_elem_of_In).
    apply (find_none _ _ Hfind) in Hf. by rewrite String.eqb_refl in Hf.
Qed.

Lemma favoriteIds_elem k l : k ∈ favoriteIds l ↔ k ∈ keys l.
Proof. unfold favoriteIds, keys. apply elem_of_list_to_set. Qed.

Lemma favoriteIds_without k l :
  favoriteIds (filter (λ f, buildFavoriteKey f ≠ k) l) = favoriteIds l ∖ {[k]}.
Proof.
  apply set_eq. intros x. rewrite elem_of_difference, elem_of_singleton.
  rewrite !favoriteIds_elem. unfold keys. rewrite !list_elem_of_fmap. split.
  - intros (f & -> & [? ?]%list_elem_of_filter). eauto.
  - intros [(f & -> & ?) ?]. exists f. by rewrite list_elem_of_filter.
Qed.

Lemma favoriteIds_snoc l n :
  favoriteIds (l ++ [n]) = favoriteIds l ∪ {[buildFavoriteKey n]}.
Proof.
  unfold favoriteIds. rewrite fmap_app, list_to_set_app_L. simpl.
  by rewrite (right_id_L ∅ (∪)).
Qed.

Lemma favoriteIds_cons l n :
  favoriteIds (n :: l) = {[buildFavoriteKey n]} ∪ favoriteIds l.
Proof. reflexivity. Qed.

Lemma keys_filter_NoDup (P : favorite → Prop) `{∀ f, Decision (P f)} l :
  NoDup (keys l) → NoDup (keys (filter P l)).
Proof.
  intros Hl. eapply sublist_NoDup; [done|]. unfold keys.
  apply fmap_sublist, sublist_filter.
Qed.

(** Two entries of a collection with distinct keys are the same entry when
    their keys are. *)
Lemma keys_NoDup_inj {A} (key : A → string) (l : list A) x y :
  NoDup (key <$> l) → x ∈ l → y ∈ l → key x = key y → x = y.
Proof.
  induction l as [|z l IH]; simpl; [by intros _ ?%elem_of_nil|].
  intros [Hz Hl]%NoDup_cons [->|Hx]%elem_of_cons [->|Hy]%elem_of_cons Heq;
    [done | | | by apply IH].
  - destruct Hz. rewrite Heq. by apply list_elem_of_fmap_2.
  - destruct Hz. rewrite <- Heq. by apply list_elem_of_fmap_2.
Qed.

(** *** On the device *)

Lemma toggle_local item n c st :
  normalizeFavorite item = Some n →
  toggleFavorite None item c st
  = {| favorites :=
         if existsb (λ f, String.eqb (buildFavoriteKey f) (buildFavoriteKey n)) (favorites st)
         then filter (λ f, buildFavoriteKey f ≠ buildFavoriteKey n) (favorites st)
         else favorites st ++ [n];
       table := table st |}.
Proof. intros Hn. unfold toggleFavorite. by rewrite Hn. Qed.

Lemma toggle_local_absent item n c st :
  normalizeFavorite item = Some n → buildFavoriteKey n ∉ keys (favorites st) →
  favorites (toggleFavorite None item c st) = favorites st ++ [n].
Proof.
  intros Hn Hk. rewrite (toggle_local _ _ _ _ Hn). simpl.
  destruct (existsb _ _) eqn:Hexists; [|done]. by apply existsb_key in Hexists.
Qed.

Lemma toggle_local_present item n c st :
  normalizeFavorite item = Some n → buildFavoriteKey n ∈ keys (favorites st) →
  favorites (toggleFavorite None item c st)
  = filter (λ f, buildFavoriteKey f ≠ buildFavoriteKey n) (favorites st).
Proof.
  intros Hn Hk. rewrite (toggle_local _ _ _ _ Hn). simpl.
  by rewrite (proj2 (existsb_key _ _) Hk).
Qed.

(** On the device, for every collection, with or without duplicates, a
    toggle leaves at most one entry with the key toggled, and two toggles
    give back the set of keys. *)
Lemma toggle_local_twice item n c1 c2 st :
  normalizeFavorite item = Some n →
  favoriteIds (favorites (toggleFavorite None item c2 (toggleFavorite None item c1 st)))
  = favoriteIds (favorites st).
Proof.
  intros Hn. set (k := buildFavoriteKey n).
  destruct (decide (k ∈ keys (favorites st))) as [Hk|Hk].
  - assert (k ∉ keys (favorites (toggleFavorite None item c1 st))) as Hk'.
    { rewrite (toggle_local_present _ _ _ _ Hn Hk). unfold keys.
      rewrite list_elem_of_fmap. intros (f & Heq & [? ?]%list_elem_of_filter). done. }
    rewrite (toggle_local_absent _ _ _ _ Hn Hk'), (toggle_local_present _ _ _ _ Hn Hk).
    rewrite favoriteIds_snoc, favoriteIds_without. apply favoriteIds_elem in Hk.
    fold k. apply set_eq. intros x. destruct (decide (x = k)); set_solver.
  - assert (k ∈ keys (favorites (toggleFavorite None item c1 st))) as Hk'.
    { rewrite (toggle_local_absent _ _ _ _ Hn Hk). unfold keys.
      rewrite fmap_app. set_solver. }
    rewrite (toggle_local_present _ _ _ _ Hn Hk'), (toggle_local_absent _ _ _ _ Hn Hk).
    rewrite favoriteIds_without, favoriteIds_snoc.
    rewrite <- favoriteIds_elem in Hk. fold k. set_solver.
Qed.

(** *** In the hosted table *)

Lemma select_snoc uid (t : list row) r :
  user_id r = uid → select_favorites uid (t ++ [r]) = r :: select_favorites uid t.
Proof.
  intros Huser. unfold select_favorites. rewrite filter_app.
  rewrite (filter_cons_True _ r []) by done. apply reverse_snoc.
Qed.

Lemma select_delete uid rid (t : list row) :
  select_favorites uid (delete_row rid t)
  = filter (λ r, row_id r ≠ rid) (select_favorites uid t).
Proof.
  unfold select_favorites, delete_row. rewrite filter_reverse. f_equal.
  rewrite !list_filter_filter. apply list_filter_iff. tauto.
Qed.

Lemma select_elem uid (t : list row) r :
  r ∈ select_favorites uid t ↔ r ∈ t ∧ user_id r = uid.
Proof.
  unfold select_favorites. rewrite elem_of_reverse, list_elem_of_filter. tauto.
Qed.

Lemma toggle_remote_absent uid item n c st :
  normalizeFavorite item = Some n →
  buildFavoriteKey n ∉ keys (favorites st) →
  synced (Some uid) st → accepted (Some uid) n c st →
  toggleFavorite (Some uid) item c st
  = {| favorites := of_row (new_row uid (generated_id c) n) :: favorites st;
       table := table st ++ [new_row uid (generated_id c) n] |}.
Proof.
  intros Hn Hk (Hsync & _ & _) (Hwrite & Hread & Hid & Hsource & Htitle & _ & _).
  unfold toggleFavorite. rewrite Hn, (find_key_None _ _ Hk), Hwrite, Hread.
  unfold insert_row. rewrite Hid, Hsource, Htitle. simpl.
  by rewrite select_snoc, Hsync.
Qed.

Lemma toggle_remote_present uid item n c st :
  normalizeFavorite item = Some n →
  buildFavoriteKey n ∈ keys (favorites st) →
  synced (Some uid) st → accepted (Some uid) n c st →
  ∃ r, r ∈ select_favorites uid (table st)
       ∧ buildFavoriteKey (of_row r) = buildFavoriteKey n
       ∧ toggleFavorite (Some uid) item c st
         = {| favorites :=
                of_row <$> filter (λ r', row_id r' ≠ row_id r)
                                  (select_favorites uid (table st));
              table := delete_row (row_id r) (table st) |}.
Proof.
  intros Hn Hk (Hsync & _ & Hids) (Hwrite & Hread & _).
  destruct (find_key_Some _ _ Hk) as (f & Hfind & Hf & Hkey).
  rewrite Hsync in Hf. apply list_elem_of_fmap in Hf as (r & -> & Hr).
  exists r. split; [done|]. split; [done|].
  unfold toggleFavorite. rewrite Hn, Hfind, Hwrite, Hread. simpl.
  assert (row_id r ≠ "") as Hrid.
  { apply select_elem in Hr as [Hr _]. by apply (proj1 (Forall_forall _ _) Hids). }
  unfold ptruthy. simpl. apply String.eqb_neq in Hrid. rewrite Hrid. simpl.
  by rewrite select_delete.
Qed.

(** *** In either mode *)

(** A toggle of a key that is not in the collection adds it. *)
Lemma toggle_absent user item n c st :
  normalizeFavorite item = Some n →
  buildFavoriteKey n ∉ keys (favorites st) →
  NoDup (keys (favorites st)) → synced user st → accepted user n c st →
  favoriteIds (favorites (toggleFavorite user item c st))
  = favoriteIds (favorites st) ∪ {[buildFavoriteKey n]}
  ∧ NoDup (keys (favorites (toggleFavorite user item c st)))
  ∧ synced user (toggleFavorite user item c st).
Proof.
  intros Hn Hk Hnodup Hsync Haccepted. destruct user as [uid|].
  - rewrite (toggle_remote_absent _ _ _ _ _ Hn Hk Hsync Haccepted). simpl.
    destruct Hsync as (Hsync & Hrows & Hids).
    destruct Haccepted as (_ & _ & Hid & Hsource & _ & Hnonempty & Hnew).
    rewrite favoriteIds_cons, (key_of_new_row _ _ _ Hid Hsource).
    split; [set_solver|]. split.
    + by apply NoDup_cons_2.
    + split; [by rewrite select_snoc, fmap_cons, Hsync|]. split.
      * rewrite fmap_app. apply NoDup_app. split; [done|]. split.
        -- intros x Hx. simpl. rewrite list_elem_of_singleton. by intros ->.
        -- apply NoDup_singleton.
      * apply Forall_app. split; [done|]. by repeat constructor.
  - rewrite (toggle_local_absent _ _ _ _ Hn Hk). split; [apply favoriteIds_snoc|].
    split; [|done]. unfold keys. rewrite fmap_app. apply NoDup_app.
    split; [done|]. split; [|apply NoDup_singleton].
    intros x Hx. simpl. rewrite list_elem_of_singleton. by intros ->.
Qed.

(** A toggle of a key that is in the collection, once, removes it. *)
Lemma toggle_present user item n c st :
  normalizeFavorite item = Some n →
  buildFavoriteKey n ∈ keys (favorites st) →
  NoDup (keys (favorites st)) → synced user st → accepted user n c st →
  favoriteIds (favorites (toggleFavorite user item c st))
  = favoriteIds (favorites st) ∖ {[buildFavoriteKey n]}
  ∧ NoDup (keys (favorites (toggleFavorite user item c st)))
  ∧ synced user (toggleFavorite user item c st).
Proof.
  intros Hn Hk Hnodup Hsync Haccepted. destruct user as [uid|].
  - destruct (toggle_remote_present _ _ _ _ _ Hn Hk Hsync Haccepted)
      as (r & Hr & Hkey & ->). simpl.
    destruct Hsync as (Hsync & Hrows & Hids).
    rewrite Hsync in Hnodup. unfold keys in Hnodup. rewrite <- list_fmap_compose in Hnodup.
    assert (∀ r', r' ∈ select_favorites uid (table st) →
              row_id r' ≠ row_id r
              ↔ buildFavoriteKey (of_row r') ≠ buildFavoriteKey n) as Hsame.
    { intros r' Hr'. rewrite <- Hkey. split.
      - intros Hne Heq. apply Hne.
        by rewrite (keys_NoDup_inj (buildFavoriteKey ∘ of_row) _ r' r Hnodup).
      - intros Hne Heq. apply Hne.
        apply select_elem in Hr as [Hr _]. apply select_elem in Hr' as [Hr' _].
        by rewrite (keys_NoDup_inj row_id _ r' r Hrows). }
    split; [|split].
    + rewrite Hsync. apply set_eq. intros x.
      rewrite elem_of_difference, elem_of_singleton, !favoriteIds_elem.
      unfold keys. rewrite !list_elem_of_fmap. split.
      * intros (f & -> & (r' & -> & [Hne Hr']%list_elem_of_filter)%list_elem_of_fmap).
        split; [|by apply Hsame]. exists (of_row r'). split; [done|].
        by apply list_elem_of_fmap_2.
      * intros [(f & -> & (r' & -> & Hr')%list_elem_of_fmap) Hne].
        exists (of_row r'). split; [done|]. apply list_elem_of_fmap_2.
        apply list_elem_of_filter. split; [by apply Hsame | done].
    + unfold keys. rewrite <- list_fmap_compose.
      eapply sublist_NoDup; [exact Hnodup|]. apply fmap_sublist, sublist_filter.
    + split; [by rewrite select_delete|]. split.
      * eapply sublist_NoDup; [exact Hrows|]. apply fmap_sublist, sublist_filter.
      * apply Forall_forall. intros r' [_ Hr']%list_elem_of_filter.
        by apply (proj1 (Forall_forall _ _) Hids).
  - rewrite (toggle_local_present _ _ _ _ Hn Hk). split; [apply favoriteIds_without|].
    split; [by apply keys_filter_NoDup | done].
Qed.

Lemma delete_row_new rid (t : list row) r :
  row_id r = rid → rid ∉ row_id <$> t → delete_row rid (t ++ [r]) = t.
Proof.
  intros Hrid Hnew. unfold delete_row. rewrite filter_app.
  rewrite (filter_cons_False _ r []) by (intros Hne; by apply Hne).
  rewrite app_nil_r. induction t as [|r' t IH]; [done|].
  rewrite fmap_cons, not_elem_of_cons in Hnew. destruct Hnew as [Hne Hnew].
  rewrite filter_cons_True by done. by rewrite IH.
Qed.

Lemma filter_other_keys k l :
  k ∉ keys l → filter (λ f, buildFavoriteKey f ≠ k) l = l.
Proof.
  induction l as [|f l IH]; [done|]. unfold keys. rewrite fmap_cons, not_elem_of_cons.
  intros [Hne Hk]. rewrite filter_cons_True by done. by rewrite IH.
Qed.

(** A favorite that was not saved: saving it and removing it again gives
    back the collection as it was, entry by entry. *)
Lemma toggle_absent_twice user item n c1 c2 st :
  normalizeFavorite item = Some n →
  buildFavoriteKey n ∉ keys (favorites st) →
  synced user st →
  accepted user n c1 st →
  accepted user n c2 (toggleFavorite user item c1 st) →
  favorites (toggleFavorite user item c2 (toggleFavorite user item c1 st)) = favorites st.
Proof.
  intros Hn Hk Hsync Hfirst Hsecond. destruct user as [uid|].
  - rewrite (toggle_remote_absent _ _ _ _ _ Hn Hk Hsync Hfirst) in *.
    destruct Hsync as (Hsync & _ & _).
    destruct Hfirst as (_ & _ & Hid & Hsource & _ & Hnonempty & Hnew).
    destruct Hsecond as (Hwrite & Hread & _).
    unfold toggleFavorite. rewrite Hn. simpl.
    rewrite (key_of_new_row _ _ _ Hid Hsource), String.eqb_refl. simpl.
    unfold ptruthy. simpl. apply String.eqb_neq in Hnonempty.
    rewrite Hnonempty, Hwrite, Hread. simpl.
    by rewrite (delete_row_new (generated_id c1) (table st)
                 (new_row uid (generated_id c1) n) eq_refl Hnew).
  - assert (buildFavoriteKey n ∈ keys (favorites (toggleFavorite None item c1 st))) as Hk'.
    { rewrite (toggle_local_absent _ _ _ _ Hn Hk). unfold keys. rewrite fmap_app.
      apply elem_of_app. right. by apply list_elem_of_singleton. }
    rewrite (toggle_local_present _ _ _ _ Hn Hk'), (toggle_local_absent _ _ _ _ Hn Hk).
    rewrite filter_app, (filter_other_keys _ _ Hk).
    rewrite (filter_cons_False _ n []) by (intros Hne; by apply Hne).
    apply app_nil_r.
Qed.

Lemma filter_agree {A} (P Q : A → Prop) `{∀ x, Decision (P x)} `{∀ x, Decision (Q x)}
    (l : list A) :
  (∀ x, x ∈ l → P x ↔ Q x) → filter P l = filter Q l.
Proof.
  induction l as [|x l IH]; intros Hagree; [done|].
  rewrite !filter_cons. rewrite IH by (intros y Hy; apply Hagree; by right).
  destruct (decide (P x)) as [HP|HP], (decide (Q x)) as [HQ|HQ]; try done.
  - destruct HQ. apply Hagree; [by left | done].
  - destruct HP. apply Hagree; [by left | done].
Qed.

Lemma filter_after_fmap {A B} (g : A → B) (P : B → Prop) `{∀ y, Decision (P y)}
    (l : list A) :
  filter P (g <$> l) = g <$> filter (λ x, P (g x)) l.
Proof.
  induction l as [|x l IH]; [done|]. rewrite fmap_cons, !filter_cons, IH.
  by destruct (decide (P (g x))).
Qed.

(** A toggle of a key that is in the collection, once, leaves the other
    entries, in their order. *)
Lemma toggle_present_others user item n c st :
  normalizeFavorite item = Some n →
  buildFavoriteKey n ∈ keys (favorites st) →
  NoDup (keys (favorites st)) → synced user st → accepted user n c st →
  favorites (toggleFavorite user item c st)
  = filter (λ f, buildFavoriteKey f ≠ buildFavoriteKey n) (favorites st).
Proof.
  intros Hn Hk Hnodup Hsync Haccepted. destruct user as [uid|];
    [|by apply toggle_local_present].
  destruct (toggle_remote_present _ _ _ _ _ Hn Hk Hsync Haccepted)
    as (r & Hr & Hkey & ->). simpl.
  destruct Hsync as (Hsync & Hrows & Hids).
  rewrite Hsync in Hnodup |- *. unfold keys in Hnodup.
  rewrite <- list_fmap_compose in Hnodup.
  rewrite filter_after_fmap. f_equal. apply filter_agree.
  intros r' Hr'. simpl. rewrite <- Hkey. split.
  - intros Hne Heq. apply Hne.
    by rewrite (keys_NoDup_inj (buildFavoriteKey ∘ of_row) _ r' r Hnodup).
  - intros Hne Heq. apply Hne.
    apply select_elem in Hr as [Hr _]. apply select_elem in Hr' as [Hr' _].
    by rewrite (keys_NoDup_inj row_id _ r' r Hrows).
Qed.

(** A toggle of a key that is not in the collection adds the favorite: on
    the device as the last entry, in the hosted table as the newest row,
    which is read first. *)
Lemma toggle_absent_added user item n c st :
  normalizeFavorite item = Some n →
  buildFavoriteKey n ∉ keys (favorites st) →
  synced user st → accepted user n c st →
  favorites (toggleFavorite user item c st)
  = match user with
    | None => favorites st ++ [n]
    | Some uid => of_row (new_row uid (generated_id c) n) :: favorites st
    end.
Proof.
  intros Hn Hk Hsync Haccepted. destruct user as [uid|].
  - by rewrite (toggle_remote_absent _ _ _ _ _ Hn Hk Hsync Haccepted).
  - by apply toggle_local_absent.
Qed.

(** C7 does not hold as written.  On the device, two toggles of a recipe
    that was saved under another title leave it as the last entry, with the
    fields of the summary, where it was the first.  With a user signed in
    and a client that has not read a row of the hosted table, one toggle
    leaves two entries with one key, and two toggles do not give back the
    set of keys. *)
Lemma toggle_twice_not_restored :
  normalizeFavorite (Some penne) = Some penne_favorite
  ∧ NoDup (keys [penne_saved; risotto])
  ∧ favorites (toggleFavorite None (Some penne) (goes_through "")
                 (toggleFavorite None (Some penne) (goes_through "")
                    (on_device [penne_saved; risotto])))
    = [risotto; penne_favorite]
  ∧ [risotto; penne_favorite] ≠ [penne_saved; risotto]
  ∧ NoDup (keys (favorites stale_client))
  ∧ ¬ NoDup (keys (favorites (toggleFavorite (Some "user-1") (Some penne)
                                (goes_through "row-2") stale_client)))
  ∧ favoriteIds (favorites (toggleFavorite (Some "user-1") (Some penne) (goes_through "row-3")
                              (toggleFavorite (Some "user-1") (Some penne)
                                 (goes_through "row-2") stale_client)))
    ≠ favoriteIds (favorites stale_client).
Proof.
  split; [reflexivity|]. split; [apply (bool_decide_unpack _); by vm_compute|].
  split; [reflexivity|]. split; [discriminate|]. split; [apply NoDup_nil_2|].
  split.
  - intros Hnodup. apply (bool_decide_pack _) in Hnodup. by vm_compute in Hnodup.
  - intros Heq. assert ("mealdb-52771" ∈ favoriteIds (favorites stale_client)) as Hin.
    { rewrite <- Heq. apply favoriteIds_elem. apply (bool_decide_unpack _). by vm_compute. }
    apply favoriteIds_elem in Hin. by apply elem_of_nil in Hin.
Qed.

(** C7, as the code has it: for every collection of favorites with one entry
    per composite key and every summary that normalizes to a favorite, on the
    device and, when the client is in step with the hosted table and the
    requests go through, in the hosted table: two toggles of that favorite
    give back the set of keys; they give back the very collection when the
    favorite was not in it; when it was, they leave the other entries in
    their order and the favorite of the summary after them on the device,
    before them in the hosted table; and after one toggle the collection
    still has at most one entry per key and is in step with the table. *)
Theorem toggle_favorite_twice user item n c1 c2 st :
  normalizeFavorite item = Some n →
  NoDup (keys (favorites st)) →
  synced user st →
  accepted user n c1 st →
  accepted user n c2 (toggleFavorite user item c1 st) →
  favoriteIds (favorites (toggleFavorite user item c2 (toggleFavorite user item c1 st)))
  = favoriteIds (favorites st)
  ∧ (buildFavoriteKey n ∉ keys (favorites st) →
     favorites (toggleFavorite user item c2 (toggleFavorite user item c1 st))
     = favorites st)
  ∧ (buildFavoriteKey n ∈ keys (favorites st) →
     favorites (toggleFavorite user item c2 (toggleFavorite user item c1 st))
     = match user with
       | None =>
           filter (λ f, buildFavoriteKey f ≠ buildFavoriteKey n) (favorites st) ++ [n]
       | Some uid =>
           of_row (new_row uid (generated_id c2) n)
           :: filter (λ f, buildFavoriteKey f ≠ buildFavoriteKey n) (favorites st)
       end)
  ∧ NoDup (keys (favorites (toggleFavorite user item c1 st)))
  ∧ synced user (toggleFavorite user item c1 st).
Proof.
  intros Hn Hnodup Hsync Hfirst Hsecond.
  destruct (decide (buildFavoriteKey n ∈ keys (favorites st))) as [Hk|Hk].
  - destruct (toggle_present _ _ _ _ _ Hn Hk Hnodup Hsync Hfirst)
      as (Hids & Hnodup' & Hsync').
    assert (buildFavoriteKey n ∉ keys (favorites (toggleFavorite user item c1 st))) as Hk'.
    { rewrite <- favoriteIds_elem, Hids. set_solver. }
    split; [|split; [done|split; [|done]]].
    + destruct (toggle_absent _ _ _ _ _ Hn Hk' Hnodup' Hsync' Hsecond) as (-> & _ & _).
      rewrite Hids. apply favoriteIds_elem in Hk.
      apply set_eq. intros x.
      destruct (decide (x = buildFavoriteKey n)); set_solver.
    + intros _. rewrite (toggle_absent_added _ _ _ _ _ Hn Hk' Hsync' Hsecond).
      by rewrite (toggle_present_others _ _ _ _ _ Hn Hk Hnodup Hsync Hfirst).
  - rewrite (toggle_absent_twice _ _ _ _ _ _ Hn Hk Hsync Hfirst Hsecond).
    split; [done|]. split; [done|]. split; [done|].
    by destruct (toggle_absent _ _ _ _ _ Hn Hk Hnodup Hsync Hfirst) as (_ & ? & ?).
Qed.

Lemma toggle_favorite_twice_witness :
  favoriteIds
    (favorites
       (toggleFavorite (Some "user-1") (Some penne) (goes_through "row-3")
          (toggleFavorite (Some "user-1") (Some penne) (goes_through "row-2") in_step)))
  = favoriteIds (favorites in_step)
  ∧ favorites
      (toggleFavorite (Some "user-1") (Some penne) (goes_through "row-3")
         (toggleFavorite (Some "user-1") (Some penne) (goes_through "row-2") in_step))
    = of_row (new_row "user-1" "row-3" penne_favorite)
      :: filter (λ f, buildFavoriteKey f ≠ buildFavoriteKey penne_favorite)
           (favorites in_step)
  ∧ NoDup (keys (favorites (toggleFavorite (Some "user-1") (Some penne)
                              (goes_through "row-2") in_step))).
Proof.
  destruct (toggle_favorite_twice (Some "user-1") (Some penne) penne_favorite
              (goes_through "row-2") (goes_through "row-3") in_step)
    as (Hids & _ & Hlist & Hnodup & _).
  - reflexivity.
  - apply (bool_decide_unpack _). by vm_compute.
  - split; [reflexivity|]. split; [apply (bool_decide_unpack _); by vm_compute|].
    by repeat constructor.
  - repeat split; try reflexivity; [discriminate|].
    apply (bool_decide_unpack _). by vm_compute.
  - repeat split; try reflexivity; [discriminate|].
    apply (bool_decide_unpack _). by vm_compute.
  - split; [done|]. split; [|done]. apply Hlist.
    apply (bool_decide_unpack _). by vm_compute.
Defined.

End favorites.

(** ** More on the sanitizer and on the search *)

Section sanitizer_more.
Import Backend Frontend.

Lemma trimStart_first s :
  (∀ c rest, s = String c rest → is_white c = false) → trimStart s = s.
Proof.
  destruct s as [|c s]; [done|]. intros Hfirst. simpl. by rewrite (Hfirst c s).
Qed.

Lemma trimEnd_last s :
  (∀ c init, s = init +:+ String c "" → is_white c = false) → trimEnd s = s.
Proof.
  induction s as [|c s IH]; [done|]. intros Hlast. simpl.
  destruct s as [|d s].
  - simpl. by rewrite (Hlast c "").
  - rewrite IH; [done|]. intros c' init Heq. apply (Hlast c' (String c init)).
    by rewrite app_String, Heq.
Qed.

Lemma trim_tight t : tight t → trim t = t.
Proof.
  intros [Hfirst Hlast]. unfold trim. rewrite (trimStart_first _ Hfirst).
  by apply trimEnd_last.
Qed.

Lemma trimStart_blank s : blank s → trimStart s = "".
Proof.
  induction s as [|c s IH]; [done|]. intros [Hc Hs]%Forall_cons. simpl.
  rewrite Hc. by apply IH.
Qed.

Lemma blank_app s t : blank (s +:+ t) ↔ blank s ∧ blank t.
Proof. unfold blank. rewrite chars_app. apply Forall_app. Qed.

Lemma trim_blank s : trim s = "" ↔ blank s.
Proof.
  split.
  - intros Hs. destruct (trim_spec s) as (before & after & Heq & Hb & Ha & _).
    rewrite Hs, app_empty_l in Heq. rewrite Heq. by apply blank_app.
  - intros Hs. unfold trim. by rewrite (trimStart_blank _ Hs).
Qed.

Lemma comma_free_app s t : comma_free (s +:+ t) ↔ comma_free s ∧ comma_free t.
Proof. unfold comma_free. rewrite chars_app, not_elem_of_app. tauto. Qed.

Lemma trim_comma_free s : comma_free s → comma_free (trim s).
Proof.
  intros Hs. destruct (trim_spec s) as (before & after & Heq & _).
  rewrite Heq in Hs. apply comma_free_app in Hs as [_ Hs].
  by apply comma_free_app in Hs as [Hs _].
Qed.

Lemma pieces_free sep s : sep ∉ chars s → pieces sep s = (s, []).
Proof.
  induction s as [|c s IH]; [done|]. simpl. rewrite not_elem_of_cons.
  intros [Hne Hs]. rewrite (IH Hs).
  destruct (Ascii.eqb_spec c sep) as [->|_]; done.
Qed.

Lemma pieces_app sep p rest :
  sep ∉ chars p →
  pieces sep (p +:+ String sep rest) = (p, (pieces sep rest).1 :: (pieces sep rest).2).
Proof.
  induction p as [|c p IH]; simpl.
  - intros _. rewrite Ascii.eqb_refl. by destruct (pieces sep rest).
  - rewrite not_elem_of_cons. intros [Hne Hp].
    rewrite (IH Hp). destruct (Ascii.eqb_spec c sep) as [->|_]; done.
Qed.

(** [split] undoes [join]: a list of pieces without the separator, joined
    and cut again, is the list. *)
Lemma split_join sep l :
  l ≠ [] → Forall (λ p, sep ∉ chars p) l → split sep (join (String sep "") l) = l.
Proof.
  intros Hl Hfree. unfold split.
  induction l as [|x l IH]; [done|].
  apply Forall_cons in Hfree as [Hx Hfree].
  destruct l as [|y l].
  - simpl. by rewrite (pieces_free _ _ Hx).
  - rewrite join_cons, app_String, app_empty_l, (pieces_app _ _ _ Hx).
    specialize (IH ltac:(done) Hfree).
    destruct (pieces sep (join (String sep "") (y :: l))) as [piece more].
    simpl. by rewrite IH.
Qed.

Lemma join_empty sep l : Forall (λ t, t ≠ "") l → join sep l = "" → l = [].
Proof.
  destruct l as [|x l]; [done|]. intros [Hx _]%Forall_cons Hjoin.
  destruct l as [|y l]; [done|]. rewrite join_cons in Hjoin.
  destruct x; [done|]. by rewrite app_String in Hjoin.
Qed.

Lemma chars_join sep l c :
  c ∈ chars (join sep l) → c ∈ chars sep ∨ ∃ p, p ∈ l ∧ c ∈ chars p.
Proof.
  induction l as [|x l IH]; [by intros ?%elem_of_nil|].
  destruct l as [|y l].
  - intros Hc. right. exists x. split; [by left | done].
  - rewrite join_cons, !chars_app, !elem_of_app. intros [Hc|[Hc|Hc]].
    + right. exists x. split; [by left | done].
    + by left.
    + destruct (IH Hc) as [?|(p & Hp & ?)]; [by left|].
      right. exists p. split; [by right | done].
Qed.

Lemma chars_piece sep l p c :
  p ∈ l → c ∈ chars p → c ∈ chars (join sep l).
Proof.
  induction l as [|x l IH]; [by intros ?%elem_of_nil|].
  intros Hp Hc. destruct l as [|y l].
  - apply list_elem_of_singleton in Hp as ->. done.
  - rewrite join_cons, !chars_app, !elem_of_app.
    apply elem_of_cons in Hp as [->|Hp]; [by left|]. right; right. by apply IH.
Qed.

Lemma sanitizeCsv_tokens s : sanitizeCsv (Str s) = Ok (join "," (tokens s)).
Proof. reflexivity. Qed.

Lemma sanitizeIngredients_tokens s : sanitizeIngredients (Str s) = Ok (join "," (tokens s)).
Proof. reflexivity. Qed.

Lemma tight_trim s : tight (trim s).
Proof. by destruct (trim_spec s) as (? & ? & _ & _ & _ & ?). Qed.

Lemma tokens_clean s : Forall clean (tokens s).
Proof.
  unfold tokens. apply Forall_forall. intros t [Hne Ht]%list_elem_of_filter.
  apply list_elem_of_fmap in Ht as (piece & -> & Hpiece).
  split; [done|]. split; [apply tight_trim|]. apply trim_comma_free.
  destruct (pieces_spec "," s) as [_ Hfree].
  by apply (proj1 (Forall_forall _ _) Hfree).
Qed.

Lemma tokens_of_clean l : Forall clean l → filter (λ item, item ≠ "") (trim <$> l) = l.
Proof.
  induction 1 as [|t l (Hne & Htight & _) _ IH]; [done|].
  rewrite fmap_cons, (trim_tight _ Htight), filter_cons_True by done. by rewrite IH.
Qed.

Lemma tokens_join l : Forall clean l → tokens (join "," l) = l.
Proof.
  intros Hl. unfold tokens. destruct l as [|x l]; [done|].
  rewrite split_join; [by apply tokens_of_clean | done |].
  eapply Forall_impl; [done|]. by intros t (_ & _ & ?).
Qed.

Lemma filter_none {A} (P : A → Prop) `{∀ x, Decision (P x)} (l : list A) :
  Forall (λ x, ¬ P x) l → filter P l = [].
Proof.
  induction 1 as [|x l Hx _ IH]; [done|]. by rewrite filter_cons_False.
Qed.

Lemma tokens_nil s : tokens s = [] ↔ Forall separator (chars s).
Proof.
  destruct (pieces_spec "," s) as [Hjoin Hfree]. unfold tokens. split.
  - intros Hnil. apply Forall_forall. intros c Hc. rewrite <- Hjoin in Hc.
    apply chars_join in Hc as [Hc|(p & Hp & Hc)].
    + right. simpl in Hc. by apply list_elem_of_singleton in Hc.
    + left. assert (blank p) as Hblank.
      { apply trim_blank. destruct (decide (trim p = "")) as [|Hne]; [done|].
        assert (trim p ∈ filter (λ item, item ≠ "") (trim <$> split "," s)) as Hin.
        { apply list_elem_of_filter. split; [done|]. by apply list_elem_of_fmap_2. }
        rewrite Hnil in Hin. by apply elem_of_nil in Hin. }
      by apply (proj1 (Forall_forall _ _) Hblank).
  - intros Hs. apply filter_none, Forall_forall.
    intros t (p & -> & Hp)%list_elem_of_fmap Hne. apply Hne, trim_blank.
    apply Forall_forall. intros c Hc.
    assert (c ∈ chars s) as Hin by (rewrite <- Hjoin; by eapply chars_piece).
    destruct (proj1 (Forall_forall _ _) Hs c Hin) as [? | ->]; [done|].
    by destruct (proj1 (Forall_forall _ _) Hfree p Hp).
Qed.

Lemma sanitized_empty s : join "," (tokens s) = "" ↔ Forall separator (chars s).
Proof.
  rewrite <- tokens_nil. split.
  - apply join_empty. eapply Forall_impl; [apply tokens_clean|]. by intros t [? _].
  - by intros ->.
Qed.

(** X1: what [sanitizeIngredients] sends is a list of tokens joined by
    commas, each token not empty, without white space at its ends and without
    a comma; [sanitizeCsv] leaves that text as it is, and cutting it at its
    commas gives back the tokens. *)
Theorem sanitize_twice (s : string) :
  ∃ kept : list string,
    sanitizeIngredients (Str s) = Ok (join "," kept)
    ∧ Forall clean kept
    ∧ sanitizeCsv (Str (join "," kept)) = Ok (join "," kept)
    ∧ (kept ≠ [] → split "," (join "," kept) = kept).
Proof.
  exists (tokens s). split; [done|]. split; [apply tokens_clean|]. split.
  - rewrite sanitizeCsv_tokens, tokens_join; [done | apply tokens_clean].
  - intros Hsome. apply split_join; [done|].
    eapply Forall_impl; [apply tokens_clean|]. by intros t (_ & _ & ?).
Qed.

(** X2: the outcomes of [GET /api/recipes] by its [ingredients] parameter.
    Given several times, it makes [sanitizeCsv] throw outside of any [try]:
    the handler throws.  Omitted, it is answered with 400.  Given once, the
    handler answers, with 200, 400, 404 or 502, and with 400 exactly when the
    text holds nothing but commas and white space. *)
Theorem get_recipes_outcomes e up (q : search_query) :
  match ingredients q with
  | Several _ => get_recipes e up q = Throw "value.split is not a function"
  | Absent =>
      get_recipes e up q
      = Ok (Respond 400 (Failed "Ingredients query parameter is required" None))
  | Once s =>
      ∃ r, get_recipes e up q = Ok r
           ∧ code r ∈ [200; 400; 404; 502]
           ∧ (code r = 400 ↔ Forall separator (chars s))
           ∧ (code r = 400 →
              body r = Failed "Ingredients query parameter is required" None)
  end.
Proof.
  unfold get_recipes. destruct (ingredients q) as [|s|l]; [done| |done].
  simpl of_param. rewrite sanitizeCsv_tokens. simpl mbind.
  destruct (String.eqb_spec (join "," (tokens s)) "") as [Hempty|Hsome].
  - eexists. split; [done|]. simpl. split; [set_solver|].
    split; [|done]. split; [|done]. intros _. by apply sanitized_empty.
  - destruct (normalizeSource_param (q_source q) "both") as (selected & -> & _).
    assert (¬ Forall separator (chars s)) as Hnot by by rewrite <- sanitized_empty.
    simpl. destruct (negb _ && negb _); [destruct (Nat.eqb _ 0)|];
      eexists; (split; [done|]); simpl; (split; [set_solver|]); split; done.
Qed.

End sanitizer_more.

(** ** The routes *)

Section routes.
Import Backend Routes.

Lemma getMealDetail_text e up id s :
  getMealDetail e up (Str id) (Str s)
  = if String.eqb (toLowerCase s) "spoonacular"
    then getMealDetail e up (Str id) (Str "spoonacular")
    else getMealDetail e up (Str id) Undefined.
Proof.
  unfold getMealDetail. simpl is_text.
  destruct (String.eqb_spec s "both") as [->|Hboth]; [done|].
  unfold normalizeSource. simpl.
  case_bool_decide as Hknown.
  - unfold known_sources in Hknown.
    apply elem_of_cons in Hknown as [->|Hknown]; [done|].
    apply elem_of_cons in Hknown as [->|Hknown]; [done|].
    apply list_elem_of_singleton in Hknown as ->. done.
  - destruct (String.eqb_spec (toLowerCase s) "spoonacular") as [Heq|_]; [|done].
    destruct Hknown. rewrite Heq. unfold known_sources. set_solver.
Qed.

(** X4: a detail request goes to Spoonacular exactly when its [source] reads
    [spoonacular], in any case of its letters; any other text, [both]
    included, is answered as a request without a source is, from TheMealDB,
    and that answer depends neither on Spoonacular nor on its key. *)
Theorem get_recipe_routing e up id s :
  get_recipe e up id (Once s)
  = (if String.eqb (toLowerCase s) "spoonacular"
     then get_recipe e up id (Once "spoonacular")
     else get_recipe e up id Absent)
  ∧ ∀ e' up', mealdb_reply up' = mealdb_reply up →
      get_recipe e' up' id Absent = get_recipe e up id Absent.
Proof.
  split.
  - unfold get_recipe. simpl or_default. rewrite getMealDetail_text.
    by destruct (String.eqb _ "spoonacular").
  - intros e' up' Hsame. unfold get_recipe, getMealDetail, fetchFromMealDb. simpl.
    by rewrite Hsame.
Qed.

Lemma task_outcome key fn p :
  task key fn p
  = match fn p with
    | Ok assigned => assigned
    | Throw message =>
        if String.eqb message "" then p else set_error key (Str message) p
    end.
Proof.
  destruct (fn p) as [assigned|message] eqn:Hfn;
    [by apply task_ok | by apply task_throw].
Qed.

Lemma random_mealdb_task up p :
  spoonacular (task "mealdb" (random_mealdb up) p) = spoonacular p
  ∧ errors (task "mealdb" (random_mealdb up) p) !! "spoonacular"
    = errors p !! "spoonacular"
  ∧ source (task "mealdb" (random_mealdb up) p) = source p.
Proof.
  rewrite task_outcome. unfold random_mealdb.
  destruct (fetchFromMealDb up) as [data|message]; simpl; [done|].
  destruct (String.eqb message ""); simpl; [done|]. by simplify_map_eq.
Qed.

(** X5: [GET /api/random] never throws: every query is answered, with 200,
    404 or 502, and 200 comes with the payload.  A [tags] parameter given
    several times, on which [sanitizeCsv] throws, is caught and reported as
    the error of Spoonacular. *)
Theorem get_random_outcomes e up (q : random_query) :
  ∃ selected r,
    normalizeSource (or_default (of_param (r_source q)) (Str "mealdb")) = Ok selected
    ∧ get_random e up q = Ok r
    ∧ code r ∈ [200; 404; 502]
    ∧ (code r = 200 → body r = Results (random_fan_out e up q selected))
    ∧ ∀ l, r_tags q = Several l → queried "spoonacular" selected = true →
        spoonacular (random_fan_out e up q selected) = Arr []
        ∧ errors (random_fan_out e up q selected) !! "spoonacular"
          = Some (Str "value.split is not a function").
Proof.
  destruct (normalizeSource_param (r_source q) "mealdb") as (selected & Hselected & _).
  exists selected. unfold get_random. rewrite Hselected. simpl.
  assert (∀ l, r_tags q = Several l → queried "spoonacular" selected = true →
            spoonacular (random_fan_out e up q selected) = Arr []
            ∧ errors (random_fan_out e up q selected) !! "spoonacular"
              = Some (Str "value.split is not a function")) as Htags.
  { intros l Hl Hq. unfold random_fan_out. unfold queried in Hq. rewrite Hq.
    rewrite (task_outcome "spoonacular"). unfold random_spoonacular. rewrite Hl. simpl.
    split; [|by simplify_map_eq].
    destruct (String.eqb selected "mealdb" || String.eqb selected "both"); [|done].
    by destruct (random_mealdb_task up
                   {| source := selected; mealdb := Arr []; spoonacular := Arr [];
                      errors := ∅ |}) as (-> & _). }
  destruct (negb _ && negb _); [destruct (Nat.eqb _ 0)|];
    eexists; (split; [done|]); (split; [done|]); simpl;
    (split; [set_solver|]); split; done.
Qed.

(** X6: with the source omitted a random recipe is asked of TheMealDB only,
    where a search asks both: the answer is the same whatever [diet], [tags],
    the key and the answer of Spoonacular are, and its payload has the source
    [mealdb], nothing under [spoonacular] and no error for it. *)
Theorem get_random_default e e' mealdb_answer sp sp' oa oa' diet tags :
  get_random e {| mealdb_reply := mealdb_answer; spoonacular_reply := sp; openai_reply := oa |}
    {| r_source := Absent; r_diet := diet; r_tags := tags |}
  = get_random e' {| mealdb_reply := mealdb_answer; spoonacular_reply := sp';
                     openai_reply := oa' |}
      {| r_source := Absent; r_diet := Absent; r_tags := Absent |}
  ∧ ∀ r p, get_random e {| mealdb_reply := mealdb_answer; spoonacular_reply := sp;
                          openai_reply := oa |}
             {| r_source := Absent; r_diet := diet; r_tags := tags |} = Ok r →
           body r = Results p ∨ body r = Failed "No random recipes available" (Some p) →
           source p = "mealdb" ∧ spoonacular p = Arr [] ∧ errors p !! "spoonacular" = None.
Proof.
  split; [reflexivity|].
  intros r p. unfold get_random. simpl. unfold random_fan_out. simpl.
  rewrite task_outcome. unfold random_mealdb, fetchFromMealDb. simpl.
  destruct (fetchJson mealdb_answer) as [data|message]; simpl.
  - destruct (negb _ && _); intros [= <-]; simpl; intros [[= <-]|[= <-]]; done.
  - destruct (String.eqb message ""); simpl; intros [= <-]; simpl;
      intros [[= <-]|[= <-]]; simpl; by simplify_map_eq.
Qed.

Lemma relayed data :
  reported (if truthy (member_opt data "error")
            then Respond 502 (Obj [("error", prop data "error")])
            else Respond 200 data).
Proof.
  destruct (truthy (member_opt data "error")) eqn:Herror; split; simpl;
    try set_solver.
  split; [done|]. unfold member_opt in Herror. destruct (nullish data); [done|].
  unfold member_opt. simpl. by rewrite Herror.
Qed.

Lemma looked_up detail :
  reported (if truthy (member_opt detail "error")
            then Respond (if is_text (prop detail "error") "Recipe not found"
                          then 404 else 502)
                   (Obj [("error", prop detail "error")])
            else Respond 200 detail).
Proof.
  destruct (truthy (member_opt detail "error")) eqn:Herror; split; simpl;
    try set_solver.
  - destruct (is_text _ _); set_solver.
  - unfold member_opt in Herror. destruct (nullish detail); [done|].
    unfold member_opt. simpl. rewrite Herror. by destruct (is_text _ _).
Qed.

Lemma own_texts fields name :
  Forall (λ kv : string * value, kv.2 = Null ∨ ∃ s, kv.2 = Str s) fields →
  own fields name = None ∨ own fields name = Some Null
  ∨ ∃ s, own fields name = Some (Str s).
Proof.
  induction 1 as [|[k v] fields Hv _ IH]; simpl; [by left|].
  destruct (String.eqb k name); [|done]. right. simpl in Hv.
  destruct Hv as [->|[s ->]]; eauto.
Qed.

(** What is read of a meal of TheMealDB is a text or nothing. *)
Lemma member_opt_texts meal name :
  texts_or_null meal →
  member_opt meal name = Undefined ∨ member_opt meal name = Null
  ∨ ∃ s, member_opt meal name = Str s.
Proof.
  intros Hmeal. destruct meal as [| | | | | |fields]; try by left.
  unfold member_opt. simpl.
  destruct (own_texts fields name Hmeal) as [->|[->|[s ->]]]; simpl; eauto.
Qed.

Lemma normalizeMealIngredients_mealdb meal :
  texts_or_null meal →
  ∃ ingredients,
    normalizeMealIngredients meal (Str "mealdb") = Ok ingredients
    ∧ Forall (λ v, plain v = true) ingredients.
Proof.
  intros Hmeal. unfold normalizeMealIngredients. simpl is_text. cbv iota.
  match goal with
  | |- context [mapM ?f (seq 0 20)] =>
      destruct (mapM_returns_with (λ v, plain v = true) f (seq 0 20)) as (lines & -> & Hlines)
  end.
  - apply Forall_forall. intros index _.
    destruct (member_opt_texts meal ("strIngredient" +:+ pretty (index + 1)) Hmeal)
      as [->|[->|[name ->]]]; simpl; [by eexists | by eexists |].
    destruct (String.eqb name ""); simpl; [by eexists|].
    unfold fmap, result_fmap. simpl.
    destruct (String.eqb (trim name) ""); [by eexists|].
    destruct (member_opt_texts meal ("strMeasure" +:+ pretty (index + 1)) Hmeal)
      as [->|[->|[quantity ->]]]; simpl; [by eexists | by eexists |].
    destruct (String.eqb (trim quantity) ""); simpl; by eexists.
  - simpl. eexists. split; [done|]. by apply filter_plain.
Qed.

Lemma normalizeMealSteps_mealdb meal :
  texts_or_null meal →
  ∃ steps,
    normalizeMealSteps meal (Str "mealdb") = Ok steps
    ∧ Forall (λ v, plain v = true) steps.
Proof.
  intros Hmeal. unfold normalizeMealSteps. simpl is_text. cbv iota.
  destruct (member_opt_texts meal "strInstructions" Hmeal) as [->|[->|[text ->]]];
    simpl; [by eexists | by eexists |].
  destruct (String.eqb text ""); simpl; [by eexists|].
  eexists. split; [done|].
  apply filter_plain, (texts_plain (λ line, trim (strip_step_number line))).
Qed.

(** A request that does not read [spoonacular] is looked up at TheMealDB. *)
Lemma getMealDetail_at_mealdb e up id source :
  source = Undefined ∨ (∃ s, source = Str s ∧ toLowerCase s ≠ "spoonacular") →
  getMealDetail e up id (or_default source (Str "mealdb"))
  = (_ ← ToString id;
     data ← fetchFromMealDb up;
     let meal := first_opt (member_opt data "meals") in
     if truthy meal then Ok (Obj [("source", Str "mealdb"); ("meal", meal)])
     else Throw "Recipe not found").
Proof.
  intros [->|(s & -> & Hs)]; [done|]. unfold getMealDetail. simpl or_default.
  simpl is_text. destruct (String.eqb s "both"); [done|].
  unfold normalizeSource. simpl.
  apply String.eqb_neq in Hs.
  case_bool_decide as Hknown; [by rewrite Hs | done].
Qed.

(** X7: the routes that pass the answer of a provider on and the detail
    route always answer, and so does the video route to a request with a body
    that is looked up at TheMealDB, when TheMealDB answers as documented;
    these answers report a failure in the status and in the body alike: the
    status is one of 200, 400, 404 and 502, and it is 200 exactly when the
    body has no [error] that counts as true. *)
Theorem replies_reported e ue up usda_reply area id source query cq req_body :
  reported (get_cuisines up)
  ∧ reported (get_area up area)
  ∧ reported (get_autocomplete e up query)
  ∧ reported (get_spoonacular_search e up cq)
  ∧ reported (get_usda_search ue usda_reply query)
  ∧ (∃ r, get_recipe e up id source = Ok r ∧ reported r)
  ∧ (asks_mealdb req_body → mealdb_as_documented up →
     ∃ r, post_video e up req_body = Ok r ∧ reported r).
Proof.
  split; [apply relayed|]. split; [apply relayed|].
  split.
  { unfold get_autocomplete. destruct (negb _); [by split; [set_solver|]|].
    apply relayed. }
  split.
  { unfold get_spoonacular_search. destruct (_ && _); [by split; [set_solver|]|].
    apply relayed. }
  split.
  { unfold get_usda_search. destruct (negb _); [by split; [set_solver|]|].
    apply relayed. }
  split.
  { unfold get_recipe.
    pose proof (looked_up (withSafeFetch
                  (getMealDetail e up (Str id)
                     (or_default (of_param source) (Str "mealdb"))))) as Hdetail.
    destruct (truthy (member_opt _ "error")); by eexists. }
  intros [Hbody Hsource] Hmealdb. unfold post_video. rewrite Hbody. simpl.
  destruct (negb (truthy _)); [eexists; split; [done|]; by split; [set_solver|]|].
  rewrite (getMealDetail_at_mealdb _ _ _ _ Hsource).
  destruct (ToString (prop req_body "recipeId")) as [text|message] eqn:Hid; simpl.
  2:{ apply ToString_message in Hid as ->. simpl.
      eexists. split; [done|]. by split; [set_solver|]. }
  unfold mealdb_as_documented in Hmealdb.
  destruct (fetchFromMealDb up) as [data|message]; simpl.
  2:{ apply String.eqb_neq in Hmealdb. rewrite Hmealdb. simpl.
      eexists. split; [done|]. split; simpl.
      - destruct (String.eqb message "Recipe not found"); set_solver.
      - rewrite Hmealdb. by destruct (String.eqb message "Recipe not found"). }
  destruct (truthy (first_opt (member_opt data "meals"))) eqn:Hmeal; simpl;
    [|eexists; split; [done|]; by split; [set_solver|]].
  set (meal := first_opt (member_opt data "meals")) in *.
  assert (nullish meal = false) as Hnull by by destruct meal.
  unfold member. rewrite Hnull. simpl.
  destruct (normalizeMealIngredients_mealdb meal Hmealdb) as (ingredients & -> & Hingredients).
  destruct (normalizeMealSteps_mealdb meal Hmealdb) as (steps & -> & Hsteps). simpl.
  destruct (_ || _); [eexists; split; [done|]; by split; [set_solver|]|].
  destruct (buildSoraPrompt_returns
              (or_else (prop meal "strMeal") (Str "MealMatch Recipe")) ingredients steps)
    as [prompt ->]; [|done|done|].
  { unfold or_else. destruct (truthy (prop meal "strMeal")) eqn:Hname; [|done].
    destruct (member_opt_texts meal "strMeal" Hmealdb) as [Heq|[Heq|[s Heq]]];
      unfold member_opt in Heq; rewrite Hnull in Heq; by rewrite Heq. }
  simpl. destruct (_ || _); [eexists; split; [done|]; by split; [set_solver|]|].
  destruct (truthy (member_opt _ "error")); eexists; (split; [done|]);
    by split; [set_solver|].
Qed.

Lemma replies_reported_witness :
  ∃ r, post_video without_key one_meal_no_recipe (Obj [("recipeId", Str "52771")]) = Ok r
       ∧ reported r.
Proof.
  destruct (replies_reported without_key
              {| env_FDC_API_KEY := ""; env_USDA_API_KEY := "" |}
              one_meal_no_recipe (Rejected "fetch failed") "Italian" "52771" Absent Absent
              {| c_query := Absent; c_diet := Absent; c_intolerances := Absent |}
              (Obj [("recipeId", Str "52771")]))
    as (_ & _ & _ & _ & _ & _ & Hvideo).
  apply Hvideo.
  - split; [reflexivity | by left].
  - unfold mealdb_as_documented. simpl.
    repeat (constructor; [right; by eexists|]). constructor.
Defined.

(** X8: a request for a preview, and any request to a server without the key
    of the video service, never reaches that service: the answer is the same
    whatever the service would have answered. *)
Theorem video_preview_only e mealdb_answer sp oa oa' req_body :
  truthy (or_default (prop req_body "preview") (Bool false)) = true
  ∨ openaiClient e = None →
  post_video e {| mealdb_reply := mealdb_answer; spoonacular_reply := sp;
                  openai_reply := oa |} req_body
  = post_video e {| mealdb_reply := mealdb_answer; spoonacular_reply := sp;
                    openai_reply := oa' |} req_body.
Proof.
  intros Hpreview. unfold post_video.
  destruct (nullish req_body); [done|]. simpl.
  destruct (negb (truthy _)); [done|].
  assert (∀ id pref,
            getMealDetail e {| mealdb_reply := mealdb_answer; spoonacular_reply := sp;
                               openai_reply := oa |} id pref
            = getMealDetail e {| mealdb_reply := mealdb_answer; spoonacular_reply := sp;
                                 openai_reply := oa' |} id pref) as -> by done.
  destruct (truthy (member_opt _ "error")); [done|].
  destruct (if is_text _ _ then _ else _) as [recipeName|]; [|done]. simpl.
  destruct (normalizeMealIngredients _ _) as [ingredients|]; [|done]. simpl.
  destruct (normalizeMealSteps _ _) as [steps|]; [|done]. simpl.
  destruct (_ || _); [done|].
  destruct (buildSoraPrompt _ _ _) as [soraPrompt|]; [|done]. simpl.
  destruct Hpreview as [-> | ->]; [done|]. by rewrite orb_true_r.
Qed.

Lemma video_preview_only_witness :
  post_video with_key
    {| mealdb_reply := answers (Obj [("meals", Arr [arrabiata])]);
       spoonacular_reply := Rejected "fetch failed"; openai_reply := Throw "quota" |}
    (Obj [("recipeId", Str "52771")])
  = post_video with_key
      {| mealdb_reply := answers (Obj [("meals", Arr [arrabiata])]);
         spoonacular_reply := Rejected "fetch failed"; openai_reply := Ok Null |}
      (Obj [("recipeId", Str "52771")]).
Proof. apply video_preview_only. right. reflexivity. Defined.

Lemma spoonacular_results_without_key e up q :
  SPOONACULAR_API_KEY e = "" →
  spoonacular_results e up q = Throw "Spoonacular API key is not configured".
Proof.
  intros Hkey. unfold spoonacular_results. by rewrite Hkey.
Qed.

(** X3: a search for a list with an ingredient on a server without the key
    of Spoonacular.  When Spoonacular is among the sources its array is empty
    and its entry in [errors] says that the key is not configured; the answer
    is 200 when TheMealDB has a match and 502 when it has none, never 404. *)
Theorem search_without_key e up (q : search_query) s :
  SPOONACULAR_API_KEY e = "" → ingredients q = Once s → ¬ Forall separator (chars s) →
  ∃ selected r,
    normalizeSource (or_default (of_param (q_source q)) (Str "both")) = Ok selected
    ∧ get_recipes e up q = Ok r
    ∧ (queried "spoonacular" selected = true →
       spoonacular (fan_out e up q selected) = Arr []
       ∧ errors (fan_out e up q selected) !! "spoonacular"
         = Some (Str "Spoonacular API key is not configured")
       ∧ code r ∈ [200; 502]
       ∧ (code r = 200 ↔ has_length (mealdb (fan_out e up q selected)) = true)).
Proof.
  intros Hkey Hingredients Hsome.
  destruct (normalizeSource_param (q_source q) "both") as (selected & Hselected & _).
  exists selected. unfold get_recipes. rewrite Hingredients. simpl of_param.
  rewrite sanitizeCsv_tokens. simpl mbind.
  destruct (String.eqb_spec (join "," (tokens s)) "") as [Hempty|_];
    [by apply sanitized_empty in Hempty|].
  rewrite Hselected. simpl mbind.
  pose proof (fan_out_fields e up q selected) as (_ & _ & Hfield & _ & Herror).
  rewrite (spoonacular_results_without_key _ _ _ Hkey) in Hfield, Herror.
  simpl in Herror.
  destruct (has_length (mealdb (fan_out e up q selected))) eqn:Hmealdb; simpl.
  - eexists. split; [done|]. split; [done|]. intros Hq. rewrite Hq in Hfield, Herror.
    simpl. split; [done|]. split; [done|]. split; [set_solver | done].
  - destruct (queried "spoonacular" selected) eqn:Hq.
    + rewrite Hfield. simpl.
      assert (size (errors (fan_out e up q selected)) ≠ 0%nat) as Hsize.
      { intros Hzero%map_size_empty_iff. rewrite Hzero in Herror. by simplify_map_eq. }
      apply Nat.eqb_neq in Hsize. rewrite Hsize.
      eexists. split; [done|]. split; [done|]. intros _. simpl.
      split; [done|]. split; [done|]. split; [set_solver | done].
    + destruct (negb _); [destruct (Nat.eqb _ 0)|]; eexists; by split.
Qed.

Lemma search_without_key_witness :
  ∃ selected r,
    normalizeSource (or_default (of_param (q_source (search_for "tomato"))) (Str "both"))
    = Ok selected
    ∧ get_recipes without_key one_meal_no_recipe (search_for "tomato") = Ok r
    ∧ (queried "spoonacular" selected = true →
       spoonacular (fan_out without_key one_meal_no_recipe (search_for "tomato") selected)
       = Arr []
       ∧ errors (fan_out without_key one_meal_no_recipe (search_for "tomato") selected)
         !! "spoonacular"
         = Some (Str "Spoonacular API key is not configured")
       ∧ code r ∈ [200; 502]
       ∧ (code r = 200
          ↔ has_length
              (mealdb (fan_out without_key one_meal_no_recipe (search_for "tomato")
                         selected)) = true)).
Proof.
  apply (search_without_key without_key one_meal_no_recipe (search_for "tomato") "tomato");
    [reflexivity | reflexivity |].
  intros Hall. apply Forall_cons in Hall as [[Hwhite|Hcomma] _]; discriminate.
Defined.

End routes.

(** ** The lines of a prompt *)

Section lines.
Import Backend.

Lemma app_last a b c init :
  b ≠ "" → a +:+ b = init +:+ String c "" → ∃ init', b = init' +:+ String c "".
Proof.
  revert init. induction a as [|d a IH]; intros init Hb Heq.
  - rewrite app_empty_l in Heq. eauto.
  - rewrite app_String in Heq. destruct init as [|d' init].
    + rewrite app_empty_l in Heq. injection Heq as _ Heq.
      destruct a; [by rewrite app_empty_l in Heq | by rewrite app_String in Heq].
    + rewrite app_String in Heq. injection Heq as _ Heq. by eapply IH.
Qed.

Lemma tight_app a mid b : a ≠ "" → b ≠ "" → tight a → tight b → tight (a +:+ mid +:+ b).
Proof.
  intros Ha Hb [Hfirst _] [_ Hlast]. split.
  - intros c rest Heq. destruct a as [|d a]; [done|].
    rewrite app_String in Heq. injection Heq as <- _. by eapply Hfirst.
  - intros c init Heq.
    assert (mid +:+ b ≠ "") as Hrest.
    { destruct mid; [by rewrite app_empty_l | by rewrite app_String]. }
    destruct (app_last _ _ _ _ Hrest Heq) as [init' Hinit].
    destruct (app_last _ _ _ _ Hb Hinit) as [init'' Hinit']. by eapply Hlast.
Qed.

Lemma mapM_length {A B} (f : A → result B) l ys :
  mapM f l = Ok ys → length ys = length l.
Proof. intros Hl%mapM_Forall2. symmetry. by eapply Forall2_length. Qed.

Lemma filter_truthy_lines (l : list value) :
  Forall (λ v, v = Null ∨ ∃ t, v = Str t ∧ (t ≠ "" → tight t)) l →
  Forall text_line (List.filter truthy l).
Proof.
  induction 1 as [|v l Hv _ IH]; simpl; [constructor|].
  destruct Hv as [->|(t & -> & Ht)]; simpl; [done|].
  destruct (String.eqb_spec t "") as [->|Hne]; simpl; [done|].
  constructor; [|done]. exists t. auto.
Qed.

Lemma filter_length_le {A} (f : A → bool) l : length (List.filter f l) <= length l.
Proof. induction l as [|x l IH]; simpl; [done|]. destruct (f x); simpl; lia. Qed.

(** X9: for a meal of TheMealDB [normalizeMealIngredients] returns at most 20
    lines, each a string that is not empty and has no white space at its
    ends. *)
Theorem mealdb_ingredient_lines meal source lines :
  is_text source "spoonacular" = false →
  normalizeMealIngredients meal source = Ok lines →
  length lines <= 20 ∧ Forall text_line lines.
Proof.
  intros Hsource. unfold normalizeMealIngredients. rewrite Hsource.
  destruct (mapM _ (seq 0 20)) as [mapped|] eqn:Hmapped; [|done]. simpl.
  intros [= <-]. split.
  - etrans; [apply filter_length_le|]. by rewrite (mapM_length _ _ _ Hmapped).
  - apply filter_truthy_lines. apply mapM_Forall2 in Hmapped.
    induction Hmapped as [|index line indices mapped Hline _ IH]; constructor; [|done].
    unfold mbind, fmap, result_bind, result_fmap in Hline.
    destruct (truthy (member_opt meal _)); simpl in Hline;
      [|injection Hline as <-; by left].
    destruct (string_of _ "trim" _) as [name|]; [|done].
    destruct (String.eqb_spec (trim name) "") as [|Hname];
      [injection Hline as <-; by left|].
    destruct (nullish _); simpl in Hline.
    { injection Hline as <-. right. eexists. split; [done|]. intros _. apply tight_trim. }
    destruct (string_of _ "trim" _) as [quantity|]; [|done]. simpl in Hline.
    destruct (String.eqb_spec (trim quantity) "") as [|Hquantity]; simpl in Hline;
      injection Hline as <-; right; (eexists; split; [done|]); intros _.
    + apply tight_trim.
    + apply tight_app; try done; apply tight_trim.
Qed.

Lemma mealdb_ingredient_lines_witness :
  length [Str "1 pound penne rigate"; Str "1/4 cup olive oil"] <= 20
  ∧ Forall text_line [Str "1 pound penne rigate"; Str "1/4 cup olive oil"].
Proof. apply (mealdb_ingredient_lines arrabiata (Str "mealdb")); reflexivity. Defined.

Lemma line_pieces_free s :
  (line_feed ∉ chars (line_pieces s).1)
  ∧ Forall (λ p, line_feed ∉ chars p) (line_pieces s).2.
Proof.
  induction s as [|c s [Hpiece Hmore]]; simpl.
  - split; [by intros ?%elem_of_nil | constructor].
  - destruct (line_pieces s) as [piece more]. simpl in *.
    destruct (Ascii.eqb_spec c "010") as [->|Hlf]; simpl.
    { split; [by intros ?%elem_of_nil | by constructor]. }
    assert (line_feed ∉ chars (String c piece)) as Hkept.
    { simpl. rewrite not_elem_of_cons. split; [|done]. intros Heq. by apply Hlf. }
    destruct (Ascii.eqb c "013"); [|done].
    destruct s as [|d s]; [done|].
    destruct d as [[] [] [] [] [] [] [] []]; try done.
    split; [by intros ?%elem_of_nil | done].
Qed.

Lemma split_lines_free s : Forall (λ p, line_feed ∉ chars p) (split_lines s).
Proof.
  unfold split_lines. destruct (line_pieces_free s) as [Hpiece Hmore].
  destruct (line_pieces s). by constructor.
Qed.

Lemma trimStart_chars s c : c ∈ chars (trimStart s) → c ∈ chars s.
Proof.
  destruct (trimStart_spec s) as (before & Heq & _). intros Hc.
  rewrite Heq, chars_app. apply elem_of_app. by right.
Qed.

Lemma trim_chars s c : c ∈ chars (trim s) → c ∈ chars s.
Proof.
  destruct (trim_spec s) as (before & after & Heq & _). intros Hc.
  rewrite Heq, !chars_app, !elem_of_app. auto.
Qed.

Lemma skip_digits_chars s c : c ∈ chars (skip_digits s) → c ∈ chars s.
Proof.
  induction s as [|d s IH]; [done|]. simpl.
  destruct (is_digit d); [|done]. intros Hc. right. by apply IH.
Qed.

Lemma strip_step_number_chars s c : c ∈ chars (strip_step_number s) → c ∈ chars s.
Proof.
  unfold strip_step_number. destruct s as [|d s]; [done|].
  destruct (is_digit d) eqn:Hd; [|done].
  destruct (skip_digits (String d s)) as [|e rest] eqn:Hskip; [done|].
  destruct (Ascii.eqb_spec e ".") as [->|Hne].
  - intros Hc%trimStart_chars. apply skip_digits_chars. rewrite Hskip. by right.
  - destruct e as [[] [] [] [] [] [] [] []]; done.
Qed.

Lemma filter_truthy_one_line (f : string → string) (l : list string) :
  Forall (λ p, line_feed ∉ chars p) l →
  (∀ p c, c ∈ chars (f p) → c ∈ chars p) →
  (∀ p, tight (f p)) →
  Forall one_line (List.filter truthy ((λ line, Str (f line)) <$> l)).
Proof.
  intros Hl Hchars Htight. induction Hl as [|p l Hp _ IH]; simpl; [constructor|].
  destruct (String.eqb_spec (f p) "") as [|Hne]; simpl; [done|].
  constructor; [|done]. exists (f p). split; [done|]. split; [done|].
  split; [done|]. intros Hc. by apply Hp, Hchars.
Qed.

(** X10: for a meal of TheMealDB every step that [normalizeMealSteps] returns
    is a string that is not empty, without white space at its ends and
    without a line feed. *)
Theorem mealdb_step_lines meal source steps :
  is_text source "spoonacular" = false →
  normalizeMealSteps meal source = Ok steps →
  Forall one_line steps.
Proof.
  intros Hsource. unfold normalizeMealSteps. rewrite Hsource.
  destruct (negb _); [intros [= <-]; constructor|].
  destruct (string_of _ "split" _) as [instructions|]; [|done]. simpl.
  intros [= <-].
  apply (filter_truthy_one_line (λ line, trim (strip_step_number line))).
  - apply split_lines_free.
  - intros p c Hc%trim_chars. by apply strip_step_number_chars.
  - intros p. apply tight_trim.
Qed.

Lemma mealdb_step_lines_witness :
  Forall one_line [Str "Boil the penne. 2. Stir in the sauce."].
Proof. apply (mealdb_step_lines arrabiata (Str "mealdb")); reflexivity. Defined.

End lines.

(** ** More on the match score *)

Section score_more.
Import Frontend.

Local Open Scope Q_scope.

Lemma nearest_double_eq x y : x == y → nearest_double x == nearest_double y.
Proof.
  intros Hxy. apply Qle_antisym; apply nearest_double_le; rewrite Hxy; apply Qle_refl.
Qed.

Lemma number_of_pos n : n ≠ 0%nat → 0 < number_of n.
Proof.
  intros Hn. unfold number_of. change 0 with (inject_Z 0). rewrite <- Zlt_Qlt. lia.
Qed.

Lemma number_of_nonneg n : 0 <= number_of n.
Proof. unfold number_of. change 0 with (inject_Z 0). rewrite <- Zle_Qle. lia. Qed.

Lemma number_of_le n m : (n <= m)%nat → number_of n <= number_of m.
Proof. intros Hnm. unfold number_of. rewrite <- Zle_Qle. lia. Qed.

Lemma number_of_plus n m : number_of (n + m) == number_of n + number_of m.
Proof. unfold number_of. by rewrite Nat2Z.inj_add, inject_Z_plus. Qed.

(** The score in terms of the two counts. *)
Lemma getMatchScore_counts c ignored :
  let used := count_kept ignored (usedIngredients c) in
  let missed := count_kept ignored (missedIngredients c) in
  getMatchScore c ignored
  = Some (if Nat.eqb (used + missed) 0 then 0%Z
          else Math_round
                 (times (nearest_double (number_of used / number_of (used + missed))) 100)).
Proof.
  intros used missed. unfold getMatchScore. fold used missed.
  destruct (Nat.eqb_spec (used + missed) 0) as [|Hsome]; [done|].
  rewrite divide_returns; [done|].
  pose proof (number_of_pos _ Hsome). lra.
Qed.

Lemma Math_round_le x y : x <= y → (Math_round x <= Math_round y)%Z.
Proof. intros Hxy. unfold Math_round. apply Qfloor_resp_le. lra. Qed.

Lemma Math_round_eq x y : x == y → Math_round x = Math_round y.
Proof. intros Hxy. unfold Math_round. apply Qfloor_comp. lra. Qed.

Lemma score_of_ratio_le x y :
  x <= y → (Math_round (times (nearest_double x) 100)
            <= Math_round (times (nearest_double y) 100))%Z.
Proof.
  intros Hxy. apply Math_round_le. unfold times. apply nearest_double_le.
  pose proof (nearest_double_le x y Hxy). lra.
Qed.

Lemma score_of_ratio_eq x y :
  x == y → Math_round (times (nearest_double x) 100)
           = Math_round (times (nearest_double y) 100).
Proof.
  intros Hxy. apply Z.le_antisymm; apply score_of_ratio_le; rewrite Hxy; apply Qle_refl.
Qed.

Lemma score_of_0 : Math_round (times (nearest_double 0) 100) = 0%Z.
Proof. vm_compute. reflexivity. Qed.

Lemma score_of_1 : Math_round (times (nearest_double 1) 100) = 100%Z.
Proof. vm_compute. reflexivity. Qed.

Lemma score_of_ratio_nonneg x :
  0 <= x → (0 <= Math_round (times (nearest_double x) 100))%Z.
Proof.
  intros Hx. etrans; [apply Z.eq_le_incl; symmetry; apply score_of_0|].
  by apply score_of_ratio_le.
Qed.

(** X11: a card with no counted ingredient at hand scores 0, and a card with
    counted ingredients at hand and none missing scores 100. *)
Theorem getMatchScore_extremes (c : card) (ignored : gset string) :
  (count_kept ignored (usedIngredients c) = 0%nat → getMatchScore c ignored = Some 0%Z)
  ∧ (count_kept ignored (missedIngredients c) = 0%nat →
     count_kept ignored (usedIngredients c) ≠ 0%nat →
     getMatchScore c ignored = Some 100%Z).
Proof.
  rewrite getMatchScore_counts.
  set (used := count_kept ignored (usedIngredients c)).
  set (missed := count_kept ignored (missedIngredients c)).
  split.
  - intros ->. by destruct (Nat.eqb_spec (0 + missed) 0).
  - intros -> Hused. rewrite Nat.add_0_r.
    destruct (Nat.eqb_spec used 0) as [|_]; [done|].
    f_equal. etrans; [|apply score_of_1]. apply score_of_ratio_eq.
    pose proof (number_of_pos _ Hused). field. lra.
Qed.

(** X12: more counted ingredients at hand and fewer missing never lower the
    score. *)
Theorem getMatchScore_monotone (c c' : card) (ignored ignored' : gset string) :
  (count_kept ignored (usedIngredients c) <= count_kept ignored' (usedIngredients c'))%nat →
  (count_kept ignored' (missedIngredients c') <= count_kept ignored (missedIngredients c))%nat →
  ∃ score score',
    getMatchScore c ignored = Some score
    ∧ getMatchScore c' ignored' = Some score'
    ∧ (score <= score')%Z.
Proof.
  rewrite !getMatchScore_counts.
  set (u := count_kept ignored (usedIngredients c)).
  set (m := count_kept ignored (missedIngredients c)).
  set (u' := count_kept ignored' (usedIngredients c')).
  set (m' := count_kept ignored' (missedIngredients c')).
  intros Hu Hm. eexists _, _. split; [done|]. split; [done|].
  destruct (Nat.eqb_spec (u + m) 0) as [Hzero|Hsome].
  - destruct (Nat.eqb_spec (u' + m') 0) as [|Hsome']; [done|].
    apply score_of_ratio_nonneg. apply Qle_shift_div_l; [by apply number_of_pos|].
    pose proof (number_of_nonneg u'). lra.
  - destruct (Nat.eqb_spec (u' + m') 0) as [Hzero'|Hsome'].
    + assert (u = 0%nat) as -> by lia. done.
    + apply score_of_ratio_le.
      pose proof (number_of_pos _ Hsome) as Ht. pose proof (number_of_pos _ Hsome') as Ht'.
      apply Qle_shift_div_l; [done|].
      assert (number_of u / number_of (u + m) * number_of (u' + m')
              == number_of u * number_of (u' + m') / number_of (u + m)) as ->
        by (field; lra).
      apply Qle_shift_div_r; [done|].
      rewrite !number_of_plus.
      pose proof (number_of_le _ _ Hu). pose proof (number_of_le _ _ Hm).
      pose proof (number_of_nonneg u). pose proof (number_of_nonneg m').
      nra.
Qed.

Lemma getMatchScore_monotone_witness :
  ∃ score score',
    getMatchScore (card_with 1 2) ∅ = Some score
    ∧ getMatchScore (card_with 2 1) ∅ = Some score'
    ∧ (score <= score')%Z.
Proof.
  apply (getMatchScore_monotone (card_with 1 2) (card_with 2 1) ∅ ∅); vm_compute; lia.
Defined.

(** The nearest integer is within a half. *)
Lemma nearest_even_near y :
  y - (1 # 2) <= inject_Z (nearest_even y) ∧ inject_Z (nearest_even y) <= y + (1 # 2).
Proof.
  pose proof (Qfloor_le y) as Hlow. pose proof (Qlt_floor y) as Hhigh.
  rewrite inject_Z_plus in Hhigh. change (inject_Z 1) with 1 in Hhigh.
  unfold nearest_even.
  destruct (Qcompare_spec (y - inject_Z (Qfloor y)) (1 # 2)) as [Heq|Hlt|Hgt].
  - destruct (Z.even (Qfloor y)).
    + split; lra.
    + rewrite inject_Z_plus. change (inject_Z 1) with 1. split; lra.
  - split; lra.
  - rewrite inject_Z_plus. change (inject_Z 1) with 1. split; lra.
Qed.

Lemma pow2_53 : 2 ^ (-53) == epsilon.
Proof. vm_compute. reflexivity. Qed.

Lemma nearest_double_pos_near x :
  0 < x →
  x - x * epsilon <= nearest_double_pos x ∧ nearest_double_pos x <= x + x * epsilon.
Proof.
  intros Hx. destruct (exponent_spec x Hx) as [Hlow _].
  unfold nearest_double_pos. set (e := exponent x) in *.
  pose proof (pow2_pos (e - 52)) as Hback.
  destruct (nearest_even_near (x * 2 ^ (52 - e))) as [Hdown Hup].
  assert (x * 2 ^ (52 - e) * 2 ^ (e - 52) == x) as Hscale.
  { rewrite <- Qmult_assoc, <- pow2_plus.
    replace (52 - e + (e - 52))%Z with 0%Z by lia. simpl. lra. }
  assert ((1 # 2) * 2 ^ (e - 52) <= x * epsilon) as Hhalf.
  { rewrite <- pow2_53.
    assert ((1 # 2) * 2 ^ (e - 52) == 2 ^ e * 2 ^ (-53)) as ->.
    { rewrite <- pow2_plus. replace (e + -53)%Z with (-1 + (e - 52))%Z by lia.
      rewrite pow2_plus. reflexivity. }
    apply Qmult_le_r; [apply pow2_pos | exact Hlow]. }
  set (n := inject_Z (nearest_even (x * 2 ^ (52 - e)))) in *.
  set (b := 2 ^ (e - 52)) in *. set (y := x * 2 ^ (52 - e)) in *.
  split; nra.
Qed.

Lemma nearest_double_near x :
  0 <= x → x - x * epsilon <= nearest_double x ∧ nearest_double x <= x + x * epsilon.
Proof.
  intros Hx. unfold nearest_double.
  destruct (Qcompare_spec x 0) as [Hzero|Hneg|Hpos]; [|lra|].
  - rewrite Hzero. split; unfold epsilon; lra.
  - by apply nearest_double_pos_near.
Qed.

(** X13: the score is the exact percentage rounded to an integer next to it:
    it lies between the floor and the ceiling of the percentage, so it is the
    percentage itself when that is an integer, and within a half plus 2^-45
    of it; the two roundings of the doubles cost no more than that. *)
Theorem getMatchScore_near_percentage (c : card) (ignored : gset string)
    (used missed : nat) :
  count_kept ignored (usedIngredients c) = used →
  count_kept ignored (missedIngredients c) = missed →
  (used + missed)%nat ≠ 0%nat →
  ∃ score : Z,
    getMatchScore c ignored = Some score
    ∧ (Qfloor (percentage used missed) <= score)%Z
    ∧ (score <= Qceiling (percentage used missed))%Z
    ∧ percentage used missed - (1 # 2) - (1 # 2 ^ 45) <= inject_Z score
    ∧ inject_Z score <= percentage used missed + (1 # 2) + (1 # 2 ^ 45).
Proof.
  intros Hused Hmissed Hsome. rewrite getMatchScore_counts, Hused, Hmissed.
  destruct (Nat.eqb_spec (used + missed) 0) as [|_]; [done|].
  eexists. split; [done|].
  set (x := number_of used / number_of (used + missed)).
  assert (0 <= x <= 1) as [Hx0 Hx1] by (apply ratio_unit; [lia | done]).
  assert (percentage used missed == 100 * x) as Hpercent.
  { unfold percentage, x. pose proof (number_of_pos _ Hsome). field. lra. }
  destruct (nearest_double_near x Hx0) as [Hr_low Hr_high].
  destruct (nearest_double_unit x (conj Hx0 Hx1)) as [Hr0 Hr1].
  set (r := nearest_double x) in *.
  assert (0 <= r * 100) as Hp0 by lra.
  destruct (nearest_double_near (r * 100) Hp0) as [Hp_low Hp_high].
  unfold times, Math_round. set (p := nearest_double (r * 100)) in *.
  assert (100 * x - (1 # 2 ^ 45) <= p ∧ p <= 100 * x + (1 # 2 ^ 45)) as [Hlow Hhigh].
  { unfold epsilon in *. change (2 ^ 45)%positive with 35184372088832%positive.
    split; lra. }
  pose proof (Qfloor_le (p + (1 # 2))) as Hfloor_le.
  pose proof (Qlt_floor (p + (1 # 2))) as Hfloor_lt.
  rewrite inject_Z_plus in Hfloor_lt. change (inject_Z 1) with 1 in Hfloor_lt.
  change (2 ^ 45)%positive with 35184372088832%positive in *.
  split; [|split; [|split]].
  - rewrite Hpercent. apply Qfloor_resp_le. lra.
  - pose proof (Qle_ceiling (percentage used missed)) as Hceiling.
    rewrite Hpercent in Hceiling at 1.
    assert (inject_Z (Qfloor (p + (1 # 2)))
            < inject_Z (Qceiling (percentage used missed) + 1)) as Hlt.
    { rewrite inject_Z_plus. change (inject_Z 1) with 1. lra. }
    rewrite <- Zlt_Qlt in Hlt. lia.
  - rewrite Hpercent. lra.
  - rewrite Hpercent. lra.
Qed.

Lemma getMatchScore_near_percentage_witness :
  ∃ score : Z,
    getMatchScore (card_with 29 171) ∅ = Some score
    ∧ (Qfloor (percentage 29 171) <= score)%Z
    ∧ (score <= Qceiling (percentage 29 171))%Z
    ∧ percentage 29 171 - (1 # 2) - (1 # 2 ^ 45) <= inject_Z score
    ∧ inject_Z score <= percentage 29 171 + (1 # 2) + (1 # 2 ^ 45).
Proof.
  apply (getMatchScore_near_percentage (card_with 29 171) ∅ 29 171);
    [vm_compute; reflexivity | vm_compute; reflexivity | discriminate].
Defined.

End score_more.

(** ** The order of the cards *)

Section sorting.
Import Frontend Cards.

Local Open Scope Q_scope.

Lemma nearest_double_sign x : 0 < nearest_double x ↔ 0 < x.
Proof.
  split.
  - intros Hpos. destruct (Qlt_le_dec 0 x) as [|Hle]; [done|].
    pose proof (nearest_double_le x 0 Hle) as Hnd. rewrite nearest_double_0 in Hnd. lra.
  - intros Hx. unfold nearest_double.
    destruct (Qcompare_spec x 0) as [|?|_]; [lra | lra |].
    destruct (nearest_double_pos_binade x Hx) as [Hlow _].
    pose proof (pow2_pos (exponent x)). lra.
Qed.

Lemma subtract_sign (x y : Q) : negb (Qle_bool (subtract x y) 0) = true ↔ y < x.
Proof.
  rewrite negb_true_iff, <- not_true_iff_false, Qle_bool_iff.
  unfold subtract. split.
  - intros Hnot. apply Qnot_le_lt in Hnot.
    apply (proj1 (nearest_double_sign _)) in Hnot. lra.
  - intros Hlt. apply Qlt_not_le. apply (proj2 (nearest_double_sign _)). lra.
Qed.

Section keyed.
Context {A : Type} (comparefn : A → A → option Q) (key : A → Q).
Hypothesis consistent : ∀ x y, behind comparefn x y = true ↔ key y < key x.

Lemma place_Permutation x l : place comparefn x l ≡ₚ x :: l.
Proof.
  induction l as [|y l IH]; [done|]. simpl.
  destruct (behind comparefn x y); [|done]. rewrite IH. apply Permutation_swap.
Qed.

Lemma Array_sort_Permutation l : Array_sort comparefn l ≡ₚ l.
Proof.
  induction l as [|x l IH]; [done|]. simpl. rewrite place_Permutation. by f_equiv.
Qed.

Lemma place_sorted x l :
  StronglySorted (λ a b, key a <= key b) l →
  StronglySorted (λ a b, key a <= key b) (place comparefn x l).
Proof.
  induction 1 as [|y l Hl IH Hy]; simpl; [by repeat constructor|].
  destruct (behind comparefn x y) eqn:Hbehind.
  - apply consistent in Hbehind. constructor; [done|].
    rewrite place_Permutation. constructor; [lra | done].
  - constructor; [by constructor|].
    assert (key x <= key y) as Hxy.
    { apply Qnot_lt_le. intros Hlt. apply consistent in Hlt. congruence. }
    constructor; [done|]. eapply Forall_impl; [done|]. intros z Hz. simpl in Hz. lra.
Qed.

Lemma Array_sort_sorted l : StronglySorted (λ a b, key a <= key b) (Array_sort comparefn l).
Proof. induction l as [|x l IH]; [constructor|]. by apply place_sorted. Qed.

Lemma place_stable q x l :
  List.filter (λ a, Qeq_bool (key a) q) (place comparefn x l)
  = List.filter (λ a, Qeq_bool (key a) q) (x :: l).
Proof.
  induction l as [|y l IH]; [done|]. simpl place.
  destruct (behind comparefn x y) eqn:Hbehind; [|done].
  apply consistent in Hbehind.
  change (List.filter ?f (y :: ?l)) with (if f y then y :: List.filter f l else List.filter f l).
  rewrite IH. simpl.
  destruct (Qeq_bool (key x) q) eqn:Hx, (Qeq_bool (key y) q) eqn:Hy; try done.
  apply Qeq_bool_iff in Hx, Hy. lra.
Qed.

Lemma Array_sort_stable q l :
  List.filter (λ a, Qeq_bool (key a) q) (Array_sort comparefn l)
  = List.filter (λ a, Qeq_bool (key a) q) l.
Proof.
  induction l as [|x l IH]; [done|]. simpl Array_sort. rewrite place_stable. simpl.
  by rewrite IH.
Qed.

End keyed.

Lemma score_returns c ignored :
  ∃ score, getMatchScore c ignored = Some score.
Proof. rewrite getMatchScore_counts. by eexists. Qed.

(** X14: [sortCards] returns the cards it was given, rearranged: for the
    options [missing], [used], [match] and [prep] in ascending order of the
    rank of the option (fewest missing, most at hand, highest score, shortest
    time, a card without a time last), cards of equal rank in their former
    order; for any other option, [relevance] included, as they were. *)
Theorem sortCards_order (sortOption : string) (ignoreSpices : bool)
    (cards : list recipe_card) :
  let sorted := sortCards sortOption ignoreSpices cards in
  let key := rank sortOption (ignoredSpices ignoreSpices) in
  sorted ≡ₚ cards
  ∧ StronglySorted (λ a b, key a <= key b) sorted
  ∧ (∀ q, List.filter (λ c, Qeq_bool (key c) q) sorted
          = List.filter (λ c, Qeq_bool (key c) q) cards)
  ∧ (sortOption ∉ ["missing"; "used"; "match"; "prep"] → sorted = cards).
Proof.
  unfold sortCards, rank. fold (ignoredSpices ignoreSpices).
  set (ignored := ignoredSpices ignoreSpices).
  destruct (String.eqb_spec sortOption "relevance") as [->|_].
  { simpl. split; [done|]. split; [|done].
    induction cards as [|c cards IH]; constructor; [done|].
    apply Forall_forall. intros ? _. apply Qle_refl. }
  destruct (String.eqb_spec sortOption "missing") as [->|_].
  { assert (∀ x y : recipe_card,
      behind (λ a b, Some (subtract
                (number_of (count_kept ignored (missedIngredients (listed a))))
                (number_of (count_kept ignored (missedIngredients (listed b)))))) x y = true
      ↔ number_of (count_kept ignored (missedIngredients (listed y)))
        < number_of (count_kept ignored (missedIngredients (listed x)))) as Hkey.
    { intros x y. unfold behind. apply subtract_sign. }
    split; [apply Array_sort_Permutation|].
    split; [by apply Array_sort_sorted|]. split; [|set_solver].
    intros q. by apply Array_sort_stable. }
  destruct (String.eqb_spec sortOption "used") as [->|_].
  { assert (∀ x y : recipe_card,
      behind (λ a b, Some (subtract
                (number_of (count_kept ignored (usedIngredients (listed b))))
                (number_of (count_kept ignored (usedIngredients (listed a)))))) x y = true
      ↔ - number_of (count_kept ignored (usedIngredients (listed y)))
        < - number_of (count_kept ignored (usedIngredients (listed x)))) as Hkey.
    { intros x y. unfold behind. rewrite subtract_sign. split; lra. }
    split; [apply Array_sort_Permutation|].
    split; [by apply (Array_sort_sorted _ _ Hkey)|]. split; [|set_solver].
    intros q. by apply (Array_sort_stable _ _ Hkey). }
  destruct (String.eqb_spec sortOption "match") as [->|_].
  { assert (∀ x y : recipe_card,
      behind (λ a b, scoreB ← getMatchScore (listed b) ignored;
                     scoreA ← getMatchScore (listed a) ignored;
                     Some (subtract (inject_Z scoreB) (inject_Z scoreA))) x y = true
      ↔ - inject_Z (default 0%Z (getMatchScore (listed y) ignored))
        < - inject_Z (default 0%Z (getMatchScore (listed x) ignored))) as Hkey.
    { intros x y. unfold behind.
      destruct (score_returns (listed x) ignored) as [sx ->].
      destruct (score_returns (listed y) ignored) as [sy ->]. simpl.
      rewrite subtract_sign. split; lra. }
    split; [apply Array_sort_Permutation|].
    split; [by apply (Array_sort_sorted _ _ Hkey)|]. split; [|set_solver].
    intros q. by apply (Array_sort_stable _ _ Hkey). }
  destruct (String.eqb_spec sortOption "prep") as [->|_].
  { assert (∀ x y : recipe_card,
      behind (λ a b, Some (subtract (default MAX_SAFE_INTEGER (readyInMinutes a))
                             (default MAX_SAFE_INTEGER (readyInMinutes b)))) x y = true
      ↔ default MAX_SAFE_INTEGER (readyInMinutes y)
        < default MAX_SAFE_INTEGER (readyInMinutes x)) as Hkey.
    { intros x y. unfold behind. apply subtract_sign. }
    split; [apply Array_sort_Permutation|].
    split; [by apply (Array_sort_sorted _ _ Hkey)|]. split; [|set_solver].
    intros q. by apply (Array_sort_stable _ _ Hkey). }
  split; [done|]. split; [|done].
  induction cards as [|c cards IH]; constructor; [done|].
  apply Forall_forall. intros ? _. apply Qle_refl.
Qed.

End sorting.

(** ** The favorites and the pantry on the device *)

Section saved.
Import Frontend Pages.

Lemma toSummary_source data source s :
  toSummary data source = Some s →
  ptruthy (s_source s) = true
  ∧ normalizeFavorite (Some s)
    = if ptruthy (s_id s)
      then Some {| id := s_id s; title := s_title s; image := s_image s;
                   source := s_source s; sourceUrl := por_else (s_sourceUrl s) (PStr "");
                   _supabaseId := PUndefined |}
      else None.
Proof.
  unfold toSummary. destruct data as [data|]; [|done].
  destruct (prim_is source "spoonacular") eqn:Hsource; intros [= <-]; simpl.
  - destruct source as [| | | |t]; try done. simpl in Hsource.
    apply String.eqb_eq in Hsource as ->. split; [done|].
    by destruct (ptruthy (s_id data)).
  - split; [done|]. by destruct (ptruthy (idMeal data)).
Qed.

(** X15: on the device, for the summary that the detail page makes of its
    meal.  When the id of the summary counts as true, a toggle flips whether
    the key of the summary is among the saved keys, which is what the page
    shows; when it does not, a toggle changes nothing, in either mode. *)
Theorem favorite_indicator data source s c st :
  toSummary data source = Some s →
  if ptruthy (s_id s) then
    buildSummaryKey s ∈ favoriteIds (favorites (toggleFavorite None (Some s) c st))
    ↔ buildSummaryKey s ∉ favoriteIds (favorites st)
  else ∀ user, toggleFavorite user (Some s) c st = st.
Proof.
  intros [Hsource Hn]%toSummary_source.
  destruct (ptruthy (s_id s)) eqn:Hid.
  - set (n := {| id := s_id s; title := s_title s; image := s_image s;
                 source := s_source s; sourceUrl := por_else (s_sourceUrl s) (PStr "");
                 _supabaseId := PUndefined |}) in *.
    assert (buildFavoriteKey n = buildSummaryKey s) as Hkey by done.
    rewrite <- Hkey.
    destruct (decide (buildFavoriteKey n ∈ keys (favorites st))) as [Hk|Hk].
    + rewrite (toggle_local_present _ _ _ _ Hn Hk), favoriteIds_without.
      rewrite <- favoriteIds_elem in Hk. set_solver.
    + rewrite (toggle_local_absent _ _ _ _ Hn Hk), favoriteIds_snoc.
      rewrite <- favoriteIds_elem in Hk. set_solver.
  - intros user. unfold toggleFavorite. by rewrite Hn.
Qed.

Lemma favorite_indicator_witness :
  buildSummaryKey penne_summary
    ∈ favoriteIds (favorites (toggleFavorite None (Some penne_summary) (goes_through "")
                                nothing_saved))
  ↔ buildSummaryKey penne_summary ∉ favoriteIds (favorites nothing_saved).
Proof.
  apply (favorite_indicator (Some penne_meal) (PStr "mealdb") penne_summary). reflexivity.
Defined.

Lemma normalizeFavorite_shape item n :
  normalizeFavorite item = Some n →
  ptruthy (source n) = true
  ∧ por_else (sourceUrl n) (PStr "") = sourceUrl n
  ∧ _supabaseId n = PUndefined.
Proof.
  unfold normalizeFavorite. destruct item as [item|]; [|done].
  destruct (ptruthy (s_source item) && ptruthy (s_id item)) eqn:Hfirst.
  - intros [= <-]. simpl. apply andb_true_iff in Hfirst as [-> _].
    split; [done|]. split; [|done]. unfold por_else.
    destruct (ptruthy (s_sourceUrl item)) eqn:Hu; [by rewrite Hu | done].
  - destruct (ptruthy (idMeal item) || ptruthy (strMeal item)); [|done].
    intros [= <-]. simpl. split; [done|]. split; [|done]. unfold por_else.
    destruct (ptruthy (strSource item)) eqn:Hs; [by rewrite Hs|].
    destruct (ptruthy (strYoutube item)) eqn:Hy; [by rewrite Hy | done].
Qed.

Lemma reload_one item n :
  normalizeFavorite item = Some n → JSON_safe n →
  normalizeFavorite (Some (stored n)) = if ptruthy (id n) then Some n else None.
Proof.
  intros (Hsource & Hurl & Hrow)%normalizeFavorite_shape Hsafe.
  unfold JSON_safe in Hsafe. rewrite !Forall_cons in Hsafe.
  destruct Hsafe as (Hi & Ht & Him & Hs & Hu & _).
  unfold normalizeFavorite, stored. simpl. rewrite Hi, Ht, Him, Hs, Hu, Hsource. simpl.
  destruct (ptruthy (id n)); [|done]. rewrite Hurl. destruct n. simpl in *. by subst.
Qed.

Lemma omap_length_le {A B} (g : A → option B) (l : list A) :
  length (omap g l) <= length l.
Proof. induction l as [|x l IH]; [done|]. csimpl. destruct (g x); simpl; lia. Qed.

Lemma omap_after_fmap {A B C} (f : A → B) (g : B → option C) (l : list A) :
  omap g (f <$> l) = omap (g ∘ f) l.
Proof. induction l as [|x l IH]; [done|]. csimpl. by rewrite IH. Qed.

Lemma omap_one {A B} (g : A → option B) (x : A) :
  omap g [x] = match g x with Some y => [y] | None => [] end.
Proof. reflexivity. Qed.

Lemma omap_filter_id {A} (g : A → option A) (P : A → Prop) `{∀ x, Decision (P x)}
    (l : list A) :
  omap g l = l → omap g (filter P l) = filter P l.
Proof.
  intros Hl.
  assert (Forall (λ x, g x = Some x) l) as Hall.
  { induction l as [|x l IH]; [constructor|]. csimpl in Hl.
    destruct (g x) as [y|] eqn:Hx.
    - injection Hl as -> Hl. constructor; [done | by apply IH].
    - pose proof (omap_length_le g l) as Hlen. rewrite Hl in Hlen. simpl in Hlen. lia. }
  clear Hl. induction Hall as [|x l Hx _ IH]; [done|].
  destruct (decide (P x)).
  - rewrite filter_cons_True by done. csimpl. by rewrite Hx, IH.
  - by rewrite filter_cons_False.
Qed.

(** X16: the favorites kept on the device survive a reload.  When the
    collection reads back as it was written, so does the collection after a
    toggle of a favorite whose id counts as true and whose fields JSON keeps;
    a favorite whose id does not count as true (a meal known by its name
    only) is dropped by the reload. *)
Theorem favorites_reload item n c st :
  normalizeFavorite item = Some n →
  JSON_safe n →
  loadFavorites (saveFavorites (favorites st)) = favorites st →
  (ptruthy (id n) = true →
   loadFavorites (saveFavorites (favorites (toggleFavorite None item c st)))
   = favorites (toggleFavorite None item c st))
  ∧ (ptruthy (id n) = false → loadFavorites (saveFavorites [n]) = []).
Proof.
  intros Hn Hsafe Hkept. pose proof (reload_one _ _ Hn Hsafe) as Hone. split.
  - intros Hid. rewrite Hid in Hone. rewrite (toggle_local _ _ _ _ Hn). simpl.
    unfold loadFavorites, saveFavorites in *. rewrite omap_after_fmap in *.
    destruct (existsb _ _).
    + by apply omap_filter_id.
    + rewrite omap_app, Hkept, omap_one. unfold compose. by rewrite Hone.
  - intros Hid. rewrite Hid in Hone. unfold loadFavorites, saveFavorites.
    rewrite omap_after_fmap, omap_one. unfold compose. by rewrite Hone.
Qed.

Lemma favorites_reload_witness :
  loadFavorites
    (saveFavorites (favorites (toggleFavorite None (Some penne) (goes_through "")
                                 nothing_saved)))
  = favorites (toggleFavorite None (Some penne) (goes_through "") nothing_saved).
Proof.
  apply (favorites_reload (Some penne)
           {| id := PStr "52771"; title := PStr "Spicy Arrabiata Penne";
              image := PUndefined; source := PStr "mealdb"; sourceUrl := PStr "";
              _supabaseId := PUndefined |});
    [reflexivity | by repeat constructor | reflexivity | reflexivity].
Defined.

(** X17: with a user signed in and the client in step with the hosted table,
    a toggle whose write is refused changes nothing, in the table or in the
    client. *)
Theorem toggle_failed_write uid item c st :
  synced (Some uid) st → write_error c = true → read_error c = false →
  toggleFavorite (Some uid) item c st = st.
Proof.
  intros (Hsync & _) Hwrite Hread. unfold toggleFavorite.
  destruct (normalizeFavorite item) as [n|]; [|done].
  rewrite Hwrite, Hread.
  assert (∀ found : option favorite,
            match found with
            | Some f => if ptruthy (_supabaseId f) then table st else table st
            | None => table st
            end = table st) as -> by (intros [f|]; [by destruct (ptruthy _) | done]).
  rewrite <- Hsync. by destruct st.
Qed.

Lemma toggle_failed_write_witness :
  toggleFavorite (Some "user-1") (Some penne)
    {| write_error := true; read_error := false; generated_id := "row-1" |} nothing_saved
  = nothing_saved.
Proof.
  apply toggle_failed_write; [|reflexivity | reflexivity].
  split; [reflexivity|]. split; [apply NoDup_nil_2 | constructor].
Defined.

End saved.

Section pantry.
Import Frontend Pages.

Lemma pantry_fold (prev : list string) (l : list string) :
  foldl (λ next token,
           if negb (String.eqb token "") && negb (bool_decide (token ∈ next))
           then next ++ [token] else next) prev l
  = foldl add_item prev (Some <$> l).
Proof.
  revert prev. induction l as [|t l IH]; intros prev; [done|]. csimpl.
  rewrite IH. f_equal. unfold set_add.
  destruct (String.eqb t ""); [done|]. simpl. by case_bool_decide.
Qed.

Lemma add_items_kept items (s : list string) t :
  t ∈ s → t ∈ foldl add_item s items.
Proof.
  revert s. induction items as [|item items IH]; intros s Ht; [done|]. simpl.
  apply IH. destruct item as [text|]; simpl; [|done].
  destruct (String.eqb text ""); [done|]. unfold set_add.
  case_bool_decide; [done|]. apply elem_of_app. by left.
Qed.

Lemma add_items_added items (s : list string) t :
  Some t ∈ items → t ≠ "" → t ∈ foldl add_item s items.
Proof.
  revert s. induction items as [|item items IH]; intros s Ht Hne;
    [by apply elem_of_nil in Ht|].
  simpl. apply elem_of_cons in Ht as [<-|Ht]; [|by apply IH].
  apply add_items_kept. simpl. apply String.eqb_neq in Hne. rewrite Hne.
  unfold set_add. case_bool_decide; [done|]. apply elem_of_app. right. by left.
Qed.

Lemma add_items_fixed items (s : list string) :
  (∀ t, Some t ∈ items → t ∈ s) → foldl add_item s items = s.
Proof.
  induction items as [|item items IH]; intros Hin; [done|]. simpl.
  assert (add_item s item = s) as ->.
  { destruct item as [text|]; simpl; [|done]. destruct (String.eqb text ""); [done|].
    unfold set_add. rewrite bool_decide_eq_true_2; [done|]. apply Hin. by left. }
  apply IH. intros t Ht. apply Hin. by right.
Qed.

Lemma tokens_split s : tokens s ≠ [] → split "," (join "," (tokens s)) = tokens s.
Proof.
  intros Hsome. apply split_join; [done|].
  eapply Forall_impl; [apply tokens_clean|]. by intros t (_ & _ & ?).
Qed.

(** With no user signed in, what [handleAddPantryItem] makes of the pantry. *)
Lemma handleAddPantryItem_local refreshed text prev :
  handleAddPantryItem None refreshed text prev
  = Ok (foldl add_item prev (Some <$> tokens text)).
Proof.
  unfold handleAddPantryItem. rewrite sanitizeIngredients_tokens. simpl.
  destruct (String.eqb_spec (join "," (tokens text)) "") as [Hempty|Hsome].
  - apply join_empty in Hempty as ->; [done|].
    eapply Forall_impl; [apply tokens_clean|]. by intros t [? _].
  - rewrite pantry_fold, tokens_split; [done|]. by intros Hnil; rewrite Hnil in Hsome.
Qed.

(** X18: with no user signed in, adding to a pantry without duplicates
    appends tokens that were not in it, each once, each not empty, without
    white space at its ends and without a comma; every token of the text is
    in the pantry afterwards, and adding the same text again changes
    nothing. *)
Theorem pantry_add refreshed text prev :
  NoDup prev →
  ∃ next added,
    handleAddPantryItem None refreshed text prev = Ok next
    ∧ next = prev ++ added
    ∧ NoDup next
    ∧ Forall (λ t, clean t ∧ t ∉ prev) added
    ∧ (∀ t, t ∈ tokens text → t ∈ next)
    ∧ handleAddPantryItem None refreshed text next = Ok next.
Proof.
  intros Hprev. rewrite handleAddPantryItem_local.
  destruct (add_items_spec (Some <$> tokens text) prev Hprev)
    as (Hnodup & added & Heq & Hadded).
  eexists _, added. split; [done|]. split; [done|]. split; [done|].
  assert (∀ t, t ∈ tokens text → clean t) as Hclean.
  { intros t Ht. by apply (proj1 (Forall_forall _ _) (tokens_clean text)). }
  split; [|split].
  - eapply Forall_impl; [done|]. intros t (Hnew & Ht & _). split; [|done].
    apply list_elem_of_fmap in Ht as (t' & [= <-] & Ht). by apply Hclean.
  - intros t Ht. apply add_items_added; [by apply list_elem_of_fmap_2|].
    by destruct (Hclean t Ht).
  - rewrite handleAddPantryItem_local. f_equal. apply add_items_fixed.
    intros t (t' & [= <-] & Ht)%list_elem_of_fmap.
    apply add_items_added; [by apply list_elem_of_fmap_2|]. by destruct (Hclean t Ht).
Qed.

Lemma pantry_add_witness :
  ∃ next added,
    handleAddPantryItem None None "salt, rice ,, oil" ["rice"] = Ok next
    ∧ next = ["rice"] ++ added
    ∧ NoDup next
    ∧ Forall (λ t, clean t ∧ t ∉ ["rice"]) added
    ∧ (∀ t, t ∈ tokens "salt, rice ,, oil" → t ∈ next)
    ∧ handleAddPantryItem None None "salt, rice ,, oil" next = Ok next.
Proof. apply pantry_add, NoDup_singleton. Defined.

(** X22: with no user signed in, an item that is clean and not in the pantry
    is appended by [handleAddPantryItem], and [handleRemovePantryItem] takes
    it out again, which gives the former pantry; removing an item that is not
    there changes nothing.  With a user signed in and the table not read,
    the item removed is still shown. *)
Theorem pantry_add_remove refreshed (item : string) (pantry : list string) :
  clean item → item ∉ pantry →
  handleAddPantryItem None refreshed item pantry = Ok (pantry ++ [item])
  ∧ handleRemovePantryItem None refreshed item (pantry ++ [item]) = pantry
  ∧ handleRemovePantryItem None refreshed item pantry = pantry
  ∧ ∀ user, handleRemovePantryItem (Some user) None item (pantry ++ [item])
            = pantry ++ [item].
Proof.
  intros Hclean Hnew.
  assert (filter (λ entry, entry ≠ item) pantry = pantry) as Hkept.
  { clear Hclean. induction pantry as [|x l IH]; [done|].
    apply not_elem_of_cons in Hnew as [Hne Hnew].
    rewrite filter_cons_True by done. by rewrite IH. }
  split; [|split; [|done]].
  - rewrite handleAddPantryItem_local.
    pose proof (tokens_join [item]) as Htokens.
    change (join "," [item]) with item in Htokens.
    rewrite Htokens by (by apply Forall_singleton).
    destruct Hclean as (Hne & _). apply String.eqb_neq in Hne. simpl. rewrite Hne.
    unfold set_add. by rewrite bool_decide_eq_false_2.
  - simpl. rewrite filter_app, Hkept, filter_cons_False by naive_solver.
    by rewrite filter_nil, app_nil_r.
Qed.

Lemma pantry_add_remove_witness :
  handleAddPantryItem None None "olive oil" ["rice"] = Ok (["rice"] ++ ["olive oil"])
  ∧ handleRemovePantryItem None None "olive oil" (["rice"] ++ ["olive oil"]) = ["rice"]
  ∧ handleRemovePantryItem None None "olive oil" ["rice"] = ["rice"]
  ∧ ∀ user, handleRemovePantryItem (Some user) None "olive oil" (["rice"] ++ ["olive oil"])
            = ["rice"] ++ ["olive oil"].
Proof.
  apply pantry_add_remove.
  - apply (Forall_inv (tokens_clean "olive oil")).
  - by intros [= ]%list_elem_of_singleton.
Defined.

Lemma pieces_other sep c s :
  c ≠ sep → pieces sep (String c s) = (String c (pieces sep s).1, (pieces sep s).2).
Proof.
  intros Hne. simpl. destruct (pieces sep s). by destruct (Ascii.eqb_spec c sep).
Qed.

Lemma trim_space s : trim (String " " s) = trim s.
Proof. reflexivity. Qed.

(** A pantry written into the ingredient field reads back, piece by piece. *)
Lemma trims_of_join l :
  l ≠ [] → Forall clean l → trim <$> split "," (join ", " l) = l.
Proof.
  intros Hl Hclean. induction Hclean as [|x l (Hne & Htight & Hfree) Hclean IH]; [done|].
  destruct l as [|y l].
  - unfold split. simpl join. rewrite (pieces_free _ _ Hfree). simpl.
    by rewrite (trim_tight _ Htight).
  - specialize (IH ltac:(done)).
    change (join ", " (x :: y :: l)) with (x +:+ ", " +:+ join ", " (y :: l)).
    unfold split in *. rewrite app_String, (pieces_app _ _ _ Hfree).
    change (" " +:+ join ", " (y :: l)) with (String " " (join ", " (y :: l))).
    rewrite pieces_other by done.
    destruct (pieces "," (join ", " (y :: l))) as [piece more]. csimpl in *.
    rewrite trim_space, (trim_tight _ Htight). by rewrite IH.
Qed.

(** X19: a pantry of clean entries written into the ingredient field is
    sanitized to its entries joined by commas, a text that the sanitizer of
    the backend keeps; read into an empty pantry, the field gives the pantry
    back. *)
Theorem pantry_to_search pantry ingredients :
  pantry ≠ [] → Forall clean pantry →
  sanitizeIngredients (Str (handleFillFromPantry pantry ingredients))
  = Ok (join "," pantry)
  ∧ Backend.sanitizeCsv (Str (join "," pantry)) = Ok (join "," pantry)
  ∧ (NoDup pantry →
     ∀ refreshed,
       handleAddPantryItem None refreshed (handleFillFromPantry pantry ingredients) []
       = Ok pantry).
Proof.
  intros Hsome Hclean. unfold handleFillFromPantry.
  rewrite bool_decide_eq_false_2 by done.
  assert (tokens (join ", " pantry) = pantry) as Htokens.
  { unfold tokens. rewrite (trims_of_join _ Hsome Hclean).
    clear Hsome. induction Hclean as [|t l (Hne & _) _ IH]; [done|].
    rewrite filter_cons_True by done. by rewrite IH. }
  split; [by rewrite sanitizeIngredients_tokens, Htokens|].
  split; [by rewrite sanitizeCsv_tokens, tokens_join|].
  intros Hnodup refreshed. rewrite handleAddPantryItem_local, Htokens. f_equal.
  clear Hsome Htokens. revert Hnodup Hclean.
  assert (∀ acc, NoDup (acc ++ pantry) → Forall clean pantry →
            foldl add_item acc (Some <$> pantry) = acc ++ pantry) as Hgen.
  { induction pantry as [|t l IH]; intros acc Hacc Hall; [by rewrite app_nil_r|].
    apply Forall_cons in Hall as [(Hne & _) Hall]. csimpl.
    apply String.eqb_neq in Hne. rewrite Hne. unfold set_add.
    rewrite bool_decide_eq_false_2.
    - rewrite IH; [by rewrite <- (assoc_L (++)) | by rewrite <- (assoc_L (++)) | done].
    - apply NoDup_app in Hacc as (_ & Hdisjoint & _). intros Hin.
      apply (Hdisjoint t Hin). by left. }
  intros Hnodup Hall. by apply (Hgen []).
Qed.

Lemma pantry_to_search_witness :
  sanitizeIngredients (Str (handleFillFromPantry ["rice"; "olive oil"] ""))
  = Ok (join "," ["rice"; "olive oil"])
  ∧ Backend.sanitizeCsv (Str (join "," ["rice"; "olive oil"]))
    = Ok (join "," ["rice"; "olive oil"])
  ∧ (NoDup ["rice"; "olive oil"] →
     ∀ refreshed,
       handleAddPantryItem None refreshed (handleFillFromPantry ["rice"; "olive oil"] "") []
       = Ok ["rice"; "olive oil"]).
Proof.
  apply pantry_to_search; [discriminate|].
  apply (tokens_clean "rice, olive oil").
Defined.

End pantry.

(** ** Markup and substitutions *)

Section texts.
Import Texts.

Lemma has_gt_spec s : has_gt s = true ↔ (">" : ascii) ∈ chars s.
Proof.
  induction s as [|c s IH]; simpl.
  - split; [done | by intros ?%elem_of_nil].
  - rewrite orb_true_iff, IH, elem_of_cons.
    destruct (Ascii.eqb_spec c ">") as [->|Hne]; naive_solver.
Qed.

Lemma tag_free_no_gt s : (">" : ascii) ∉ chars s → tag_free s.
Proof.
  intros Hs before after ->. rewrite chars_app in Hs. simpl in Hs.
  rewrite not_elem_of_app, not_elem_of_cons in Hs. tauto.
Qed.

Lemma tag_free_cons c s : c ≠ "<"%char → tag_free s → tag_free (String c s).
Proof.
  intros Hc Hs [|d before] after.
  - rewrite app_empty_l. by intros [= -> _].
  - rewrite app_String. intros [= _ Heq]. by eapply Hs.
Qed.

Lemma untag_tag_free inside s : tag_free (untag inside s).
Proof.
  revert inside. induction s as [|c s IH]; intros inside.
  - intros [|??] ?; simpl; [rewrite app_empty_l|rewrite app_String]; done.
  - simpl. destruct inside.
    + destruct (Ascii.eqb c ">"); apply IH.
    + destruct (Ascii.eqb_spec c "<") as [->|Hne].
      * destruct (has_gt s) eqn:Hgt; [apply IH|].
        apply tag_free_no_gt. simpl. rewrite not_elem_of_cons. split; [done|].
        rewrite <- has_gt_spec. congruence.
      * by apply tag_free_cons.
Qed.

Lemma tag_free_middle before s after : tag_free (before +:+ s +:+ after) → tag_free s.
Proof.
  intros Hfree pre post ->.
  assert ((">" : ascii) ∉ chars (post +:+ after)) as Hnot.
  { apply (Hfree (before +:+ pre)).
    clear. induction before as [|c before IH]; simpl.
    - rewrite !app_empty_l. induction pre as [|c pre IH]; [done|].
      by rewrite !app_String, IH.
    - by rewrite !app_String, IH. }
  rewrite chars_app, not_elem_of_app in Hnot. tauto.
Qed.

Lemma untag_fixed s : tag_free s → untag false s = s.
Proof.
  induction s as [|c s IH]; [done|]. intros Hfree. simpl.
  destruct (Ascii.eqb_spec c "<") as [->|Hne].
  - destruct (has_gt s) eqn:Hgt; [|done]. apply has_gt_spec in Hgt.
    by destruct (Hfree "" s).
  - rewrite IH; [done|]. intros before after ->. apply (Hfree (String c before)).
    by rewrite app_String.
Qed.

Lemma untag_plain s : ("<" : ascii) ∉ chars s → untag false s = s.
Proof.
  intros Hs. apply untag_fixed. intros before after ->.
  rewrite chars_app in Hs. simpl in Hs.
  rewrite not_elem_of_app, not_elem_of_cons in Hs. tauto.
Qed.

Lemma untag_inside mid post :
  (">" : ascii) ∉ chars mid →
  untag true (mid +:+ String ">" post) = untag false post.
Proof.
  induction mid as [|c mid IH]; simpl; [done|].
  rewrite not_elem_of_cons. intros [Hne Hmid].
  destruct (Ascii.eqb_spec c ">"); [congruence|]. by apply IH.
Qed.

Lemma untag_first before mid post :
  ("<" : ascii) ∉ chars before → (">" : ascii) ∉ chars mid →
  untag false (before +:+ String "<" (mid +:+ String ">" post))
  = before +:+ untag false post.
Proof.
  induction before as [|c before IH]; simpl.
  - intros _ Hmid. rewrite app_empty_l. simpl.
    assert (has_gt (mid +:+ String ">" post) = true) as ->.
    { apply has_gt_spec. rewrite chars_app. apply elem_of_app. right. by left. }
    by rewrite untag_inside.
  - rewrite not_elem_of_cons. intros [Hne Hbefore] Hmid. rewrite !app_String. simpl.
    destruct (Ascii.eqb_spec c "<"); [congruence|]. by rewrite IH.
Qed.

(** X20: [stripHtml] leaves no tag, that is no [<] with a [>] after it; it
    is idempotent; it only trims a text without [<]; and the first tag goes
    from the first [<] to the nearest [>] after it. *)
Theorem stripHtml_tags (text : string) :
  tag_free (stripHtml text)
  ∧ stripHtml (stripHtml text) = stripHtml text
  ∧ (("<" : ascii) ∉ chars text → stripHtml text = trim text)
  ∧ ∀ before mid after,
      text = before +:+ String "<" (mid +:+ String ">" after) →
      ("<" : ascii) ∉ chars before → (">" : ascii) ∉ chars mid →
      stripHtml text = trim (before +:+ untag false after).
Proof.
  assert (tag_free (stripHtml text)) as Hfree.
  { unfold stripHtml. destruct (trim_spec (untag false text)) as (b & a & Heq & _).
    eapply tag_free_middle. rewrite <- Heq. apply untag_tag_free. }
  split; [done|]. split; [|split].
  - unfold stripHtml at 1. rewrite (untag_fixed _ Hfree).
    apply trim_tight. unfold stripHtml. apply tight_trim.
  - intros Hplain. unfold stripHtml. by rewrite untag_plain.
  - intros before mid after -> Hbefore Hmid. unfold stripHtml.
    by rewrite untag_first.
Qed.

Lemma lower_lower c : lower (lower c) = lower c.
Proof. destruct c as [[] [] [] [] [] [] [] []]; reflexivity. Qed.

Lemma is_white_lower c : is_white (lower c) = is_white c.
Proof. destruct c as [[] [] [] [] [] [] [] []]; reflexivity. Qed.

Lemma toLowerCase_remove_white s :
  toLowerCase (remove_white s) = remove_white (toLowerCase s).
Proof.
  induction s as [|c s IH]; [done|]. simpl. rewrite is_white_lower.
  destruct (is_white c); simpl; by rewrite IH.
Qed.

Lemma toLowerCase_twice s : toLowerCase (toLowerCase s) = toLowerCase s.
Proof. induction s as [|c s IH]; [done|]. simpl. by rewrite lower_lower, IH. Qed.

Lemma remove_white_twice s : remove_white (remove_white s) = remove_white s.
Proof.
  induction s as [|c s IH]; [done|]. simpl.
  destruct (is_white c) eqn:Hc; [done|]. simpl. by rewrite Hc, IH.
Qed.

(** The key of a name is its own key. *)
Lemma key_twice s :
  remove_white (toLowerCase (remove_white (toLowerCase s)))
  = remove_white (toLowerCase s).
Proof. by rewrite toLowerCase_remove_white, toLowerCase_twice, remove_white_twice. Qed.

Lemma key_lowercase s :
  forallb (λ c, Ascii.eqb (lower c) c) (chars (remove_white (toLowerCase s))) = true.
Proof.
  induction s as [|c s IH]; [done|]. simpl. rewrite is_white_lower.
  destruct (is_white c); [done|]. simpl. by rewrite lower_lower, Ascii.eqb_refl.
Qed.

Lemma prefix_spec p s : String.prefix p s = true ↔ ∃ after, s = p +:+ after.
Proof.
  revert p. induction s as [|b s IH]; intros [|a p]; simpl.
  - split; [by exists "" | done].
  - split; [done|]. intros [after Heq]. by rewrite app_String in Heq.
  - split; [by exists (String b s) | done].
  - destruct (ascii_dec a b) as [->|Hne].
    + rewrite IH. split.
      * intros [after ->]. by exists after.
      * intros [after Heq]. rewrite app_String in Heq. injection Heq as ->. by exists after.
    + split; [done|]. intros [after Heq]. rewrite app_String in Heq. congruence.
Qed.

Lemma includes_spec s sub : includes s sub = true ↔ occurs sub s.
Proof.
  induction s as [|c s IH].
  - change (includes "" sub) with (String.prefix sub "" || false).
    rewrite orb_false_r, prefix_spec. split.
    + intros [after ->]. by exists "", after.
    + intros ([|??] & after & Heq); [by exists after|]. by rewrite app_String in Heq.
  - change (includes (String c s) sub)
      with (String.prefix sub (String c s) || includes s sub).
    rewrite orb_true_iff, prefix_spec, IH. split.
    + intros [[after ->]|(before & after & ->)]; [by exists "", after|].
      by exists (String c before), after.
    + intros ([|d before] & after & Heq).
      * left. by exists after.
      * right. rewrite app_String in Heq. injection Heq as -> ->. by exists before, after.
Qed.

(** What [find] returns is the first entry whose base occurs in the key. *)
Lemma find_first key entries :
  match find (λ entry : string * list string, includes key entry.1) entries with
  | Some partial =>
      ∃ before after,
        entries = before ++ partial :: after
        ∧ occurs partial.1 key
        ∧ ∀ base, base ∈ before.*1 → ¬ occurs base key
  | None => ∀ base, base ∈ entries.*1 → ¬ occurs base key
  end.
Proof.
  induction entries as [|entry entries IH]; simpl; [by intros ? ?%elem_of_nil|].
  destruct (includes key entry.1) eqn:Hentry.
  - exists [], entries. split; [done|]. split; [by apply includes_spec|].
    by intros ? ?%elem_of_nil.
  - assert (¬ occurs entry.1 key) as Hnot by (rewrite <- includes_spec; congruence).
    destruct (find _ entries) as [partial|].
    + destruct IH as (before & after & -> & Hoccurs & Hfirst).
      exists (entry :: before), after. split; [done|]. split; [done|].
      intros base [->|Hbase]%elem_of_cons; [done | by apply Hfirst].
    + intros base [->|Hbase]%elem_of_cons; [done | by apply IH].
Qed.

Lemma entry_of_spec key :
  match entry_of key SUBSTITUTION_MAP with
  | Some exact =>
      (key, exact) ∈ SUBSTITUTION_MAP ∧ exact ≠ []
      ∧ ∀ other, (key, other) ∈ SUBSTITUTION_MAP → other = exact
  | None => ∀ other, (key, other) ∉ SUBSTITUTION_MAP
  end.
Proof.
  unfold SUBSTITUTION_MAP. cbn [entry_of].
  repeat (match goal with
          | |- context [String.eqb ?base key] =>
              destruct (String.eqb_spec base key) as [<-|?]
          end;
          [split; [set_solver|]; split; [done|];
           intros other Hin;
           repeat (apply elem_of_cons in Hin as [Heq|Hin]; [by simplify_eq|]);
           by apply elem_of_nil in Hin|]).
  intros other Hin. repeat (apply elem_of_cons in Hin as [Heq|Hin]; [by simplify_eq|]).
  by apply elem_of_nil in Hin.
Qed.

Lemma table_lists entry : entry ∈ SUBSTITUTION_MAP → entry.2 ≠ [].
Proof.
  intros Hin. unfold SUBSTITUTION_MAP in Hin.
  repeat (apply elem_of_cons in Hin as [->|Hin]; [done|]). by apply elem_of_nil in Hin.
Qed.

Lemma inherited_keys s :
  remove_white (toLowerCase s) ∈ Object_prototype →
  remove_white (toLowerCase s) ∈ ["constructor"; "__proto__"].
Proof.
  pose proof (key_lowercase s) as Hlower. intros Hin. unfold Object_prototype in Hin.
  repeat (apply elem_of_cons in Hin as [Heq|Hin];
          [rewrite Heq in *; first [set_solver | by vm_compute in Hlower]|]).
  by apply elem_of_nil in Hin.
Qed.

(** X21: [getIngredientSubstitutions] depends on a name only through its key,
    the name in lower case without its white space.  For a key other than
    [constructor] and [__proto__] it returns a list: the list of the key when
    the key is a base of the table, otherwise the list of the first base of
    the table, in its order, that occurs in the key, and the empty list
    exactly when no base occurs in it.  For those two keys the lookup finds a
    property that the table inherits and returns it instead of a list. *)
Theorem substitutions_found (ingredientName : string) :
  let key := remove_white (toLowerCase ingredientName) in
  getIngredientSubstitutions key = getIngredientSubstitutions ingredientName
  ∧ (key ∈ ["constructor"; "__proto__"] →
     getIngredientSubstitutions ingredientName = Inherited key)
  ∧ (key ∉ ["constructor"; "__proto__"] →
     ∃ subs,
       getIngredientSubstitutions ingredientName = Substitutes subs
       ∧ (subs ≠ [] ↔ ∃ base, base ∈ bases ∧ occurs base key)
       ∧ (∀ exact, (key, exact) ∈ SUBSTITUTION_MAP → subs = exact)
       ∧ (key ∈ bases → (key, subs) ∈ SUBSTITUTION_MAP)
       ∧ (key ∉ bases →
          subs = []
          ∨ ∃ before base after,
              SUBSTITUTION_MAP = before ++ (base, subs) :: after
              ∧ occurs base key
              ∧ ∀ other, other ∈ before.*1 → ¬ occurs other key)).
Proof.
  intros key. split; [|split].
  - unfold getIngredientSubstitutions, key. by rewrite key_twice.
  - intros Hin. unfold getIngredientSubstitutions. fold key.
    repeat (apply elem_of_cons in Hin as [->|Hin]; [done|]). by apply elem_of_nil in Hin.
  - intros Hnot. unfold getIngredientSubstitutions. fold key.
    pose proof (entry_of_spec key) as Hentry.
    destruct (entry_of key SUBSTITUTION_MAP) as [exact|].
    + destruct Hentry as (Hin & Hsome & Hone). exists exact. split; [done|].
      assert (key ∈ bases) as Hbase.
      { unfold bases. apply list_elem_of_fmap. by exists (key, exact). }
      split; [|split; [|split]]; [|by intros other Hother; symmetry; apply Hone|done|done].
      split; [|done]. intros _. exists key. split; [done|].
      exists "", "". by rewrite app_empty_l, app_empty_r.
    + rewrite bool_decide_eq_false_2.
      2:{ intros Hproto. by apply Hnot, inherited_keys. }
      assert (key ∉ bases) as Hbase.
      { unfold bases. intros ([base other] & -> & Hin)%list_elem_of_fmap.
        by destruct (Hentry other). }
      pose proof (find_first key SUBSTITUTION_MAP) as Hfind.
      destruct (find _ SUBSTITUTION_MAP) as [[base subs]|].
      * destruct Hfind as (before & after & Hmap & Hoccurs & Hfirst).
        assert ((base, subs) ∈ SUBSTITUTION_MAP) as Hin.
        { rewrite Hmap. apply elem_of_app. right. by left. }
        exists subs. split; [done|].
        split; [|split; [|split]]; [|by intros exact Hexact; destruct (Hentry exact)|done|].
        -- split; [|by intros _; apply (table_lists _ Hin)].
           intros _. exists base. split; [|done].
           unfold bases. apply list_elem_of_fmap. by exists (base, subs).
        -- intros _. right. by exists before, base, after.
      * exists []. split; [done|].
        split; [|split; [|split]]; [|by intros exact Hexact; destruct (Hentry exact)|done|].
        -- split; [done|]. intros (base & Hbase' & Hoccurs). by destruct (Hfind base).
        -- intros _. by left.
Qed.

End texts.

(** ** The names of the ingredients *)

Section names.
Import Frontend Cards.

Lemma toLowerCase_trimStart s : toLowerCase (trimStart s) = trimStart (toLowerCase s).
Proof.
  induction s as [|c s IH]; [done|]. simpl. rewrite is_white_lower.
  by destruct (is_white c).
Qed.

Lemma toLowerCase_trimEnd s : toLowerCase (trimEnd s) = trimEnd (toLowerCase s).
Proof.
  induction s as [|c s IH]; [done|]. simpl. rewrite <- IH, is_white_lower.
  destruct (trimEnd s); simpl; [|done]. by destruct (is_white c).
Qed.

Lemma toLowerCase_collapse_white s :
  toLowerCase (collapse_white s) = collapse_white (toLowerCase s).
Proof.
  induction s as [|c s IH]; [done|].
  cbn [collapse_white toLowerCase]. rewrite is_white_lower.
  destruct (is_white c) eqn:Hc; [|by cbn [toLowerCase]; rewrite IH].
  destruct s as [|d s]; [done|]. cbn [toLowerCase] in *. rewrite is_white_lower.
  destruct (is_white d); [done|]. cbn [toLowerCase]. by rewrite IH.
Qed.

Lemma collapse_white_cons c s :
  collapse_white (String c s)
  = if is_white c
    then match s with
         | String d _ => if is_white d then collapse_white s
                         else String " " (collapse_white s)
         | EmptyString => String " " EmptyString
         end
    else String c (collapse_white s).
Proof. done. Qed.

Lemma collapse_white_length s : (String.length (collapse_white s) ≤ String.length s)%nat.
Proof.
  induction s as [|c s IH]; [done|]. cbn [collapse_white].
  destruct (is_white c).
  - destruct s as [|d s]; [done|]. destruct (is_white d); simpl in *; lia.
  - simpl. lia.
Qed.

(** A text in which a run of white space is one space stays so without its
    first character. *)
Lemma collapse_white_rest c s :
  collapse_white (String c s) = String c s →
  collapse_white s = s
  ∧ (is_white c = true → c = " "%char
       ∧ match s with String d _ => is_white d = false | EmptyString => True end).
Proof.
  rewrite collapse_white_cons.
  destruct (is_white c) eqn:Hc.
  - destruct s as [|d s]; [by intros [= <-]|].
    destruct (is_white d) eqn:Hd.
    + intros Heq. pose proof (collapse_white_length (String d s)) as Hlen.
      rewrite Heq in Hlen. simpl in Hlen. lia.
    + intros Heq. injection Heq as <- Heq. split; [|done]. cbn [collapse_white]. by rewrite Hd in *.
  - by intros [= ->].
Qed.

Lemma collapse_white_trimStart s :
  collapse_white s = s → collapse_white (trimStart s) = trimStart s.
Proof.
  induction s as [|c s IH]; [done|]. intros Heq. simpl trimStart.
  destruct (is_white c); [|done]. apply IH. by apply collapse_white_rest in Heq as [? _].
Qed.

Lemma collapse_white_trimEnd s :
  collapse_white s = s → collapse_white (trimEnd s) = trimEnd s.
Proof.
  induction s as [|c s IH]; [done|]. intros Heq.
  apply collapse_white_rest in Heq as [Hrest Hc]. specialize (IH Hrest).
  simpl trimEnd. destruct (trimEnd s) as [|d kept] eqn:Hend.
  - destruct (is_white c) eqn:Hwhite; [done|]. simpl. by rewrite Hwhite.
  - assert (∃ more, s = String d more) as [more ->].
    { destruct s as [|d' s']; [done|]. simpl in Hend.
      destruct (trimEnd s'); [destruct (is_white d')|]; simplify_eq; eauto. }
    cbn [collapse_white] in *. destruct (is_white c) eqn:Hwhite.
    + destruct (Hc eq_refl) as [-> Hd]. rewrite Hd in *. by rewrite IH.
    + by rewrite IH.
Qed.

Lemma collapse_white_twice s : collapse_white (collapse_white s) = collapse_white s.
Proof.
  induction s as [|c s IH]; [done|]. rewrite (collapse_white_cons c s).
  destruct (is_white c) eqn:Hc.
  - destruct s as [|d s]; [done|]. destruct (is_white d) eqn:Hd; [done|].
    rewrite (collapse_white_cons d s), Hd in *.
    rewrite collapse_white_cons. change (is_white " ") with true. cbv iota.
    by rewrite Hd, IH.
  - by rewrite collapse_white_cons, Hc, IH.
Qed.

(** The name that a comparison takes is left as it is by each of the three
    steps that made it. *)
Lemma normalizeIngredientName_steps s :
  let name := normalizeIngredientName s in
  toLowerCase name = name ∧ collapse_white name = name ∧ trim name = name.
Proof.
  simpl. unfold normalizeIngredientName. split; [|split].
  - unfold trim. rewrite toLowerCase_trimEnd, toLowerCase_trimStart.
    by rewrite toLowerCase_collapse_white, toLowerCase_twice.
  - unfold trim. apply collapse_white_trimEnd, collapse_white_trimStart.
    apply collapse_white_twice.
  - apply trim_tight, tight_trim.
Qed.

Lemma spices_normal : normalizeIngredientName <$> COMMON_SPICES = COMMON_SPICES.
Proof. reflexivity. Qed.

(** X23: the name under which an ingredient is compared is left as it is by
    [normalizeIngredientName] and by each of its three steps, and it does not
    depend on the case of the letters.  With the spices ignored, the
    ingredients counted are those whose name is none of the twelve of
    [COMMON_SPICES]; otherwise all are counted. *)
Theorem ingredient_names (s : string) (l : option (list ingredient)) :
  let name := normalizeIngredientName s in
  normalizeIngredientName name = name
  ∧ toLowerCase name = name ∧ collapse_white name = name ∧ trim name = name
  ∧ normalizeIngredientName (toLowerCase s) = name
  ∧ count_kept (ignoredSpices true) l
    = length (filter (λ i, normalizeIngredientName (label i) ∉ COMMON_SPICES) (default [] l))
  ∧ count_kept (ignoredSpices false) l = length (default [] l).
Proof.
  destruct (normalizeIngredientName_steps s) as (Hlower & Hcollapse & Htrim).
  simpl in *. split; [|split; [done|split; [done|split; [done|]]]].
  - unfold normalizeIngredientName at 1. by rewrite Hlower, Hcollapse, Htrim.
  - split; [|split].
    + unfold normalizeIngredientName. by rewrite toLowerCase_twice.
    + unfold count_kept, ignoredSpices. rewrite spices_normal. f_equal.
      apply list_filter_iff. intros i. by rewrite elem_of_list_to_set.
    + unfold count_kept, ignoredSpices. f_equal.
      induction (default [] l) as [|i rest IH]; [done|].
      rewrite filter_cons_True by set_solver. by rewrite IH.
Qed.

End names.
